(** * Raycast maze: maze generator, exploration tracker, collision resolver,
      DDA ray march, wall slice of the renderer and level logic.

    The functions are those of [raycast_maze.cpp]; the same functions of
    [raycast_maze-all-sdl2-only.cpp] differ from them in layout only, and
    those of [raycast_maze-v1.cpp] that differ are in module [V1].  The
    parts of [main] that are modelled are the body of the raycasting loop for
    a screen column (the march, the height of the slice, the texture column,
    the pixel loop) and the level logic of a frame; the latter is compiled
    under other conditions in [raycast_maze-all-sdl2-only.cpp], module
    [SDL2Only].

    Integers of the source ([int]) are [Z]; where the source adds to an [int]
    in a loop the two's-complement wrap-around is written out.  The global
    arrays [gameMap] and [visitedCells] are lists of rows, passed in and
    returned; an access outside the array is an error of the model
    ([Err OutOfBounds]).  [double] is the kernel's binary64 type [float].
    The map's dimensions [MAP_WIDTH] and [MAP_HEIGHT], compile-time constants
    of the source, are parameters of the functions; the program's value is
    250 for both. *)

From Stdlib Require Import ZArith Lia Floats Uint63.
From stdpp Require Import base tactics option list.

Local Open Scope Z_scope.

(** ** Results of the modelled code *)

Inductive error : Type :=
  | OutOfBounds   (* array access outside its bounds *)
  | DivByZero     (* a division whose divisor is zero *)
  | OutOfFuel.    (* the loop did not finish within the given fuel *)

Inductive result (A : Type) : Type :=
  | Ok (a : A)
  | Err (e : error).
Arguments Ok {A} a.
Arguments Err {A} e.

Global Instance result_ret : MRet result := λ A a, Ok a.
Global Instance result_bind : MBind result :=
  λ A B f r, match r with Ok a => f a | Err e => Err e end.

(** ** 32-bit [int] *)

Module Int.
Definition INT_MIN : Z := - 2 ^ 31.
Definition INT_MAX : Z := 2 ^ 31 - 1.

(** Two's-complement reduction of a mathematical integer to [int]. *)
Definition wrap (z : Z) : Z := (z + 2 ^ 31) mod 2 ^ 32 - 2 ^ 31.

Definition add (a b : Z) : Z := wrap (a + b).

Definition representable (z : Z) : Prop := INT_MIN ≤ z ≤ INT_MAX.

End Int.

(** ** Two-dimensional arrays [T a[H][W]], indexed [a[y][x]] *)

Section Array2D.
Context {A : Type}.
Variables (W H : Z).

Definition in_range (x y : Z) : bool :=
  (0 <=? x) && (x <? W) && (0 <=? y) && (y <? H).

(** The array has [H] rows of [W] elements. *)
Definition wf (a : list (list A)) : Prop :=
  length a = Z.to_nat H ∧ Forall (λ row, length row = Z.to_nat W) a.

(** [a[y][x]]: [None] outside the array. *)
Definition rd (a : list (list A)) (x y : Z) : option A :=
  if in_range x y then a !! Z.to_nat y ≫= (λ row, row !! Z.to_nat x) else None.

(** [a[y][x] = v]: an error outside the array. *)
Definition wr (a : list (list A)) (x y : Z) (v : A) : result (list (list A)) :=
  if in_range x y then Ok (alter (λ row, <[Z.to_nat x := v]> row) (Z.to_nat y) a)
  else Err OutOfBounds.

End Array2D.

(** ** Counted loops [for (int i = lo; i < hi; ++i) body] *)

Fixpoint for_loop {St : Type} (n : nat) (i : Z) (body : Z → St → result St) (s : St)
  : result St :=
  match n with
  | O => Ok s
  | S n' => s' ← body i s; for_loop n' (i + 1) body s'
  end.

Definition for_range {St : Type} (lo hi : Z) (body : Z → St → result St) (s : St)
  : result St :=
  for_loop (Z.to_nat (hi - lo)) lo body s.

(** ** Random draws

    [std::uniform_int_distribution<> dis(lo, hi); dis(gen)] yields some value of
    [lo..hi].  The generator is a stream of arbitrary integers, the [k]-th
    draw reduced into the range; every value of the range is the outcome of
    some stream, so a statement for all streams is one for all executions. *)

Definition uniform_int (lo hi r : Z) : Z := lo + r mod (hi - lo + 1).

(** ** Build configuration: the win-condition macros *)

Record config : Type := {
  USE_THRESHOLD : bool;
  USE_FINISH : bool;
  USE_BOTH : bool;
}.

(** [#if !defined(USE_THRESHOLD) || defined(USE_FINISH) || defined(USE_BOTH)] *)
Definition finish_enabled (c : config) : bool :=
  negb (USE_THRESHOLD c) || USE_FINISH c || USE_BOTH c.

(** ** The maze: [gameMap], 0 = empty, 1 = wall, 2 = finish *)

Definition Empty : Z := 0.
Definition Wall : Z := 1.
Definition Finish : Z := 2.

Definition directions : list (Z * Z) := [(0, -2); (0, 2); (-2, 0); (2, 0)].

Section Maze.
Variables (MAP_WIDTH MAP_HEIGHT : Z).

Local Abbreviation grid := (list (list Z)).
Local Abbreviation rdG := (rd MAP_WIDTH MAP_HEIGHT).
Local Abbreviation wrG := (wr MAP_WIDTH MAP_HEIGHT).

(** [gameMap[y][x]] read where the source has tested the bounds before; the
    value outside the array is never looked at. *)
Definition cell (g : grid) (x y : Z) : Z := default 0 (rdG g x y).

Definition getCell (g : grid) (x y : Z) : Z :=
  if (x <? 0) || (x >=? MAP_WIDTH) || (y <? 0) || (y >=? MAP_HEIGHT) then 1
  else cell g x y.

(** The two loops that set every cell to 1. *)
Definition fill_walls (g : grid) : result grid :=
  for_range 0 MAP_HEIGHT
    (λ y g, for_range 0 MAP_WIDTH (λ x g, wrG g x y 1) g) g.

(** One direction of the neighbour scan: the lattice neighbour when it lies
    strictly inside the border and is still a wall. *)
Definition candidate (g : grid) (cx cy : Z) (d : Z * Z) : option (Z * Z) :=
  let nx := cx + d.1 in
  let ny := cy + d.2 in
  if (0 <? nx) && (nx <? MAP_WIDTH - 1) && (0 <? ny) && (ny <? MAP_HEIGHT - 1)
     && (cell g nx ny =? 1)
  then Some (nx, ny) else None.

Definition neighbors (g : grid) (cx cy : Z) : list (Z * Z) :=
  omap (candidate g cx cy) directions.

(** One iteration of [while (!stack.empty())]; [k] counts the draws taken
    from [gen].  The stack's top is the head of the list. *)
Definition carve_step (gen : nat → Z) (k : nat) (g : grid) (stack : list (Z * Z))
  : result (nat * grid * list (Z * Z)) :=
  match stack with
  | [] => Ok (k, g, [])
  | (cx, cy) :: rest =>
      let ns := neighbors g cx cy in
      match ns with
      | [] => Ok (k, g, rest)
      | _ :: _ =>
          let i := uniform_int 0 (Z.of_nat (length ns) - 1) (gen k) in
          match ns !! Z.to_nat i with
          | None => Err OutOfBounds
          | Some (nx, ny) =>
              let wallX := cx + Z.quot (nx - cx) 2 in
              let wallY := cy + Z.quot (ny - cy) 2 in
              g1 ← wrG g wallX wallY 0;
              g2 ← wrG g1 nx ny 0;
              Ok (S k, g2, (nx, ny) :: stack)
          end
      end
  end.

Fixpoint carve_loop (fuel : nat) (gen : nat → Z) (k : nat) (g : grid)
    (stack : list (Z * Z)) : result grid :=
  match stack with
  | [] => Ok g
  | _ :: _ =>
      match fuel with
      | O => Err OutOfFuel
      | S fuel' =>
          '(k', g', stack') ← carve_step gen k g stack;
          carve_loop fuel' gen k' g' stack'
      end
  end.

(** The two loops that force the border to walls. *)
Definition force_borders (g : grid) : result grid :=
  g1 ← for_range 0 MAP_HEIGHT
         (λ y g, g' ← wrG g 0 y 1; wrG g' (MAP_WIDTH - 1) y 1) g;
  for_range 0 MAP_WIDTH
    (λ x g, g' ← wrG g x 0 1; wrG g' x (MAP_HEIGHT - 1) 1) g1.

(** The finish cell and the cell opened next to it, as the two draws of
    [placeRandomFinish] decide them: 0 = TOP, 1 = BOTTOM, 2 = LEFT, 3 = RIGHT. *)
Definition finish_border (gen : nat → Z) : Z := uniform_int 0 3 (gen 0%nat).

Definition finish_cell (gen : nat → Z) : Z * Z :=
  let border := finish_border gen in
  if border =? 0 then (uniform_int 1 (MAP_WIDTH - 2) (gen 1%nat), 0)
  else if border =? 1 then (uniform_int 1 (MAP_WIDTH - 2) (gen 1%nat), MAP_HEIGHT - 1)
  else if border =? 2 then (0, uniform_int 1 (MAP_HEIGHT - 2) (gen 1%nat))
  else (MAP_WIDTH - 1, uniform_int 1 (MAP_HEIGHT - 2) (gen 1%nat)).

Definition passage_cell (gen : nat → Z) : Z * Z :=
  let border := finish_border gen in
  let '(fX, fY) := finish_cell gen in
  if border =? 0 then (fX, fY + 1)
  else if border =? 1 then (fX, fY - 1)
  else if border =? 2 then (fX + 1, fY)
  else (fX - 1, fY).

Definition placeRandomFinish (gen : nat → Z) (g : grid) : result grid :=
  let border := uniform_int 0 3 (gen 0%nat) in
  if border =? 0 then
    let fY := 0 in
    let fX := uniform_int 1 (MAP_WIDTH - 2) (gen 1%nat) in
    g1 ← wrG g fX (fY + 1) 0;
    wrG g1 fX fY 2
  else if border =? 1 then
    let fY := MAP_HEIGHT - 1 in
    let fX := uniform_int 1 (MAP_WIDTH - 2) (gen 1%nat) in
    g1 ← wrG g fX (fY - 1) 0;
    wrG g1 fX fY 2
  else if border =? 2 then
    let fX := 0 in
    let fY := uniform_int 1 (MAP_HEIGHT - 2) (gen 1%nat) in
    g1 ← wrG g (fX + 1) fY 0;
    wrG g1 fX fY 2
  else
    let fX := MAP_WIDTH - 1 in
    let fY := uniform_int 1 (MAP_HEIGHT - 2) (gen 1%nat) in
    g1 ← wrG g (fX - 1) fY 0;
    wrG g1 fX fY 2.

(** The carving part of [generateMaze]: fill, start cell, backtracking loop. *)
Definition carve (fuel : nat) (gen : nat → Z) (g0 : grid) : result grid :=
  g1 ← fill_walls g0;
  g2 ← wrG g1 1 1 0;
  carve_loop fuel gen 0%nat g2 [(1, 1)].

Definition generateMaze (cfg : config) (fuel : nat) (gen genF : nat → Z) (g0 : grid)
  : result grid :=
  g3 ← carve fuel gen g0;
  g4 ← force_borders g3;
  if finish_enabled cfg then placeRandomFinish genF g4 else Ok g4.
End Maze.

(** ** Exploration tracking: [visitedCells] and [distinctVisited] *)

Record tracker : Type := {
  visitedCells : list (list bool);
  distinctVisited : Z;
}.

(** ** [double] and its conversions *)

(** The integer part of a finite [double], rounded by [rnd] on the exact
    quotient; [None] for infinities and NaN. *)
Definition float_to_Z (rnd : Z → Z → Z) (x : float) : option Z :=
  match Prim2SF x with
  | S754_zero _ => Some 0
  | S754_finite s m e =>
      let n := if s then Z.neg m else Z.pos m in
      Some (if 0 <=? e then n * 2 ^ e else rnd n (2 ^ (- e)))
  | S754_infinity _ | S754_nan => None
  end.

(** Conversion to [int].  C++ leaves the conversion undefined when the value
    does not fit; the model takes what [cvttsd2si] gives there, [INT_MIN]. *)
Definition to_int (z : option Z) : Z :=
  match z with
  | Some z => if (Int.INT_MIN <=? z) && (z <=? Int.INT_MAX) then z else Int.INT_MIN
  | None => Int.INT_MIN
  end.

(** [static_cast<int>(x)]: truncation toward zero. *)
Definition static_cast_int (x : float) : Z := to_int (float_to_Z Z.quot x).

(** [static_cast<int>(std::floor(x))]. *)
Definition floor_int (x : float) : Z := to_int (float_to_Z Z.div x).

(** [static_cast<int>(std::ceil(x))]. *)
Definition ceil_int (x : float) : Z :=
  to_int (float_to_Z (λ n d, - ((- n) / d)) x).

(** [std::floor(x)] as a [double]: the value itself when it has no fraction
    bits (and for zeros, infinities and NaN), else the integer below, which
    is below [2 ^ 53] in magnitude and so exact. *)
Definition floor_double (x : float) : float :=
  match Prim2SF x with
  | S754_finite s m e =>
      if 0 <=? e then x
      else
        let z := (if s then Z.neg m else Z.pos m) / 2 ^ (- e) in
        if z <? 0 then PrimFloat.opp (PrimFloat.of_uint63 (Uint63.of_Z (- z)))
        else PrimFloat.of_uint63 (Uint63.of_Z z)
  | _ => x
  end.

(** [(double)z] for an [int] [z]. *)
Definition double_of_int (z : Z) : float :=
  if z <? 0 then PrimFloat.opp (PrimFloat.of_uint63 (Uint63.of_Z (- z)))
  else PrimFloat.of_uint63 (Uint63.of_Z z).

(** [std::max(a, b)] is [(a < b) ? b : a], [std::min(a, b)] is [(b < a) ? b : a]. *)
Definition fmax (a b : float) : float := if PrimFloat.ltb a b then b else a.
Definition fmin (a b : float) : float := if PrimFloat.ltb b a then b else a.

(** A division that shows a zero divisor as an error of the model, used where
    the source guards its division against one. *)
Definition checked_div (a b : float) : result float :=
  if PrimFloat.eqb b 0%float then Err DivByZero else Ok (PrimFloat.div a b).

(** The literals [1e30] and [0.66] as the nearest binary64 values. *)
Definition huge : float := 0x1.93e5939a08ceap+99%float.
Definition plane_windowed : float := 0x1.51eb851eb851fp-1%float.

(** The outcome of one column's ray march. *)
Record hit : Type := {
  hit_mapX : Z;
  hit_mapY : Z;
  hit_side : Z;
  hit_perpWallDist : float;
}.

(** The marching state: [mapX], [mapY], [sideDistX], [sideDistY], [side]. *)
Record march : Type := {
  mapX : Z;
  mapY : Z;
  sideDistX : float;
  sideDistY : float;
  side : Z;
}.

Section Game.
Variables (MAP_WIDTH MAP_HEIGHT : Z).

Local Abbreviation grid := (list (list Z)).
Local Abbreviation getCell := (getCell MAP_WIDTH MAP_HEIGHT).
Local Abbreviation rdV := (rd (A:=bool) MAP_WIDTH MAP_HEIGHT).
Local Abbreviation wrV := (wr (A:=bool) MAP_WIDTH MAP_HEIGHT).

(** *** Exploration tracker *)

Definition initVisited (t : tracker) : result tracker :=
  v ← for_range 0 MAP_HEIGHT
        (λ y v, for_range 0 MAP_WIDTH (λ x v, wrV v x y false) v) (visitedCells t);
  Ok {| visitedCells := v; distinctVisited := 0 |}.

(** The body of [updateVisited] after the two conversions to [int]. *)
Definition recordVisit (cellX cellY : Z) (t : tracker) : result tracker :=
  if (cellX >=? 0) && (cellX <? MAP_WIDTH) && (cellY >=? 0) && (cellY <? MAP_HEIGHT)
     && negb (default false (rdV (visitedCells t) cellX cellY))
  then
    v ← wrV (visitedCells t) cellX cellY true;
    Ok {| visitedCells := v; distinctVisited := Int.add (distinctVisited t) 1 |}
  else Ok t.

Definition updateVisited (posX posY : float) (t : tracker) : result tracker :=
  recordVisit (static_cast_int posX) (static_cast_int posY) t.

(** A sequence of calls, one for each cell coordinate of the list. *)
Fixpoint recordVisits (cells : list (Z * Z)) (t : tracker) : result tracker :=
  match cells with
  | [] => Ok t
  | (cellX, cellY) :: cells' => t' ← recordVisit cellX cellY t; recordVisits cells' t'
  end.

(** *** Finish condition *)

Definition checkWin (g : grid) (posX posY : float) : bool :=
  getCell g (static_cast_int posX) (static_cast_int posY) =? 2.

(** *** Collision resolution *)

(** [std::max((double)c, std::min(p, (double)(c + 1)))]: the coordinate of the
    point of the cell's unit square closest to [p]. *)
Definition closest (c : Z) (p : float) : float :=
  fmax (double_of_int c) (fmin p (double_of_int (c + 1))).

(** [distSq] for the cell [(cx, cy)] and the centre [(posX, posY)]. *)
Definition dist_sq (posX posY : float) (cx cy : Z) : float :=
  let distX := (posX - closest cx posX)%float in
  let distY := (posY - closest cy posY)%float in
  (distX * distX + distY * distY)%float.

(** [distSq < hitbox * hitbox]: the circle penetrates the cell. *)
Definition overlaps (posX posY hitbox : float) (cx cy : Z) : bool :=
  PrimFloat.ltb (dist_sq posX posY cx cy) (hitbox * hitbox)%float.

(** The body of the two scanning loops for the cell [(cx, cy)]; [obstacle]
    is the test on the cell's kind. *)
Definition resolve_cell (obstacle : Z → bool) (g : grid) (hitbox : float)
    (cx cy : Z) (pos : float * float) : result (float * float) :=
  let '(posX, posY) := pos in
  if obstacle (getCell g cx cy) then
    let closestX := closest cx posX in
    let closestY := closest cy posY in
    let distX := (posX - closestX)%float in
    let distY := (posY - closestY)%float in
    let distSq := (distX * distX + distY * distY)%float in
    if PrimFloat.ltb distSq (hitbox * hitbox)%float then
      let dist := PrimFloat.sqrt distSq in
      let pen := (hitbox - dist)%float in
      if PrimFloat.eqb dist 0%float then Ok (posX, (posY - pen)%float)
      else
        qx ← checked_div distX dist;
        qy ← checked_div distY dist;
        Ok ((posX + qx * pen)%float, (posY + qy * pen)%float)
    else Ok pos
  else Ok pos.

Definition scan_range (posX posY hitbox : float) : Z * Z * Z * Z :=
  let startX := Z.max 0 (floor_int (posX - hitbox)%float) in
  let endX := Z.min (MAP_WIDTH - 1) (ceil_int (posX + hitbox)%float) in
  let startY := Z.max 0 (floor_int (posY - hitbox)%float) in
  let endY := Z.min (MAP_HEIGHT - 1) (ceil_int (posY + hitbox)%float) in
  (startX, endX, startY, endY).

Definition resolve_with (obstacle : Z → bool) (g : grid) (posX posY hitbox : float)
  : result (float * float) :=
  let '(startX, endX, startY, endY) := scan_range posX posY hitbox in
  for_range startY (endY + 1)
    (λ cy pos,
       for_range startX (endX + 1)
         (λ cx pos, resolve_cell obstacle g hitbox cx cy pos) pos)
    (posX, posY).

(** [raycast_maze.cpp]: [if (getCell(cx, cy) == 1)]. *)
Definition resolveCircleCollision : grid → float → float → float → result (float * float) :=
  resolve_with (λ c, c =? 1).

Definition updatePlayerPosition (g : grid) (posX posY dx dy hitbox : float)
  : result (float * float) :=
  resolveCircleCollision g (posX + dx)%float (posY + dy)%float hitbox.

(** *** The ray march of one screen column *)

(** One pass through the body of [while (!hit)], up to the test of the cell. *)
Definition dda_step (stepX stepY : Z) (deltaDistX deltaDistY : float) (m : march)
  : march :=
  if PrimFloat.ltb (sideDistX m) (sideDistY m) then
    {| mapX := Int.add (mapX m) stepX; mapY := mapY m;
       sideDistX := (sideDistX m + deltaDistX)%float; sideDistY := sideDistY m;
       side := 0 |}
  else
    {| mapX := mapX m; mapY := Int.add (mapY m) stepY;
       sideDistX := sideDistX m; sideDistY := (sideDistY m + deltaDistY)%float;
       side := 1 |}.

Fixpoint dda_loop (fuel : nat) (g : grid) (stepX stepY : Z)
    (deltaDistX deltaDistY : float) (m : march) : result march :=
  match fuel with
  | O => Err OutOfFuel
  | S fuel' =>
      let m' := dda_step stepX stepY deltaDistX deltaDistY m in
      if getCell g (mapX m') (mapY m') >? 0 then Ok m'
      else dda_loop fuel' g stepX stepY deltaDistX deltaDistY m'
  end.

(** The march from a given ray direction: set-up, loop and perpendicular
    distance (the lines from [int mapX = ...] to [double perpWallDist]). *)
Definition march_ray (fuel : nat) (g : grid) (posX posY rayDirX rayDirY : float)
  : result hit :=
  let mapX0 := static_cast_int posX in
  let mapY0 := static_cast_int posY in
  let deltaDistX :=
    if PrimFloat.eqb rayDirX 0%float then huge else PrimFloat.abs (1 / rayDirX)%float in
  let deltaDistY :=
    if PrimFloat.eqb rayDirY 0%float then huge else PrimFloat.abs (1 / rayDirY)%float in
  let stepX := if PrimFloat.ltb rayDirX 0%float then -1 else 1 in
  let stepY := if PrimFloat.ltb rayDirY 0%float then -1 else 1 in
  let sideDistX0 :=
    if PrimFloat.ltb rayDirX 0%float
    then ((posX - double_of_int mapX0) * deltaDistX)%float
    else ((double_of_int mapX0 + 1 - posX) * deltaDistX)%float in
  let sideDistY0 :=
    if PrimFloat.ltb rayDirY 0%float
    then ((posY - double_of_int mapY0) * deltaDistY)%float
    else ((double_of_int mapY0 + 1 - posY) * deltaDistY)%float in
  m ← dda_loop fuel g stepX stepY deltaDistX deltaDistY
        {| mapX := mapX0; mapY := mapY0;
           sideDistX := sideDistX0; sideDistY := sideDistY0; side := 0 |};
  let perpWallDist :=
    if side m =? 0
    then ((double_of_int (mapX m) - posX + double_of_int (1 - stepX) / 2) / rayDirX)%float
    else ((double_of_int (mapY m) - posY + double_of_int (1 - stepY) / 2) / rayDirY)%float in
  Ok {| hit_mapX := mapX m; hit_mapY := mapY m; hit_side := side m;
        hit_perpWallDist := perpWallDist |}.

(** Column [x] of a screen [screenWidth] wide. *)
Definition cast_column (fuel : nat) (g : grid)
    (posX posY dirX dirY planeX planeY : float) (screenWidth x : Z) : result hit :=
  let cameraX := (2 * double_of_int x / double_of_int screenWidth - 1)%float in
  let rayDirX := (dirX + planeX * cameraX)%float in
  let rayDirY := (dirY + planeY * cameraX)%float in
  march_ray fuel g posX posY rayDirX rayDirY.
End Game.

(** ** [raycast_maze-v1.cpp]: the functions that differ *)

Module V1.
Section V1.
Variables (MAP_WIDTH MAP_HEIGHT : Z).

Local Abbreviation grid := (list (list Z)).
Local Abbreviation rdV := (rd (A:=bool) MAP_WIDTH MAP_HEIGHT).
Local Abbreviation wrV := (wr (A:=bool) MAP_WIDTH MAP_HEIGHT).

(** [updateVisited] without the test of the bounds. *)
Definition recordVisit (cellX cellY : Z) (t : tracker) : result tracker :=
  match rdV (visitedCells t) cellX cellY with
  | None => Err OutOfBounds
  | Some b =>
      if negb b then
        v ← wrV (visitedCells t) cellX cellY true;
        Ok {| visitedCells := v; distinctVisited := Int.add (distinctVisited t) 1 |}
      else Ok t
  end.

Definition updateVisited (posX posY : float) (t : tracker) : result tracker :=
  recordVisit (static_cast_int posX) (static_cast_int posY) t.

(** [if (getCell(cx, cy) != 0)]. *)
Definition resolveCircleCollision
  : grid → float → float → float → result (float * float) :=
  resolve_with MAP_WIDTH MAP_HEIGHT (λ c, negb (c =? 0)).

(** The finish cell is fixed: [finishX = MAP_WIDTH - 3], [finishY = MAP_HEIGHT - 3]. *)
Definition generateMaze (fuel : nat) (gen : nat → Z) (g0 : grid) : result grid :=
  g3 ← carve MAP_WIDTH MAP_HEIGHT fuel gen g0;
  g4 ← force_borders MAP_WIDTH MAP_HEIGHT g3;
  wr MAP_WIDTH MAP_HEIGHT g4 (MAP_WIDTH - 3) (MAP_HEIGHT - 3) 2.
End V1.
End V1.

(** ** Arithmetic of [int] beyond addition

    As for [Int.add], the two's-complement result stands where the exact one
    does not fit. *)

Module IntOps.
Definition neg (a : Z) : Z := Int.wrap (- a).
Definition sub (a b : Z) : Z := Int.wrap (a - b).
Definition mul (a b : Z) : Z := Int.wrap (a * b).

(** [a / b] truncates toward zero; a zero divisor is an error of the model. *)
Definition div (a b : Z) : result Z :=
  if b =? 0 then Err DivByZero else Ok (Int.wrap (Z.quot a b)).
End IntOps.

(** ** The renderer: the wall slice of one screen column

    The lines of the raycasting loop from [int drawStart] to the end of the
    pixel loop.  [lineHeight] and [texX], which the source computes in
    [double] from the ray's hit, are inputs; [screenPixels], the pixels of the
    locked surface, is a list of [Uint32] in row-major order with
    [screenPitch] pixels in a row; [white] and [black] are the two values of
    [SDL_MapRGB] for the finish cell's checkerboard. *)

Definition TEX_WIDTH : Z := 64.
Definition TEX_HEIGHT : Z := 64.

Definition draw_start (screenHeight lineHeight : Z) : Z :=
  let drawStart := Int.add (Z.quot (IntOps.neg lineHeight) 2) (Z.quot screenHeight 2) in
  if drawStart <? 0 then 0 else drawStart.

Definition draw_end (screenHeight lineHeight : Z) : Z :=
  let drawEnd := Int.add (Z.quot lineHeight 2) (Z.quot screenHeight 2) in
  if drawEnd >=? screenHeight then IntOps.sub screenHeight 1 else drawEnd.

(** The colour of a wall hit on a Y side: the channels [r], [g], [b] shifted
    right by one, [a] kept.  [color] is a [Uint32]; the four [Uint8] are
    promoted to [int] for the shifts and the result is converted back. *)
Definition shade (color : Z) : Z :=
  let a := Z.land (Z.shiftr color 24) 255 in
  let r := Z.shiftr (Z.land (Z.shiftr color 16) 255) 1 in
  let g := Z.shiftr (Z.land (Z.shiftr color 8) 255) 1 in
  let b := Z.shiftr (Z.land color 255) 1 in
  Z.lor (Z.lor (Z.lor (Int.wrap (Z.shiftl a 24)) (Z.shiftl r 16)) (Z.shiftl g 8)) b
  mod 2 ^ 32.

(** The checkerboard of the finish cell, [blockSize = 8]. *)
Definition checker (white black texX texY : Z) : Z :=
  if Z.rem (Int.add (Z.quot texX 8) (Z.quot texY 8)) 2 =? 0 then white else black.

Section Render.
Variables (screenHeight screenPitch : Z).
Variable wallTexArr : list (list Z).
Variables (white black : Z).

(** The colour of one pixel of the slice. *)
Definition texel (cellType side texX texY : Z) : result Z :=
  if cellType =? 2 then Ok (checker white black texX texY)
  else
    match rd TEX_WIDTH TEX_HEIGHT wallTexArr texX texY with
    | None => Err OutOfBounds
    | Some color => Ok (if side =? 1 then shade color else color)
    end.

(** [screenPixels[i] = color]. *)
Definition put_pixel (screenPixels : list Z) (i color : Z) : result (list Z) :=
  if (0 <=? i) && (i <? Z.of_nat (length screenPixels))
  then Ok (<[Z.to_nat i := color]> screenPixels)
  else Err OutOfBounds.

Definition draw_column (x lineHeight texX cellType side : Z) (screenPixels : list Z)
  : result (list Z) :=
  let drawStart := draw_start screenHeight lineHeight in
  let drawEnd := draw_end screenHeight lineHeight in
  texStep ← IntOps.div (Z.shiftl TEX_HEIGHT 16) lineHeight;
  let texPos0 :=
    IntOps.mul
      (Int.add (IntOps.sub drawStart (Z.quot screenHeight 2)) (Z.quot lineHeight 2))
      texStep in
  r ← for_range drawStart drawEnd
        (λ y '(texPos, pixels),
           let texY := Z.land (Z.shiftr texPos 16) (TEX_HEIGHT - 1) in
           color ← texel cellType side texX texY;
           pixels' ← put_pixel pixels (Int.add (IntOps.mul y screenPitch) x) color;
           Ok (Int.add texPos texStep, pixels'))
        (texPos0, screenPixels);
  Ok r.2.
End Render.

(** ** The renderer: one pass of the raycasting loop

    The body of [for (int x = 0; x < screenWidth; x++)]: the march of the
    column's ray, then [lineHeight] and [texX] from the hit, then the wall
    slice. *)

(** [int lineHeight = static_cast<int>(screenHeight / perpWallDist);] *)
Definition line_height (screenHeight : Z) (perpWallDist : float) : Z :=
  static_cast_int (double_of_int screenHeight / perpWallDist)%float.

(** [texX]: the lines from [double wallX] to the mirroring of the column. *)
Definition tex_x (posX posY rayDirX rayDirY : float) (side : Z) (perpWallDist : float)
  : Z :=
  let wallX :=
    if side =? 0 then (posY + perpWallDist * rayDirY)%float
    else (posX + perpWallDist * rayDirX)%float in
  let wallX := (wallX - floor_double wallX)%float in
  let texX := static_cast_int (wallX * double_of_int TEX_WIDTH)%float in
  if (side =? 0) && PrimFloat.ltb 0 rayDirX || (side =? 1) && PrimFloat.ltb rayDirY 0
  then IntOps.sub (IntOps.sub TEX_WIDTH texX) 1
  else texX.

Section Column.
Variables (MAP_WIDTH MAP_HEIGHT : Z).
Variables (screenWidth screenHeight screenPitch : Z).
Variable wallTexArr : list (list Z).
Variables (white black : Z).

Definition render_column (fuel : nat) (g : list (list Z))
    (posX posY dirX dirY planeX planeY : float) (x : Z) (screenPixels : list Z)
  : result (list Z) :=
  let cameraX := (2 * double_of_int x / double_of_int screenWidth - 1)%float in
  let rayDirX := (dirX + planeX * cameraX)%float in
  let rayDirY := (dirY + planeY * cameraX)%float in
  h ← march_ray MAP_WIDTH MAP_HEIGHT fuel g posX posY rayDirX rayDirY;
  let lineHeight := line_height screenHeight (hit_perpWallDist h) in
  let texX := tex_x posX posY rayDirX rayDirY (hit_side h) (hit_perpWallDist h) in
  let cellType := getCell MAP_WIDTH MAP_HEIGHT g (hit_mapX h) (hit_mapY h) in
  draw_column screenHeight screenPitch wallTexArr white black
    x lineHeight texX cellType (hit_side h) screenPixels.
End Column.

(** ** The level logic of a frame

    What [main] does in a frame after the keys have given the step
    [(dx, dy)]: move the player, then test the two conditions that end a
    level.  The state is the globals and the locals of [main] the block reads
    or writes; the message boxes shown are the output. *)

Definition explorationThreshold : Z := 300.

Record game : Type := {
  gameMap : list (list Z);
  tracking : tracker;
  posX_player : float;
  posY_player : float;
  dirX : float;
  dirY : float;
  planeX : float;
  planeY : float;
}.

Inductive message : Type :=
  | ExploredEnough   (* "You explored long enough, new level!" *)
  | FoundFinish.     (* "You found the finish!" *)

Section Level.
Variables (MAP_WIDTH MAP_HEIGHT : Z).
Variable fullscreen : bool.

(** The statements after either message box: a new maze, the player and the
    camera back at the start, the tracker reset. *)
Definition new_level (generate : list (list Z) → result (list (list Z))) (s : game)
  : result game :=
  g ← generate (gameMap s);
  t ← initVisited MAP_WIDTH MAP_HEIGHT (tracking s);
  Ok {| gameMap := g; tracking := t;
        posX_player := 1.5; posY_player := 1.5;
        dirX := 1; dirY := 0;
        planeX := 0; planeY := if fullscreen then 1 else plane_windowed |}.

(** [threshold_on] and [finish_on] say which of the two blocks the
    preprocessor keeps; [generate1] and [generate2] are [generateMaze] with
    the draws of the call in the first and in the second block. *)
Definition level_logic (threshold_on finish_on : bool)
    (generate1 generate2 : list (list Z) → result (list (list Z)))
    (dx dy hitbox : float) (s : game) : result (game * list message) :=
  '(x, y) ← updatePlayerPosition MAP_WIDTH MAP_HEIGHT (gameMap s)
              (posX_player s) (posY_player s) dx dy hitbox;
  let s1 := {| gameMap := gameMap s; tracking := tracking s;
               posX_player := x; posY_player := y;
               dirX := dirX s; dirY := dirY s;
               planeX := planeX s; planeY := planeY s |} in
  '(s2, out) ←
    (if threshold_on then
       t ← updateVisited MAP_WIDTH MAP_HEIGHT x y (tracking s1);
       let s1' := {| gameMap := gameMap s1; tracking := t;
                     posX_player := x; posY_player := y;
                     dirX := dirX s1; dirY := dirY s1;
                     planeX := planeX s1; planeY := planeY s1 |} in
       if distinctVisited t >=? explorationThreshold then
         s' ← new_level generate1 s1'; Ok (s', [ExploredEnough])
       else Ok (s1', [])
     else Ok (s1, []));
  if finish_on
     && checkWin MAP_WIDTH MAP_HEIGHT (gameMap s2) (posX_player s2) (posY_player s2)
  then s' ← new_level generate2 s2; Ok (s', out ++ [FoundFinish])
  else Ok (s2, out).

(** [raycast_maze.cpp]: the threshold block is under [#ifdef USE_THRESHOLD],
    the finish block under the condition of [placeRandomFinish]. *)
Definition frame_logic (cfg : config) (fuel : nat) (gen1 genF1 gen2 genF2 : nat → Z)
  : float → float → float → game → result (game * list message) :=
  level_logic (USE_THRESHOLD cfg) (finish_enabled cfg)
    (generateMaze MAP_WIDTH MAP_HEIGHT cfg fuel gen1 genF1)
    (generateMaze MAP_WIDTH MAP_HEIGHT cfg fuel gen2 genF2).
End Level.

(** [raycast_maze-all-sdl2-only.cpp]: the threshold block is under
    [#if defined(USE_THRESHOLD) || !defined(USE_FINISH) || defined(USE_BOTH)],
    the finish block under no condition. *)
Module SDL2Only.
Definition frame_logic (MAP_WIDTH MAP_HEIGHT : Z) (fullscreen : bool)
    (cfg : config) (fuel : nat) (gen1 genF1 gen2 genF2 : nat → Z)
  : float → float → float → game → result (game * list message) :=
  level_logic MAP_WIDTH MAP_HEIGHT fullscreen
    (USE_THRESHOLD cfg || negb (USE_FINISH cfg) || USE_BOTH cfg) true
    (generateMaze MAP_WIDTH MAP_HEIGHT cfg fuel gen1 genF1)
    (generateMaze MAP_WIDTH MAP_HEIGHT cfg fuel gen2 genF2).
End SDL2Only.

(** ** The program's constants and initial state *)

Definition MAP_WIDTH : Z := 250.
Definition MAP_HEIGHT : Z := 250.

(** Static storage is zero-initialised: [gameMap] and [visitedCells] before
    the first call of [generateMaze] and [initVisited]. *)
Definition gameMap0 : list (list Z) :=
  replicate (Z.to_nat MAP_HEIGHT) (replicate (Z.to_nat MAP_WIDTH) 0).

Definition tracker0 : tracker :=
  {| visitedCells := replicate (Z.to_nat MAP_HEIGHT) (replicate (Z.to_nat MAP_WIDTH) false);
     distinctVisited := 0 |}.

(** [-DUSE_BOTH], the build the source's first line recommends. *)
Definition cfg_both : config :=
  {| USE_THRESHOLD := false; USE_FINISH := false; USE_BOTH := true |}.

(** Sample generators: the maze generator that always draws the first
    neighbour, and finish generators whose two draws give the bottom border
    with offset 248, and the top border with offset 1. *)
Definition gen_first : nat → Z := λ _, 0.

Definition genF_bottom_last : nat → Z :=
  λ k, match k with O => 1 | S _ => 247 end.

Definition genF_top_first : nat → Z := λ _, 0.

(** The maze generator that draws the second neighbour where there are two
    or more: from the start it carves to the right along row 1. *)
Definition gen_second : nat → Z := λ _, 1.

(** [-DUSE_THRESHOLD] alone: the build that places no finish. *)
Definition cfg_threshold : config :=
  {| USE_THRESHOLD := true; USE_FINISH := false; USE_BOTH := false |}.

(** [const double hitbox = 0.2], the nearest binary64 value. *)
Definition hitbox_radius : float := 0x1.999999999999ap-3%float.

(** A 3 by 3 map: eight wall cells around one empty cell; the same with a
    finish cell in the middle of the right side. *)
Definition room3 : list (list Z) := [[1; 1; 1]; [1; 0; 1]; [1; 1; 1]].
Definition room3_finish : list (list Z) := [[1; 1; 1]; [1; 0; 2]; [1; 1; 1]].

(** ** Vocabulary of the properties *)

(** The number of elements of an array that satisfy [P]. *)
Fixpoint count_row {A : Type} (P : A → bool) (row : list A) : nat :=
  match row with
  | [] => 0
  | v :: row' => (if P v then 1 else 0) + count_row P row'
  end.

Fixpoint count_cells {A : Type} (P : A → bool) (a : list (list A)) : nat :=
  match a with
  | [] => 0
  | row :: a' => count_row P row + count_cells P a'
  end.

(** A cell kind the player can stand on: empty or finish. *)
Definition passable (c : Z) : bool := negb (c =? 1).

(** Cells that share an edge. *)
Definition adjacent (c d : Z * Z) : Prop :=
  (d.1 = c.1 ∧ (d.2 = c.2 + 1 ∨ d.2 = c.2 - 1))
  ∨ (d.2 = c.2 ∧ (d.1 = c.1 + 1 ∨ d.1 = c.1 - 1)).

(** The cells a flood fill over empty cells reaches from the start cell (1, 1). *)
Inductive flood (W H : Z) (g : list (list Z)) : Z * Z → Prop :=
  | flood_start : getCell W H g 1 1 = 0 → flood W H g (1, 1)
  | flood_step c d :
      flood W H g c → adjacent c d → getCell W H g d.1 d.2 = 0 → flood W H g d.

Definition on_border (W H x y : Z) : bool :=
  (x =? 0) || (x =? W - 1) || (y =? 0) || (y =? H - 1).

(** The cell next to a border cell on the inner side (corners apart). *)
Definition inside_of (W H x y : Z) : Z * Z :=
  if y =? 0 then (x, 1)
  else if y =? H - 1 then (x, H - 2)
  else if x =? 0 then (1, y)
  else (W - 2, y).

(** The greatest coordinate of a lattice cell: the greatest odd number below
    [n - 1]. *)
Definition lattice_bound (n : Z) : Z := if Z.even n then n - 3 else n - 2.

(** The invariant of the backtracking loop: the cells on the stack are carved
    lattice cells; every empty cell lies inside the lattice's bounding box and
    is reached by the flood fill; a carved lattice cell that has left the
    stack has no wall among its lattice neighbours. *)
Record carve_inv (W H : Z) (g : list (list Z)) (stack : list (Z * Z)) : Prop := {
  inv_wf : wf W H g;
  inv_start : cell W H g 1 1 = 0;
  inv_binary : ∀ x y, 0 ≤ x < W → 0 ≤ y < H → cell W H g x y = 0 ∨ cell W H g x y = 1;
  inv_stack : ∀ x y, (x, y) ∈ stack →
    Z.odd x = true ∧ Z.odd y = true ∧ 0 < x < W - 1 ∧ 0 < y < H - 1
    ∧ cell W H g x y = 0;
  inv_empty : ∀ x y, 0 ≤ x < W → 0 ≤ y < H → cell W H g x y = 0 →
    1 ≤ x ≤ lattice_bound W ∧ 1 ≤ y ≤ lattice_bound H ∧ flood W H g (x, y);
  inv_closed : ∀ x y, Z.odd x = true → Z.odd y = true → 0 ≤ x < W → 0 ≤ y < H →
    cell W H g x y = 0 → (x, y) ∉ stack → neighbors W H g x y = [];
}.

(** The quantity every iteration of the backtracking loop decreases: twice the
    number of walls plus the height of the stack. *)
Definition carve_measure (g : list (list Z)) (stack : list (Z * Z)) : nat :=
  (2 * count_cells (λ c : Z, (c =? 1)%Z) g + length stack)%nat.

(** The tracker's invariant: the bitmap has the map's dimensions and the count
    is the number of its [true] entries. *)
Definition tracker_ok (W H : Z) (t : tracker) : Prop :=
  wf W H (visitedCells t)
  ∧ distinctVisited t = Z.of_nat (count_cells (λ b : bool, b) (visitedCells t)).

(** The coordinates of all cells of a [W] by [H] map, row by row. *)
Definition all_cells (W H : Z) : list (Z * Z) :=
  y ← seqZ 0 H; (λ x, (x, y)) <$> seqZ 0 W.

(** The number of steps after which a march inside the map has left it for
    certain: the distance to the map's edge along each step direction. *)
Definition march_room (W H stepX stepY : Z) (m : march) : Z :=
  (if stepX =? 1 then W - mapX m else mapX m + 1)
  + (if stepY =? 1 then H - mapY m else mapY m + 1).

(** Channel [k] of a [Uint32] colour: 0 is [b], 1 is [g], 2 is [r], 3 is [a]. *)
Definition channel (k : Z) (color : Z) : Z := Z.land (Z.shiftr color (8 * k)) 255.

(** The state [main] starts from: the zero-initialised globals, the player
    and the camera as the locals are initialised (full-screen mode). *)
Definition game0 : game :=
  {| gameMap := gameMap0; tracking := tracker0;
     posX_player := 1.5; posY_player := 1.5;
     dirX := 1; dirY := 0; planeX := 0; planeY := 1 |}.

(** The rooms of the maze: the lattice cells, with two odd coordinates
    strictly inside the border. *)
Definition rooms (W H : Z) : list (Z * Z) :=
  y ← filter (λ y, Z.odd y = true) (seqZ 0 (H - 1));
  (λ x, (x, y)) <$> filter (λ x, Z.odd x = true) (seqZ 0 (W - 1)).

(** A finish generator whose two draws give the bottom border with offset 1. *)
Definition genF_bottom_first : nat → Z :=
  λ k, match k with O => 1 | S _ => 0 end.

(** The two loops of [resolveCircleCollision] cut at the iteration of the
    cell [(cx, cy)]: [scan_row] is the inner loop over a part of a row,
    [scan_before] the iterations that come before the cell's, [scan_after]
    those that follow it. *)
Definition scan_row (W H : Z) (obstacle : Z → bool) (g : list (list Z)) (hitbox : float)
    (lo hi cy : Z) (pos : float * float) : result (float * float) :=
  for_range lo hi (λ cx pos, resolve_cell W H obstacle g hitbox cx cy pos) pos.

Definition scan_before (W H : Z) (obstacle : Z → bool) (g : list (list Z)) (hitbox : float)
    (startX endX startY cx cy : Z) (pos : float * float) : result (float * float) :=
  pos' ← for_range startY cy
            (λ y pos, scan_row W H obstacle g hitbox startX (endX + 1) y pos) pos;
  scan_row W H obstacle g hitbox startX cx cy pos'.

Definition scan_after (W H : Z) (obstacle : Z → bool) (g : list (list Z)) (hitbox : float)
    (startX endX endY cx cy : Z) (pos : float * float) : result (float * float) :=
  pos' ← scan_row W H obstacle g hitbox (cx + 1) (endX + 1) cy pos;
  for_range (cy + 1) (endY + 1)
    (λ y pos, scan_row W H obstacle g hitbox startX (endX + 1) y pos) pos'.

(** * Properties *)

(** ** The error monad, [int] and loops *)

Lemma bind_Ok {A B} (f : A → result B) (r : result A) (b : B) :
  r ≫= f = Ok b ↔ ∃ a, r = Ok a ∧ f a = Ok b.
Proof.
  destruct r as [a|e]; simpl; split.
  - intros Hf. exists a. done.
  - intros (a' & [= <-] & Hf). done.
  - intros [=].
  - intros (a' & [=] & _).
Qed.


Lemma pair_eq_inv {A B : Type} (a a' : A) (b b' : B) :
  (a, b) = (a', b') → a = a' ∧ b = b'.
Proof. by intros [= -> ->]. Qed.

Module IntFacts.
Import Int.

Lemma wrap_id z : representable z → wrap z = z.
Proof.
  unfold representable, INT_MIN, INT_MAX, wrap. intros Hz.
  rewrite Z.mod_small; lia.
Qed.

Lemma wrap_representable z : representable (wrap z).
Proof.
  unfold representable, INT_MIN, INT_MAX, wrap.
  pose proof (Z.mod_pos_bound (z + 2 ^ 31) (2 ^ 32) ltac:(lia)). lia.
Qed.
End IntFacts.

(** Loop-invariant rule: an invariant established at [lo] and carried by every
    iteration holds at the exit, and the loop raises no error. *)
Lemma for_loop_inv {St : Type} (I : Z → St → Prop) (body : Z → St → result St) n :
  ∀ i s,
    I i s →
    (∀ j t, i ≤ j < i + Z.of_nat n → I j t → ∃ t', body j t = Ok t' ∧ I (j + 1) t') →
    ∃ s', for_loop n i body s = Ok s' ∧ I (i + Z.of_nat n) s'.
Proof.
  induction n as [|n IH]; intros i s Hi Hbody; simpl.
  - exists s. split; [done|]. by replace (i + Z.of_nat 0) with i by lia.
  - destruct (Hbody i s) as (t & Ht & HIt); [lia | done |].
    rewrite Ht. simpl.
    destruct (IH (i + 1) t HIt) as (s' & Hs' & HI').
    { intros j u Hj Hu. apply Hbody; [lia | done]. }
    exists s'. split; [done|].
    by replace (i + Z.of_nat (S n)) with (i + 1 + Z.of_nat n) by lia.
Qed.

Lemma for_range_inv {St : Type} (I : Z → St → Prop) (body : Z → St → result St) lo hi s :
  lo ≤ hi →
  I lo s →
  (∀ j t, lo ≤ j < hi → I j t → ∃ t', body j t = Ok t' ∧ I (j + 1) t') →
  ∃ s', for_range lo hi body s = Ok s' ∧ I hi s'.
Proof.
  intros Hle Hlo Hbody. unfold for_range.
  destruct (for_loop_inv I body (Z.to_nat (hi - lo)) lo s Hlo) as (s' & Hs' & HI').
  { intros j t Hj. apply Hbody. lia. }
  exists s'. split; [done|].
  assert (lo + Z.of_nat (Z.to_nat (hi - lo)) = hi) as Heq by lia.
  by rewrite Heq in HI'.
Qed.

Lemma uniform_int_range lo hi r : lo ≤ hi → lo ≤ uniform_int lo hi r ≤ hi.
Proof.
  intros Hle. unfold uniform_int.
  pose proof (Z.mod_pos_bound r (hi - lo + 1) ltac:(lia)). lia.
Qed.

Lemma uniform_int_onto lo hi v : lo ≤ v ≤ hi → uniform_int lo hi (v - lo) = v.
Proof. intros Hv. unfold uniform_int. rewrite Z.mod_small; lia. Qed.


(** ** Two-dimensional arrays *)

Section Array2DFacts.
Context {A : Type}.
Variables (W H : Z).

Local Abbreviation inR := (in_range W H).
Local Abbreviation wfA := (wf (A:=A) W H).
Local Abbreviation rdA := (rd (A:=A) W H).
Local Abbreviation wrA := (wr (A:=A) W H).

Lemma in_range_spec x y : inR x y = true ↔ 0 ≤ x < W ∧ 0 ≤ y < H.
Proof. unfold in_range. rewrite !andb_true_iff. lia. Qed.

Lemma in_range_false x y : inR x y = false ↔ ¬ (0 ≤ x < W ∧ 0 ≤ y < H).
Proof. rewrite <- in_range_spec. destruct (in_range W H x y); split; congruence. Qed.

Lemma wr_Ok a x y v : inR x y = true → ∃ a', wrA a x y v = Ok a'.
Proof. intros Hr. unfold wr. rewrite Hr. eauto. Qed.

Lemma wr_in_range a x y v a' : wrA a x y v = Ok a' → inR x y = true.
Proof. unfold wr. destruct (inR x y); [done | intros [=]]. Qed.

Lemma wr_wf a x y v a' : wfA a → wrA a x y v = Ok a' → wfA a'.
Proof.
  intros [Hl Hrows] Hw. pose proof (wr_in_range _ _ _ _ _ Hw) as Hr.
  unfold wr in Hw. rewrite Hr in Hw. injection Hw as <-. split.
  - by rewrite length_alter.
  - apply Forall_alter; [done|]. intros row _ Hrow. by rewrite length_insert.
Qed.

Lemma rd_is_Some a x y : wfA a → inR x y = true → is_Some (rdA a x y).
Proof.
  intros [Hl Hrows] Hr. unfold rd. rewrite Hr.
  apply in_range_spec in Hr.
  destruct (lookup_lt_is_Some_2 a (Z.to_nat y)) as [row Hrow]; [lia|].
  rewrite Hrow. simpl. apply lookup_lt_is_Some_2.
  rewrite Forall_lookup in Hrows. rewrite (Hrows _ _ Hrow). lia.
Qed.

Lemma rd_wr_same a x y v a' : wfA a → wrA a x y v = Ok a' → rdA a' x y = Some v.
Proof.
  intros [Hl Hrows] Hw. pose proof (wr_in_range _ _ _ _ _ Hw) as Hr.
  unfold wr in Hw. rewrite Hr in Hw. injection Hw as <-.
  unfold rd. rewrite Hr. apply in_range_spec in Hr.
  destruct (lookup_lt_is_Some_2 a (Z.to_nat y)) as [row Hrow]; [lia|].
  rewrite list_lookup_alter_eq, Hrow. simpl.
  apply list_lookup_insert_eq.
  rewrite Forall_lookup in Hrows. rewrite (Hrows _ _ Hrow). lia.
Qed.

Lemma rd_wr_other a x y v a' x' y' :
  wrA a x y v = Ok a' → (x', y') ≠ (x, y) → rdA a' x' y' = rdA a x' y'.
Proof.
  intros Hw Hne. pose proof (wr_in_range _ _ _ _ _ Hw) as Hr.
  unfold wr in Hw. rewrite Hr in Hw. injection Hw as <-.
  unfold rd. destruct (inR x' y') eqn:Hr'; [|done].
  apply in_range_spec in Hr, Hr'.
  destruct (decide (y' = y)) as [->|Hy].
  - rewrite list_lookup_alter_eq.
    destruct (a !! Z.to_nat y) as [row|]; simpl; [|done].
    apply list_lookup_insert_ne. intros Heq.
    apply Hne. f_equal. lia.
  - rewrite list_lookup_alter_ne; [done|]. lia.
Qed.

Lemma rd_in_range a x y v : rdA a x y = Some v → inR x y = true.
Proof. unfold rd. destruct (inR x y); [done | intros [=]]. Qed.

(** Writing the value a cell already holds leaves the array as it is. *)
Lemma wr_same_value a x y v : rdA a x y = Some v → wrA a x y v = Ok a.
Proof.
  intros Hrd. pose proof (rd_in_range _ _ _ _ Hrd) as Hr.
  unfold wr, rd in *. rewrite Hr in *. f_equal.
  destruct (a !! Z.to_nat y) as [row|] eqn:Hrow; simpl in Hrd; [|done].
  apply list_eq. intros j. destruct (decide (j = Z.to_nat y)) as [->|Hj].
  - rewrite list_lookup_alter_eq, Hrow. simpl. by rewrite list_insert_id.
  - by rewrite list_lookup_alter_ne.
Qed.
(** Two nested loops that store [v] in every element. *)
Lemma fill_spec (v : A) (a : list (list A)) :
  0 ≤ W → 0 ≤ H → wfA a →
  ∃ a', for_range 0 H (λ y a, for_range 0 W (λ x a, wrA a x y v) a) a = Ok a'
        ∧ wfA a' ∧ ∀ x y, 0 ≤ x < W → 0 ≤ y < H → rdA a' x y = Some v.
Proof.
  intros HW HH Hwf.
  destruct (for_range_inv
    (λ y a, wfA a ∧ ∀ x y', 0 ≤ x < W → 0 ≤ y' < y → rdA a x y' = Some v)
    (λ y a, for_range 0 W (λ x a, wrA a x y v) a) 0 H a) as (a1 & Ha1 & Hwf1 & Hall);
    [done | split; [done | lia] | | by eauto].
  intros y t Hy [Hwft Hrows].
  destruct (for_range_inv
    (λ x a, wfA a ∧ (∀ x' y', 0 ≤ x' < W → 0 ≤ y' < y → rdA a x' y' = Some v)
            ∧ ∀ x', 0 ≤ x' < x → rdA a x' y = Some v)
    (λ x a, wrA a x y v) 0 W t) as (t' & Ht' & Hwf' & Hrows' & Hrow);
    [done | split; [done|]; split; [done | intros; lia] | |].
  - intros x u Hx (Hwfu & Hr1 & Hr2).
    destruct (wr_Ok u x y v) as [u' Hu']; [apply in_range_spec; lia|].
    exists u'. split; [done|]. split; [by eapply wr_wf|]. split.
    + intros x' y' Hx' Hy'. rewrite (rd_wr_other u x y v u') by (done || intros [=]; lia).
      by apply Hr1.
    + intros x' Hx'. destruct (decide (x' = x)) as [->|Hne].
      * by eapply rd_wr_same.
      * rewrite (rd_wr_other u x y v u') by (done || intros [=]; lia).
        apply Hr2. lia.
  - exists t'. split; [done|]. split; [done|].
    intros x y' Hx Hy'. destruct (decide (y' = y)) as [->|Hne].
    + by apply Hrow.
    + apply Hrows'; lia.
Qed.

(** An element of a well-formed array, by row and column. *)
Lemma rd_lookup (a : list (list A)) (i j : nat) row u :
  wfA a → a !! i = Some row → row !! j = Some u →
  rdA a (Z.of_nat j) (Z.of_nat i) = Some u.
Proof.
  intros [Hl Hrows] Hrow Hu. unfold rd.
  pose proof (lookup_lt_Some _ _ _ Hrow). pose proof (lookup_lt_Some _ _ _ Hu).
  rewrite Forall_lookup in Hrows. rewrite (Hrows _ _ Hrow) in *.
  destruct (in_range W H (Z.of_nat j) (Z.of_nat i)) eqn:Hr.
  - rewrite !Nat2Z.id, Hrow. simpl. done.
  - apply in_range_false in Hr. lia.
Qed.
End Array2DFacts.

(** ** The grid *)

Section GridFacts.
Variables (W H : Z).

Local Abbreviation grid := (list (list Z)).
Local Abbreviation wfG := (wf (A:=Z) W H).
Local Abbreviation cellG := (cell W H).
Local Abbreviation getG := (getCell W H).
Local Abbreviation wrG := (wr (A:=Z) W H).

Lemma cell_rd (g : grid) x y :
  wfG g → 0 ≤ x < W → 0 ≤ y < H → rd W H g x y = Some (cellG g x y).
Proof.
  intros Hwf Hx Hy. unfold cell.
  destruct (rd_is_Some W H g x y Hwf) as [v ->]; [|done].
  apply in_range_spec. lia.
Qed.

Lemma cell_wr_same (g g' : grid) x y v : wfG g → wrG g x y v = Ok g' → cellG g' x y = v.
Proof. intros Hwf Hw. unfold cell. by rewrite (rd_wr_same W H g x y v g'). Qed.

Lemma cell_wr_other (g g' : grid) x y v x' y' :
  wrG g x y v = Ok g' → (x', y') ≠ (x, y) → cellG g' x' y' = cellG g x' y'.
Proof. intros Hw Hne. unfold cell. by rewrite (rd_wr_other W H g x y v g'). Qed.

Lemma getCell_in (g : grid) x y : 0 ≤ x < W → 0 ≤ y < H → getG g x y = cellG g x y.
Proof.
  intros Hx Hy. unfold getCell.
  destruct (x <? 0) eqn:E1; [lia|]. destruct (x >=? W) eqn:E2; [lia|].
  destruct (y <? 0) eqn:E3; [lia|]. destruct (y >=? H) eqn:E4; [lia|]. done.
Qed.

Lemma getCell_out (g : grid) x y : ¬ (0 ≤ x < W ∧ 0 ≤ y < H) → getG g x y = 1.
Proof.
  intros Hout. unfold getCell.
  destruct (x <? 0) eqn:E1; [done|]. destruct (x >=? W) eqn:E2; [done|].
  destruct (y <? 0) eqn:E3; [done|]. destruct (y >=? H) eqn:E4; [done|]. lia.
Qed.

Lemma getCell_not_wall (g : grid) x y : getG g x y ≠ 1 → 0 ≤ x < W ∧ 0 ≤ y < H.
Proof.
  intros Hne. destruct (decide (0 ≤ x < W ∧ 0 ≤ y < H)) as [|Hout]; [done|].
  by rewrite getCell_out in Hne.
Qed.

Lemma getCell_wr_same (g g' : grid) x y v :
  wfG g → wrG g x y v = Ok g' → getG g' x y = v.
Proof.
  intros Hwf Hw. pose proof (wr_in_range _ _ _ _ _ _ _ Hw) as Hr.
  apply in_range_spec in Hr. rewrite getCell_in by lia. by eapply cell_wr_same.
Qed.

Lemma getCell_wr_other (g g' : grid) x y v x' y' :
  wrG g x y v = Ok g' → (x', y') ≠ (x, y) → getG g' x' y' = getG g x' y'.
Proof.
  intros Hw Hne. destruct (decide (0 ≤ x' < W ∧ 0 ≤ y' < H)) as [[Hx Hy]|Hout].
  - rewrite !getCell_in by lia. by eapply cell_wr_other.
  - by rewrite !getCell_out.
Qed.

(** After the two filling loops every cell is a wall. *)
Lemma fill_walls_spec (g0 : grid) :
  0 ≤ W → 0 ≤ H → wfG g0 →
  ∃ g1, fill_walls W H g0 = Ok g1 ∧ wfG g1
        ∧ ∀ x y, 0 ≤ x < W → 0 ≤ y < H → cellG g1 x y = 1.
Proof.
  intros HW HH Hwf.
  destruct (fill_spec W H 1 g0 HW HH Hwf) as (g1 & Hg1 & Hwf1 & Hall).
  exists g1. split; [done|]. split; [done|].
  intros x y Hx Hy. unfold cell. by rewrite Hall.
Qed.
End GridFacts.

(** ** Counting cells *)

Section CountFacts.
Context {A : Type}.
Variables (W H : Z).
Variable P : A → bool.

Local Open Scope nat_scope.

Lemma count_row_le (row : list A) : count_row P row ≤ length row.
Proof. induction row as [|v row IH]; simpl; [lia|]. destruct (P v); lia. Qed.

Lemma count_row_insert (row : list A) i v u :
  row !! i = Some u →
  count_row P (<[i:=v]> row) + (if P u then 1 else 0)
  = count_row P row + (if P v then 1 else 0).
Proof.
  revert i. induction row as [|w row IH]; intros i Hi; [done|].
  destruct i as [|i]; simpl in *.
  - injection Hi as ->. destruct (P u), (P v); lia.
  - specialize (IH i Hi). destruct (P w); lia.
Qed.

Lemma count_cells_alter (a : list (list A)) i f row :
  a !! i = Some row →
  count_cells P (alter f i a) + count_row P row
  = count_cells P a + count_row P (f row).
Proof.
  revert i. induction a as [|r a IH]; intros i Hi; [done|].
  destruct i as [|i]; simpl in Hi.
  - injection Hi as ->. change (alter f 0 (row :: a)) with (f row :: a). simpl. lia.
  - specialize (IH i Hi).
    change (alter f (S i) (r :: a)) with (r :: alter f i a). simpl. lia.
Qed.

Lemma count_cells_wr (a a' : list (list A)) x y v u :
  wr W H a x y v = Ok a' → rd W H a x y = Some u →
  count_cells P a' + (if P u then 1 else 0)
  = count_cells P a + (if P v then 1 else 0).
Proof.
  intros Hw Hrd. pose proof (wr_in_range _ _ _ _ _ _ _ Hw) as Hr.
  unfold wr, rd in *. rewrite Hr in *. injection Hw as <-.
  destruct (a !! Z.to_nat y) as [row|] eqn:Hrow; simpl in Hrd; [|done].
  pose proof (count_cells_alter a (Z.to_nat y) (λ row, <[Z.to_nat x:=v]> row) row Hrow).
  pose proof (count_row_insert row (Z.to_nat x) v u Hrd). lia.
Qed.

Lemma count_cells_le (a : list (list A)) :
  Forall (λ row, length row = Z.to_nat W) a →
  count_cells P a ≤ length a * Z.to_nat W.
Proof.
  induction 1 as [|row a Hrow _ IH]; simpl; [lia|].
  pose proof (count_row_le row). lia.
Qed.

Lemma count_cells_bound (a : list (list A)) :
  wf W H a → (0 ≤ W)%Z → (0 ≤ H)%Z → (Z.of_nat (count_cells P a) ≤ W * H)%Z.
Proof.
  intros [Hl Hrows] HW HH. pose proof (count_cells_le a Hrows) as Hle.
  rewrite Hl in Hle. nia.
Qed.
Lemma count_row_compl (row : list A) :
  count_row P row + count_row (λ u, negb (P u)) row = length row.
Proof. induction row as [|v row IH]; simpl; [done|]. destruct (P v); simpl; lia. Qed.

Lemma count_cells_compl (a : list (list A)) :
  Forall (λ row, length row = Z.to_nat W) a →
  count_cells P a + count_cells (λ u, negb (P u)) a = length a * Z.to_nat W.
Proof.
  induction 1 as [|row a Hrow _ IH]; simpl; [done|].
  pose proof (count_row_compl row). lia.
Qed.

Lemma count_row_pos (row : list A) j u :
  row !! j = Some u → P u = true → 1 ≤ count_row P row.
Proof.
  revert j. induction row as [|v row IH]; intros j Hj Hu; [done|].
  destruct j as [|j]; simpl in *.
  - injection Hj as ->. rewrite Hu. lia.
  - specialize (IH j Hj Hu). lia.
Qed.

Lemma count_cells_pos (a : list (list A)) i row j u :
  a !! i = Some row → row !! j = Some u → P u = true → 1 ≤ count_cells P a.
Proof.
  revert i. induction a as [|r a IH]; intros i Hi Hj Hu; [done|].
  destruct i as [|i]; simpl in *.
  - injection Hi as ->. pose proof (count_row_pos row j u Hj Hu). lia.
  - specialize (IH i Hi Hj Hu). lia.
Qed.

Lemma count_row_zero (row : list A) :
  (∀ j u, row !! j = Some u → P u = false) → count_row P row = 0.
Proof.
  induction row as [|v row IH]; intros Hall; [done|]. simpl.
  rewrite (Hall 0 v eq_refl). rewrite IH; [done|].
  intros j u Hj. by apply (Hall (S j)).
Qed.

Lemma count_cells_zero (a : list (list A)) :
  (∀ i row j u, a !! i = Some row → row !! j = Some u → P u = false) →
  count_cells P a = 0.
Proof.
  induction a as [|r a IH]; intros Hall; [done|]. simpl.
  rewrite (count_row_zero r); [|intros j u; by apply (Hall 0 r)].
  rewrite IH; [done|]. intros i row j u Hi. by apply (Hall (S i)).
Qed.
End CountFacts.

(** ** The backtracking loop *)

Section MazeFacts.
Variables (W H : Z).
Hypothesis HW : 3 ≤ W.
Hypothesis HH : 3 ≤ H.

Local Abbreviation grid := (list (list Z)).
Local Abbreviation wfG := (wf (A:=Z) W H).
Local Abbreviation cellG := (cell W H).
Local Abbreviation getG := (getCell W H).
Local Abbreviation wrG := (wr (A:=Z) W H).
Local Abbreviation floodG := (flood W H).
Local Abbreviation nbrs := (neighbors W H).

Lemma odd_lattice_bound n x : Z.odd x = true → 0 < x < n - 1 → 1 ≤ x ≤ lattice_bound n.
Proof.
  intros Hodd Hx. unfold lattice_bound.
  destruct (Z.even n) eqn:Hev; [|lia].
  apply Z.even_spec in Hev as [k ->]. apply Z.odd_spec in Hodd as [j ->]. lia.
Qed.

Lemma lattice_bound_lt n : lattice_bound n < n - 1.
Proof. unfold lattice_bound. destruct (Z.even n); lia. Qed.

Lemma flood_mono (g g' : grid) c :
  (∀ x y, getG g x y = 0 → getG g' x y = 0) → floodG g c → floodG g' c.
Proof.
  intros Hmono. induction 1 as [Hs | c d _ IH Hadj Hd].
  - apply flood_start. by apply Hmono.
  - eapply flood_step; [exact IH | done | by apply Hmono].
Qed.

Lemma elem_of_neighbors (g : grid) cx cy nx ny :
  (nx, ny) ∈ nbrs g cx cy ↔
  (∃ d, d ∈ directions ∧ nx = cx + d.1 ∧ ny = cy + d.2)
  ∧ 0 < nx < W - 1 ∧ 0 < ny < H - 1 ∧ cellG g nx ny = 1.
Proof.
  unfold neighbors. rewrite list_elem_of_omap. unfold candidate. split.
  - intros (d & Hd & Hcand).
    destruct (_ && _) eqn:Hc in Hcand; [|done]. injection Hcand as <- <-.
    rewrite !andb_true_iff in Hc. destruct Hc as ((((H1 & H2) & H3) & H4) & H5).
    split; [by exists d|]. lia.
  - intros ((d & Hd & -> & ->) & Hx & Hy & Hc). exists d. split; [done|].
    destruct (_ && _) eqn:Hb; [done|].
    rewrite !andb_false_iff in Hb. lia.
Qed.

Lemma neighbors_nil (g : grid) cx cy :
  nbrs g cx cy = [] ↔
  ∀ d, d ∈ directions → 0 < cx + d.1 < W - 1 → 0 < cy + d.2 < H - 1 →
       cellG g (cx + d.1) (cy + d.2) ≠ 1.
Proof.
  split.
  - intros Hnil d Hd Hx Hy Hc.
    assert ((cx + d.1, cy + d.2) ∈ nbrs g cx cy) as Hin.
    { apply elem_of_neighbors. split; [by exists d | done]. }
    rewrite Hnil in Hin. by apply not_elem_of_nil in Hin.
  - intros Hall. destruct (nbrs g cx cy) as [|[nx ny] ns] eqn:Hns; [done|].
    assert ((nx, ny) ∈ nbrs g cx cy) as Hin by (rewrite Hns; left).
    apply elem_of_neighbors in Hin as ((d & Hd & -> & ->) & Hx & Hy & Hc).
    by destruct (Hall d Hd Hx Hy).
Qed.

Lemma neighbors_nil_mono (g g' : grid) cx cy :
  (∀ x y, 0 ≤ x < W → 0 ≤ y < H → cellG g' x y = 1 → cellG g x y = 1) →
  nbrs g cx cy = [] → nbrs g' cx cy = [].
Proof.
  rewrite !neighbors_nil. intros Hmono Hnil d Hd Hx Hy Hc.
  apply (Hnil d Hd Hx Hy). apply Hmono; [lia | lia | done].
Qed.

(** The index drawn for a non-empty neighbour list names one of its elements. *)
Lemma draw_in_range {B : Type} (ns : list B) r :
  ns ≠ [] →
  ∃ n, ns !! Z.to_nat (uniform_int 0 (Z.of_nat (length ns) - 1) r) = Some n.
Proof.
  intros Hne. apply lookup_lt_is_Some_2.
  assert (0 < length ns)%nat by (destruct ns; [done | simpl; lia]).
  pose proof (uniform_int_range 0 (Z.of_nat (length ns) - 1) r ltac:(lia)). lia.
Qed.

(** The wall between a lattice cell and its neighbour in direction [d]. *)
Lemma wall_between cx cy d :
  d ∈ directions →
  let nx := cx + d.1 in
  let ny := cy + d.2 in
  let wx := cx + Z.quot (nx - cx) 2 in
  let wy := cy + Z.quot (ny - cy) 2 in
  adjacent (cx, cy) (wx, wy) ∧ adjacent (wx, wy) (nx, ny)
  ∧ (wx = cx ∧ nx = cx ∨ wy = cy ∧ ny = cy)
  ∧ Z.min cx nx ≤ wx ≤ Z.max cx nx ∧ Z.min cy ny ≤ wy ≤ Z.max cy ny
  ∧ (wx, wy) ≠ (nx, ny)
  ∧ (Z.odd cx = true → Z.odd cy = true →
     Z.odd nx = true ∧ Z.odd ny = true ∧ (Z.odd wx = false ∨ Z.odd wy = false)).
Proof.
  unfold directions. rewrite !elem_of_cons, elem_of_nil.
  intros [->|[->|[->|[->|[]]]]]; simpl;
    rewrite ?Z.add_0_r;
    repeat match goal with
    | |- context [Z.quot (?a + ?b - ?a) 2] =>
        replace (a + b - a) with b by lia
    | |- context [Z.quot (?a - ?a) 2] => replace (a - a) with 0 by lia
    end;
    change (Z.quot 0 2) with 0; change (Z.quot 2 2) with 1;
    change (Z.quot (-2) 2) with (-1); rewrite ?Z.add_0_r;
    unfold adjacent; simpl;
    (repeat split; try lia; try (intros [=]; lia));
    rewrite ?Z.odd_add;
    repeat match goal with Hodd : Z.odd _ = true |- _ => rewrite Hodd; clear Hodd end;
    simpl; auto.
Qed.
(** Two successive carvings: what the grid holds afterwards. *)
Lemma carve_two (g g1 g2 : grid) wx wy nx ny :
  wfG g → wrG g wx wy 0 = Ok g1 → wrG g1 nx ny 0 = Ok g2 →
  wfG g2
  ∧ cellG g2 nx ny = 0 ∧ cellG g2 wx wy = 0
  ∧ ∀ x y, (x, y) ≠ (nx, ny) → (x, y) ≠ (wx, wy) → cellG g2 x y = cellG g x y.
Proof.
  intros Hwf Hg1 Hg2.
  assert (wfG g1) as Hwf1 by exact (wr_wf W H g wx wy 0 g1 Hwf Hg1).
  split; [exact (wr_wf W H g1 nx ny 0 g2 Hwf1 Hg2)|].
  split; [exact (cell_wr_same W H g1 g2 nx ny 0 Hwf1 Hg2)|]. split.
  - destruct (decide ((wx, wy) = (nx, ny))) as [[= -> ->]|Hne].
    + exact (cell_wr_same W H g1 g2 nx ny 0 Hwf1 Hg2).
    + rewrite (cell_wr_other W H g1 g2 nx ny 0) by done.
      exact (cell_wr_same W H g g1 wx wy 0 Hwf Hg1).
  - intros x y Hn Hw. rewrite (cell_wr_other W H g1 g2 nx ny 0) by done.
    by rewrite (cell_wr_other W H g g1 wx wy 0).
Qed.

(** A push: the drawn neighbour was a wall, it and the wall before it are
    carved, and the invariant is kept while the measure drops. *)
Lemma carve_step_push gen k (g : grid) cx cy rest :
  carve_inv W H g ((cx, cy) :: rest) → nbrs g cx cy ≠ [] →
  ∃ g' nx ny,
    carve_step W H gen k g ((cx, cy) :: rest)
    = Ok (S k, g', (nx, ny) :: (cx, cy) :: rest)
    ∧ carve_inv W H g' ((nx, ny) :: (cx, cy) :: rest)
    ∧ cellG g nx ny = 1 ∧ cellG g' nx ny = 0
    ∧ (carve_measure g' ((nx, ny) :: (cx, cy) :: rest)
       < carve_measure g ((cx, cy) :: rest))%nat.
Proof.
  intros [Hwf Hstart Hbin Hstack Hempty Hclosed] Hne.
  destruct (Hstack cx cy ltac:(left)) as (Hox & Hoy & Hcx & Hcy & Hc0).
  unfold carve_step.
  destruct (nbrs g cx cy) as [|p l] eqn:Hns; [done|]. cbv beta zeta iota.
  destruct (draw_in_range (p :: l) (gen k)) as [[nx ny] Hn]; [done|].
  rewrite Hn.
  assert ((nx, ny) ∈ nbrs g cx cy) as Hin.
  { rewrite Hns. by eapply list_elem_of_lookup_2. }
  apply elem_of_neighbors in Hin as ((d & Hd & Hnx & Hny) & Hnxr & Hnyr & Hn1).
  destruct (wall_between cx cy d Hd) as (Ha1 & Ha2 & Hline & Hwxr & Hwyr & Hwn & Hpar).
  rewrite <- Hnx, <- Hny in *.
  set (wx := cx + Z.quot (nx - cx) 2) in *.
  set (wy := cy + Z.quot (ny - cy) 2) in *.
  destruct (Hpar Hox Hoy) as (Honx & Hony & Hw_even).
  destruct (wr_Ok W H g wx wy 0) as [g1 Hg1]; [apply in_range_spec; lia|].
  destruct (wr_Ok W H g1 nx ny 0) as [g2 Hg2]; [apply in_range_spec; lia|].
  rewrite Hg1. simpl. rewrite Hg2. simpl.
  destruct (carve_two g g1 g2 wx wy nx ny Hwf Hg1 Hg2) as (Hwf2 & Hn0 & Hw0 & Hoth).
  assert (∀ x y, cellG g x y = 0 → cellG g2 x y = 0) as Hkeep.
  { intros x y Hxy. destruct (decide ((x, y) = (nx, ny))) as [[= -> ->]|Hne1]; [done|].
    destruct (decide ((x, y) = (wx, wy))) as [[= -> ->]|Hne2]; [done|].
    by rewrite Hoth. }
  assert (∀ x y, 0 ≤ x < W → 0 ≤ y < H → cellG g2 x y = 1 → cellG g x y = 1) as Hwalls.
  { intros x y Hx Hy Hxy.
    destruct (decide ((x, y) = (nx, ny))) as [[= -> ->]|Hne1]; [congruence|].
    destruct (decide ((x, y) = (wx, wy))) as [[= -> ->]|Hne2]; [congruence|].
    by rewrite <- Hoth. }
  assert (∀ x y, getG g x y = 0 → getG g2 x y = 0) as Hgkeep.
  { intros x y Hxy.
    destruct (getCell_not_wall W H g x y ltac:(lia)) as [Hx Hy].
    rewrite getCell_in in * by lia. by apply Hkeep. }
  assert (floodG g2 (cx, cy)) as Hfc.
  { apply (flood_mono g g2); [done|]. apply Hempty; [lia | lia | done]. }
  assert (floodG g2 (wx, wy)) as Hfw.
  { eapply flood_step; [exact Hfc | done |]. simpl. rewrite getCell_in by lia. done. }
  assert (floodG g2 (nx, ny)) as Hfn.
  { eapply flood_step; [exact Hfw | done |]. simpl. rewrite getCell_in by lia. done. }
  exists g2, nx, ny. split; [done|]. split; [|split; [done|split; [done|]]].
  - split.
    + done.
    + by apply Hkeep.
    + intros x y Hx Hy.
      destruct (decide ((x, y) = (nx, ny))) as [[= -> ->]|Hne1]; [by left|].
      destruct (decide ((x, y) = (wx, wy))) as [[= -> ->]|Hne2]; [by left|].
      rewrite Hoth by done. by apply Hbin.
    + intros x y [[= -> ->]|Hin]%elem_of_cons.
      * repeat split; (done || lia).
      * destruct (Hstack x y Hin) as (? & ? & ? & ? & ?).
        repeat split; try (done || lia). by apply Hkeep.
    + intros x y Hx Hy Hxy.
      destruct (decide ((x, y) = (nx, ny))) as [[= -> ->]|Hne1].
      { pose proof (odd_lattice_bound W nx Honx Hnxr).
        pose proof (odd_lattice_bound H ny Hony Hnyr). done. }
      destruct (decide ((x, y) = (wx, wy))) as [[= -> ->]|Hne2].
      { pose proof (odd_lattice_bound W nx Honx Hnxr).
        pose proof (odd_lattice_bound H ny Hony Hnyr).
        pose proof (odd_lattice_bound W cx Hox Hcx).
        pose proof (odd_lattice_bound H cy Hoy Hcy).
        repeat split; (done || lia). }
      rewrite Hoth in Hxy by done.
      destruct (Hempty x y Hx Hy Hxy) as (? & ? & Hf).
      repeat split; try (done || lia). by apply (flood_mono g g2).
    + intros x y Hodx Hody Hx Hy Hxy Hnin.
      apply not_elem_of_cons in Hnin as [Hne1 Hnin].
      assert ((x, y) ≠ (wx, wy)) as Hne2.
      { intros [= -> ->]. destruct Hw_even; congruence. }
      rewrite Hoth in Hxy by done.
      apply (neighbors_nil_mono g g2); [done|]. by apply Hclosed.
  - unfold carve_measure. simpl.
    assert ((nx, ny) ≠ (wx, wy)) as Hnw by (intros Heq; by apply Hwn).
    assert (wfG g1) as Hwf1 by exact (wr_wf W H g wx wy 0 g1 Hwf Hg1).
    pose proof (count_cells_wr W H (λ c : Z, c =? 1) g g1 wx wy 0 (cellG g wx wy) Hg1
                  (cell_rd W H g wx wy Hwf ltac:(lia) ltac:(lia))) as Hc1.
    pose proof (count_cells_wr W H (λ c : Z, c =? 1) g1 g2 nx ny 0 (cellG g1 nx ny) Hg2
                  (cell_rd W H g1 nx ny Hwf1 ltac:(lia) ltac:(lia)))
      as Hc2.
    rewrite (cell_wr_other W H g g1 wx wy 0) in Hc2 by done.
    rewrite Hn1 in Hc2. simpl in Hc1, Hc2.
    destruct (cellG g wx wy =? 1); lia.
Qed.

(** A pop keeps the invariant and shortens the stack. *)
Lemma carve_step_pop gen k (g : grid) cx cy rest :
  carve_inv W H g ((cx, cy) :: rest) → nbrs g cx cy = [] →
  carve_step W H gen k g ((cx, cy) :: rest) = Ok (k, g, rest)
  ∧ carve_inv W H g rest
  ∧ (carve_measure g rest < carve_measure g ((cx, cy) :: rest))%nat.
Proof.
  intros [Hwf Hstart Hbin Hstack Hempty Hclosed] Hnil.
  unfold carve_step. rewrite Hnil. split; [done|]. split.
  - split; try done.
    + intros x y Hin. apply Hstack. by right.
    + intros x y Hodx Hody Hx Hy Hxy Hnin.
      destruct (decide ((x, y) = (cx, cy))) as [[= -> ->]|Hne]; [done|].
      apply Hclosed; try done. by apply not_elem_of_cons.
  - unfold carve_measure. simpl. lia.
Qed.

Lemma carve_step_decreases gen k (g : grid) stack :
  carve_inv W H g stack → stack ≠ [] →
  ∃ k' g' stack',
    carve_step W H gen k g stack = Ok (k', g', stack')
    ∧ carve_inv W H g' stack'
    ∧ (carve_measure g' stack' < carve_measure g stack)%nat.
Proof.
  intros Hinv Hne. destruct stack as [|[cx cy] rest]; [done|].
  destruct (decide (nbrs g cx cy = [])) as [Hnil|Hns].
  - destruct (carve_step_pop gen k g cx cy rest Hinv Hnil) as (Hs & Hi & Hm).
    by exists k, g, rest.
  - destruct (carve_step_push gen k g cx cy rest Hinv Hns)
      as (g' & nx & ny & Hs & Hi & _ & _ & Hm).
    by exists (S k), g', ((nx, ny) :: (cx, cy) :: rest).
Qed.

(** The loop ends once its fuel covers the measure, with the invariant for the
    empty stack. *)
Lemma carve_loop_terminates gen fuel : ∀ k (g : grid) stack,
  carve_inv W H g stack → (carve_measure g stack ≤ fuel)%nat →
  ∃ g', carve_loop W H fuel gen k g stack = Ok g' ∧ carve_inv W H g' [].
Proof.
  induction fuel as [|fuel IH]; intros k g stack Hinv Hm.
  - destruct stack as [|c rest]; [by exists g|].
    unfold carve_measure in Hm. simpl in Hm. lia.
  - destruct stack as [|c rest]; [by exists g|].
    destruct (carve_step_decreases gen k g (c :: rest) Hinv ltac:(done))
      as (k' & g' & stack' & Hs & Hi & Hlt).
    cbn [carve_loop]. rewrite Hs. cbn [mbind result_bind]. apply IH; [done | lia].
Qed.
(** The carving part of [generateMaze] ends, whatever the draws, within
    [2 * W * H] iterations of its loop, and leaves the invariant. *)
Lemma carve_spec fuel gen (g0 : grid) :
  wfG g0 → (Z.to_nat (2 * W * H) ≤ fuel)%nat →
  ∃ g3, carve W H fuel gen g0 = Ok g3 ∧ carve_inv W H g3 [].
Proof.
  intros Hwf0 Hfuel. unfold carve.
  destruct (fill_walls_spec W H g0 ltac:(lia) ltac:(lia) Hwf0) as (g1 & -> & Hwf1 & Hall).
  cbn [mbind result_bind].
  destruct (wr_Ok W H g1 1 1 0) as [g2 Hg2]; [apply in_range_spec; lia|].
  rewrite Hg2. cbn [mbind result_bind].
  assert (wfG g2) as Hwf2 by exact (wr_wf W H g1 1 1 0 g2 Hwf1 Hg2).
  assert (cellG g2 1 1 = 0) as Hs by exact (cell_wr_same W H g1 g2 1 1 0 Hwf1 Hg2).
  assert (∀ x y, 0 ≤ x < W → 0 ≤ y < H → (x, y) ≠ (1, 1) → cellG g2 x y = 1) as Hrest.
  { intros x y Hx Hy Hne. rewrite (cell_wr_other W H g1 g2 1 1 0) by done. by apply Hall. }
  apply carve_loop_terminates.
  - split; try done.
    + intros x y Hx Hy. destruct (decide ((x, y) = (1, 1))) as [[= -> ->]|Hne];
        [by left | right; by apply Hrest].
    + intros x y [= -> ->]%list_elem_of_singleton. repeat split; (done || lia).
    + intros x y Hx Hy Hxy. destruct (decide ((x, y) = (1, 1))) as [[= -> ->]|Hne].
      * unfold lattice_bound. split; [destruct (Z.even W) eqn:Hev; [|lia]|].
        { apply Z.even_spec in Hev as [j ->]. lia. }
        split; [destruct (Z.even H) eqn:Hev; [|lia]|].
        { apply Z.even_spec in Hev as [j ->]. lia. }
        apply flood_start. rewrite getCell_in by lia. done.
      * rewrite Hrest in Hxy by done. done.
    + intros x y _ _ Hx Hy Hxy Hnin.
      destruct (decide ((x, y) = (1, 1))) as [Heq|Hne].
      * rewrite Heq in Hnin. destruct Hnin. left.
      * rewrite Hrest in Hxy by done. done.
  - unfold carve_measure. cbn [length].
    pose proof (count_cells_wr W H (λ c : Z, c =? 1) g1 g2 1 1 0 (cellG g1 1 1) Hg2
                  (cell_rd W H g1 1 1 Hwf1 ltac:(lia) ltac:(lia))) as Hc.
    rewrite Hall in Hc by lia. simpl in Hc.
    pose proof (count_cells_bound W H (λ c : Z, c =? 1) g1 Hwf1 ltac:(lia) ltac:(lia)).
    lia.
Qed.

Lemma odd_double_succ z : Z.odd (2 * z + 1) = true.
Proof. by rewrite Z.add_comm, Z.odd_add_mul_2. Qed.

(** When the loop has ended every lattice cell is carved. *)
Lemma carve_complete (g : grid) :
  carve_inv W H g [] →
  ∀ x y, Z.odd x = true → Z.odd y = true → 0 < x < W - 1 → 0 < y < H - 1 →
         cellG g x y = 0.
Proof.
  intros [Hwf Hstart Hbin _ _ Hclosed].
  assert (∀ x y x' y', Z.odd x = true → Z.odd y = true → 0 < x < W - 1 → 0 < y < H - 1 →
            cellG g x y = 0 → (x' - x, y' - y) ∈ directions →
            0 < x' < W - 1 → 0 < y' < H - 1 → cellG g x' y' = 0) as Hnext.
  { intros x y x' y' Hox Hoy Hx Hy Hxy Hd Hx' Hy'.
    pose proof (Hclosed x y Hox Hoy ltac:(lia) ltac:(lia) Hxy ltac:(apply not_elem_of_nil))
      as Hnil.
    rewrite neighbors_nil in Hnil. specialize (Hnil _ Hd). simpl in Hnil.
    replace (x + (x' - x)) with x' in Hnil by lia.
    replace (y + (y' - y)) with y' in Hnil by lia.
    specialize (Hnil Hx' Hy').
    destruct (Hbin x' y' ltac:(lia) ltac:(lia)); [done | congruence]. }
  assert (∀ j : nat, 0 < 2 * Z.of_nat j + 1 < H - 1 → cellG g 1 (2 * Z.of_nat j + 1) = 0)
    as Hcol.
  { induction j as [|j IH]; intros Hj; [done|].
    apply (Hnext 1 (2 * Z.of_nat j + 1));
      [done | apply odd_double_succ | lia | lia | apply IH; lia | | lia | lia].
    replace (1 - 1, 2 * Z.of_nat (S j) + 1 - (2 * Z.of_nat j + 1)) with (0, 2)
      by (f_equal; lia).
    unfold directions. rewrite !elem_of_cons. auto. }
  assert (∀ i j : nat, 0 < 2 * Z.of_nat i + 1 < W - 1 → 0 < 2 * Z.of_nat j + 1 < H - 1 →
            cellG g (2 * Z.of_nat i + 1) (2 * Z.of_nat j + 1) = 0) as Hgrid.
  { induction i as [|i IH]; intros j Hi Hj; [by apply Hcol|].
    apply (Hnext (2 * Z.of_nat i + 1) (2 * Z.of_nat j + 1));
      [apply odd_double_succ | apply odd_double_succ | lia | lia | apply IH; lia
      | | lia | lia].
    replace (2 * Z.of_nat (S i) + 1 - (2 * Z.of_nat i + 1),
             2 * Z.of_nat j + 1 - (2 * Z.of_nat j + 1)) with (2, 0) by (f_equal; lia).
    unfold directions. rewrite !elem_of_cons. auto. }
  intros x y Hox Hoy Hx Hy.
  apply Z.odd_spec in Hox as [i ->]. apply Z.odd_spec in Hoy as [j ->].
  replace i with (Z.of_nat (Z.to_nat i)) by lia.
  replace j with (Z.of_nat (Z.to_nat j)) by lia.
  apply Hgrid; lia.
Qed.

(** After the loop the border holds walls only. *)
Lemma carve_border_walls (g : grid) :
  carve_inv W H g [] →
  ∀ x y, 0 ≤ x < W → 0 ≤ y < H → on_border W H x y = true → cellG g x y = 1.
Proof.
  intros [_ _ Hbin _ Hempty _] x y Hx Hy Hb.
  destruct (Hbin x y Hx Hy) as [H0|]; [|done].
  destruct (Hempty x y Hx Hy H0) as (Hbx & Hby & _).
  pose proof (lattice_bound_lt W). pose proof (lattice_bound_lt H).
  unfold on_border in Hb. rewrite !orb_true_iff in Hb. lia.
Qed.

(** The loops that force the border therefore change nothing. *)
Lemma force_borders_id (g : grid) :
  carve_inv W H g [] → force_borders W H g = Ok g.
Proof.
  intros Hinv. pose proof (carve_border_walls g Hinv) as Hb.
  pose proof (inv_wf _ _ _ _ Hinv) as Hwf.
  assert (∀ x y, 0 ≤ x < W → 0 ≤ y < H → on_border W H x y = true →
            wrG g x y 1 = Ok g) as Hid.
  { intros x y Hx Hy Hxy. apply wr_same_value.
    rewrite (cell_rd W H g x y Hwf Hx Hy). f_equal. by apply Hb. }
  unfold force_borders.
  destruct (for_range_inv (λ _ t, t = g)
    (λ y g, g' ← wrG g 0 y 1; wrG g' (W - 1) y 1) 0 H g) as (g1 & -> & ->);
    [lia | done | |].
  { intros y t Hy ->. exists g. split; [|done].
    rewrite Hid; [| lia | lia | unfold on_border; by rewrite Z.eqb_refl].
    cbn [mbind result_bind].
    apply Hid; [lia | lia |]. unfold on_border. rewrite Z.eqb_refl.
    by rewrite orb_true_r. }
  cbn [mbind result_bind].
  destruct (for_range_inv (λ _ t, t = g)
    (λ x g, g' ← wrG g x 0 1; wrG g' x (H - 1) 1) 0 W g) as (g1 & -> & ->);
    [lia | done | | done].
  intros x t Hx ->. exists g. split; [|done].
  rewrite Hid; [| lia | lia | unfold on_border; rewrite (Z.eqb_refl 0); by rewrite !orb_true_r].
  cbn [mbind result_bind].
  apply Hid; [lia | lia |]. unfold on_border. rewrite Z.eqb_refl.
  by rewrite !orb_true_r.
Qed.
(** ** Placing the finish *)

(** The four cases of [placeRandomFinish]. *)
Lemma finish_cases genF :
  let b := finish_border genF in
  let f := finish_cell W H genF in
  let p := passage_cell W H genF in
  (b = 0 ∧ ∃ o, 1 ≤ o ≤ W - 2 ∧ f = (o, 0) ∧ p = (o, 1))
  ∨ (b = 1 ∧ ∃ o, 1 ≤ o ≤ W - 2 ∧ f = (o, H - 1) ∧ p = (o, H - 2))
  ∨ (b = 2 ∧ ∃ o, 1 ≤ o ≤ H - 2 ∧ f = (0, o) ∧ p = (1, o))
  ∨ (b = 3 ∧ ∃ o, 1 ≤ o ≤ H - 2 ∧ f = (W - 1, o) ∧ p = (W - 2, o)).
Proof.
  intros b f p. subst f p. unfold passage_cell, finish_cell. fold b.
  pose proof (uniform_int_range 0 3 (genF 0%nat) ltac:(lia)) as Hb. fold (finish_border genF) in Hb.
  fold b in Hb.
  pose proof (uniform_int_range 1 (W - 2) (genF 1%nat) ltac:(lia)) as Hw.
  pose proof (uniform_int_range 1 (H - 2) (genF 1%nat) ltac:(lia)) as Hh.
  destruct (b =? 0) eqn:E0.
  { left. split; [lia|]. eexists. split; [exact Hw|]. split; [done|]. f_equal. }
  destruct (b =? 1) eqn:E1.
  { right; left. split; [lia|]. eexists. split; [exact Hw|]. split; [done|]. f_equal. lia. }
  destruct (b =? 2) eqn:E2.
  { right; right; left. split; [lia|]. eexists. split; [exact Hh|]. split; [done|].
    f_equal. }
  right; right; right. split; [lia|]. eexists. split; [exact Hh|]. split; [done|].
  f_equal. lia.
Qed.

Lemma placeRandomFinish_unfold genF (g : grid) :
  placeRandomFinish W H genF g
  = (g1 ← wrG g (passage_cell W H genF).1 (passage_cell W H genF).2 0;
     wrG g1 (finish_cell W H genF).1 (finish_cell W H genF).2 2).
Proof.
  unfold placeRandomFinish, passage_cell, finish_cell, finish_border.
  destruct (uniform_int 0 3 (genF 0%nat) =? 0); [done|].
  destruct (uniform_int 0 3 (genF 0%nat) =? 1); [done|].
  destruct (uniform_int 0 3 (genF 0%nat) =? 2); done.
Qed.

(** The finish lies on the border away from the corners, and the passage is
    the cell next to it on the inner side. *)
Lemma finish_geometry genF fx fy px py :
  finish_cell W H genF = (fx, fy) → passage_cell W H genF = (px, py) →
  0 ≤ fx < W ∧ 0 ≤ fy < H ∧ on_border W H fx fy = true
  ∧ 0 < px < W - 1 ∧ 0 < py < H - 1
  ∧ inside_of W H fx fy = (px, py) ∧ adjacent (fx, fy) (px, py).
Proof.
  intros Hf Hp. unfold on_border, inside_of, adjacent.
  destruct (finish_cases genF) as [(_ & o & Ho & Hf' & Hp')|[(_ & o & Ho & Hf' & Hp')|
    [(_ & o & Ho & Hf' & Hp')|(_ & o & Ho & Hf' & Hp')]]];
    rewrite Hf in Hf'; rewrite Hp in Hp';
    injection Hf' as -> ->; injection Hp' as -> ->; simpl;
    repeat match goal with
    | |- context [?a =? ?b] =>
        first [ rewrite (Z.eqb_refl a)
              | destruct (Z.eqb_spec a b); [lia|] ]
    end;
    rewrite ?orb_true_r; simpl; repeat split; try lia; try done; auto.
Qed.

Lemma placeRandomFinish_spec genF (g : grid) fx fy px py :
  wfG g →
  finish_cell W H genF = (fx, fy) → passage_cell W H genF = (px, py) →
  ∃ g', placeRandomFinish W H genF g = Ok g' ∧ wfG g'
        ∧ cellG g' fx fy = 2 ∧ cellG g' px py = 0
        ∧ ∀ x y, (x, y) ≠ (fx, fy) → (x, y) ≠ (px, py) → cellG g' x y = cellG g x y.
Proof.
  intros Hwf Hf Hp.
  destruct (finish_geometry genF fx fy px py Hf Hp) as (Hfx & Hfy & Hb & Hpx & Hpy & _ & Hadj).
  rewrite placeRandomFinish_unfold, Hf, Hp. simpl.
  destruct (wr_Ok W H g px py 0) as [g1 Hg1]; [apply in_range_spec; lia|].
  destruct (wr_Ok W H g1 fx fy 2) as [g2 Hg2]; [apply in_range_spec; lia|].
  rewrite Hg1. cbn [mbind result_bind]. rewrite Hg2.
  assert (wfG g1) as Hwf1 by exact (wr_wf W H g px py 0 g1 Hwf Hg1).
  assert ((px, py) ≠ (fx, fy)) as Hne.
  { intros [= -> ->]. unfold adjacent in Hadj. simpl in Hadj. lia. }
  exists g2. split; [done|]. split; [exact (wr_wf W H g1 fx fy 2 g2 Hwf1 Hg2)|].
  split; [exact (cell_wr_same W H g1 g2 fx fy 2 Hwf1 Hg2)|]. split.
  - rewrite (cell_wr_other W H g1 g2 fx fy 2) by done.
    exact (cell_wr_same W H g g1 px py 0 Hwf Hg1).
  - intros x y Hnf Hnp. rewrite (cell_wr_other W H g1 g2 fx fy 2) by done.
    by rewrite (cell_wr_other W H g g1 px py 0).
Qed.
(** ** The generated maze *)

(** What [generateMaze] returns: the carved grid [g3], to which the finish and
    its passage are added when the finish is enabled. *)
Lemma generateMaze_spec cfg fuel gen genF (g0 : grid) fx fy px py :
  wfG g0 → (Z.to_nat (2 * W * H) ≤ fuel)%nat →
  finish_cell W H genF = (fx, fy) → passage_cell W H genF = (px, py) →
  ∃ g3 g,
    carve_inv W H g3 []
    ∧ generateMaze W H cfg fuel gen genF g0 = Ok g
    ∧ wfG g
    ∧ (finish_enabled cfg = false → g = g3)
    ∧ (finish_enabled cfg = true →
       cellG g fx fy = 2 ∧ cellG g px py = 0
       ∧ ∀ x y, (x, y) ≠ (fx, fy) → (x, y) ≠ (px, py) → cellG g x y = cellG g3 x y).
Proof.
  intros Hwf0 Hfuel Hf Hp. unfold generateMaze.
  destruct (carve_spec fuel gen g0 Hwf0 Hfuel) as (g3 & -> & Hinv).
  cbn [mbind result_bind]. rewrite (force_borders_id g3 Hinv). cbn [mbind result_bind].
  pose proof (inv_wf _ _ _ _ Hinv) as Hwf3.
  destruct (finish_enabled cfg) eqn:Hen.
  - destruct (placeRandomFinish_spec genF g3 fx fy px py Hwf3 Hf Hp)
      as (g & Hg & Hwf & Hgf & Hgp & Hoth).
    exists g3, g. split_and!; try done.
  - exists g3, g3. split_and!; try done.
Qed.

Lemma flood_empty (g : grid) c : floodG g c → getG g c.1 c.2 = 0.
Proof. by destruct 1. Qed.

Lemma flood_inv (g : grid) c :
  floodG g c → c = (1, 1) ∨ ∃ c', adjacent c' c ∧ getG g c'.1 c'.2 = 0.
Proof.
  destruct 1 as [|c' d Hc' Hadj Hd]; [by left|].
  right. exists c'. split; [done|]. by apply flood_empty.
Qed.

(** Every empty cell of the generated maze is reached by the flood fill, save
    possibly the passage opened for a finish on the bottom or right border. *)
Lemma generateMaze_flood cfg fuel gen genF (g0 : grid) :
  wfG g0 → (Z.to_nat (2 * W * H) ≤ fuel)%nat →
  ∃ g, generateMaze W H cfg fuel gen genF g0 = Ok g
       ∧ ∀ x y, getG g x y = 0 →
           (finish_enabled cfg = true → (x, y) = passage_cell W H genF →
            finish_border genF = 0 ∨ finish_border genF = 2) →
           floodG g (x, y).
Proof.
  intros Hwf0 Hfuel.
  destruct (finish_cell W H genF) as [fx fy] eqn:Hf.
  destruct (passage_cell W H genF) as [px py] eqn:Hp.
  destruct (generateMaze_spec cfg fuel gen genF g0 fx fy px py Hwf0 Hfuel Hf Hp)
    as (g3 & g & Hinv & Hg & Hwf & Hoff & Hon).
  exists g. split; [done|]. intros x y Hxy Hexc.
  destruct (getCell_not_wall W H g x y ltac:(lia)) as [Hx Hy].
  rewrite getCell_in in Hxy by lia.
  destruct (finish_enabled cfg) eqn:Hen.
  2:{ rewrite (Hoff eq_refl) in *. by apply (inv_empty _ _ _ _ Hinv). }
  destruct (Hon eq_refl) as (Hgf & Hgp & Hoth).
  destruct (finish_geometry genF fx fy px py Hf Hp) as (Hfx & Hfy & Hb & Hpx & Hpy & _ & _).
  assert (∀ x y, getG g3 x y = 0 → getG g x y = 0) as Hkeep.
  { intros x' y' H0.
    destruct (getCell_not_wall W H g3 x' y' ltac:(lia)) as [Hx' Hy'].
    rewrite getCell_in in * by lia.
    destruct (decide ((x', y') = (px, py))) as [[= -> ->]|Hnp]; [done|].
    destruct (decide ((x', y') = (fx, fy))) as [[= -> ->]|Hnf].
    - rewrite (carve_border_walls g3 Hinv fx fy) in H0 by done. done.
    - by rewrite Hoth. }
  assert (∀ x y, 0 ≤ x < W → 0 ≤ y < H → cellG g3 x y = 0 → floodG g (x, y)) as Hold.
  { intros x' y' Hx' Hy' H0. apply (flood_mono g3 g); [done|].
    by apply (inv_empty _ _ _ _ Hinv). }
  destruct (decide ((x, y) = (px, py))) as [[= -> ->]|Hnp].
  - (* the passage: on the top or left border it touches a lattice cell *)
    specialize (Hexc eq_refl eq_refl).
    assert (∀ cx cy, Z.odd cx = true → Z.odd cy = true → 0 < cx < W - 1 → 0 < cy < H - 1 →
              adjacent (cx, cy) (px, py) ∨ (cx, cy) = (px, py) → floodG g (px, py)) as Hvia.
    { intros cx cy Hox Hoy Hcx Hcy [Hadj|[= <- <-]].
      - eapply flood_step; [apply (Hold cx cy) | exact Hadj |]; try lia.
        + by apply (carve_complete g3 Hinv).
        + simpl. rewrite getCell_in by lia. done.
      - apply (Hold cx cy); try lia. by apply (carve_complete g3 Hinv). }
    destruct (finish_cases genF) as [(_ & o & Ho & Hf' & Hp')|[(Hb1 & _)|
      [(_ & o & Ho & Hf' & Hp')|(Hb3 & _)]]]; [| lia | | lia];
      rewrite Hp in Hp'; injection Hp' as -> ->.
    + destruct (Z.odd o) eqn:Hodd.
      * apply (Hvia o 1); try (done || lia). by right.
      * apply (Hvia (o - 1) 1); try (done || lia).
        -- rewrite Z.odd_sub, Hodd. done.
        -- assert (o ≠ 1) by (intros ->; done). lia.
        -- left. unfold adjacent. simpl. lia.
    + destruct (Z.odd o) eqn:Hodd.
      * apply (Hvia 1 o); try (done || lia). by right.
      * apply (Hvia 1 (o - 1)); try (done || lia).
        -- rewrite Z.odd_sub, Hodd. done.
        -- assert (o ≠ 1) by (intros ->; done). lia.
        -- left. unfold adjacent. simpl. lia.
  - assert ((x, y) ≠ (fx, fy)) as Hnf by (intros [= -> ->]; congruence).
    apply Hold; try done. by rewrite <- Hoth.
Qed.

(** With both dimensions even, the passage opened for a finish in the last
    column of the bottom border has no empty neighbour: the flood fill does
    not reach it. *)
Lemma generateMaze_isolated cfg fuel gen genF (g0 : grid) :
  wfG g0 → (Z.to_nat (2 * W * H) ≤ fuel)%nat →
  Z.even W = true → Z.even H = true →
  finish_enabled cfg = true →
  finish_cell W H genF = (W - 2, H - 1) → passage_cell W H genF = (W - 2, H - 2) →
  ∃ g, generateMaze W H cfg fuel gen genF g0 = Ok g
       ∧ getG g (W - 2) (H - 2) = 0 ∧ ¬ floodG g (W - 2, H - 2).
Proof.
  intros Hwf0 Hfuel HevW HevH Hen Hf Hp.
  destruct (generateMaze_spec cfg fuel gen genF g0 _ _ _ _ Hwf0 Hfuel Hf Hp)
    as (g3 & g & Hinv & Hg & Hwf & _ & Hon).
  destruct (Hon Hen) as (Hgf & Hgp & Hoth).
  pose proof HevW as [w Hw]%Z.even_spec.
  exists g. split; [done|]. split; [rewrite getCell_in by lia; done|].
  intros [[= Hx1 Hy1]|([cx cy] & Hadj & Hc)]%flood_inv; [lia|].
  simpl in Hc. destruct (getCell_not_wall W H g cx cy ltac:(lia)) as [Hcx Hcy].
  rewrite getCell_in in Hc by lia.
  assert ((cx, cy) ≠ (W - 2, H - 1)) as Hnf by (intros [= -> ->]; congruence).
  assert ((cx, cy) ≠ (W - 2, H - 2)) as Hnp.
  { intros [= -> ->]. unfold adjacent in Hadj. simpl in Hadj. lia. }
  rewrite Hoth in Hc by done.
  destruct (inv_empty _ _ _ _ Hinv cx cy Hcx Hcy Hc) as (Hbx & Hby & _).
  unfold lattice_bound in Hbx, Hby. rewrite HevW in Hbx. rewrite HevH in Hby.
  unfold adjacent in Hadj. simpl in Hadj. lia.
Qed.
(** The border of the generated maze: walls, but for the one finish cell. *)
Lemma generateMaze_border cfg fuel gen genF (g0 : grid) :
  wfG g0 → (Z.to_nat (2 * W * H) ≤ fuel)%nat → finish_enabled cfg = true →
  ∃ g, generateMaze W H cfg fuel gen genF g0 = Ok g
       ∧ ∃ fx fy, 0 ≤ fx < W ∧ 0 ≤ fy < H ∧ on_border W H fx fy = true
           ∧ getG g fx fy = 2
           ∧ ∀ x y, 0 ≤ x < W → 0 ≤ y < H → on_border W H x y = true →
                    (x, y) ≠ (fx, fy) → getG g x y = 1.
Proof.
  intros Hwf0 Hfuel Hen.
  destruct (finish_cell W H genF) as [fx fy] eqn:Hf.
  destruct (passage_cell W H genF) as [px py] eqn:Hp.
  destruct (generateMaze_spec cfg fuel gen genF g0 fx fy px py Hwf0 Hfuel Hf Hp)
    as (g3 & g & Hinv & Hg & Hwf & _ & Hon).
  destruct (Hon Hen) as (Hgf & Hgp & Hoth).
  destruct (finish_geometry genF fx fy px py Hf Hp) as (Hfx & Hfy & Hb & Hpx & Hpy & _ & _).
  exists g. split; [done|]. exists fx, fy. split_and!; try (done || lia).
  - rewrite getCell_in by lia. done.
  - intros x y Hx Hy Hxy Hne. rewrite getCell_in by lia.
    assert ((x, y) ≠ (px, py)) as Hnp.
    { intros [= -> ->]. unfold on_border in Hxy. rewrite !orb_true_iff in Hxy. lia. }
    rewrite Hoth by done. by apply (carve_border_walls g3 Hinv).
Qed.

(** The cell on the inner side of the finish is empty. *)
Lemma generateMaze_finish_open cfg fuel gen genF (g0 : grid) :
  wfG g0 → (Z.to_nat (2 * W * H) ≤ fuel)%nat → finish_enabled cfg = true →
  ∃ g, generateMaze W H cfg fuel gen genF g0 = Ok g
       ∧ (∃ fx fy, getG g fx fy = 2)
       ∧ ∀ x y, getG g x y = 2 →
           on_border W H x y = true
           ∧ getG g (inside_of W H x y).1 (inside_of W H x y).2 = 0.
Proof.
  intros Hwf0 Hfuel Hen.
  destruct (finish_cell W H genF) as [fx fy] eqn:Hf.
  destruct (passage_cell W H genF) as [px py] eqn:Hp.
  destruct (generateMaze_spec cfg fuel gen genF g0 fx fy px py Hwf0 Hfuel Hf Hp)
    as (g3 & g & Hinv & Hg & Hwf & _ & Hon).
  destruct (Hon Hen) as (Hgf & Hgp & Hoth).
  destruct (finish_geometry genF fx fy px py Hf Hp)
    as (Hfx & Hfy & Hb & Hpx & Hpy & Hin & _).
  exists g. split; [done|]. split.
  { exists fx, fy. rewrite getCell_in by lia. done. }
  intros x y Hxy.
  destruct (getCell_not_wall W H g x y ltac:(lia)) as [Hx Hy].
  rewrite getCell_in in Hxy by lia.
  assert ((x, y) = (fx, fy)) as [= -> ->].
  { destruct (decide ((x, y) = (fx, fy))) as [|Hnf]; [done|].
    destruct (decide ((x, y) = (px, py))) as [[= -> ->]|Hnp]; [congruence|].
    rewrite Hoth in Hxy by done.
    destruct (inv_binary _ _ _ _ Hinv x y Hx Hy); congruence. }
  split; [done|]. rewrite Hin. simpl. rewrite getCell_in by lia. done.
Qed.
(** [generateMaze] of [raycast_maze-v1.cpp]: the carved grid with the cell
    [(W - 3, H - 3)] marked as finish. *)
Lemma V1_generateMaze_spec fuel gen (g0 : grid) :
  wfG g0 → (Z.to_nat (2 * W * H) ≤ fuel)%nat →
  ∃ g3 g,
    carve_inv W H g3 []
    ∧ V1.generateMaze W H fuel gen g0 = Ok g
    ∧ wfG g
    ∧ getG g (W - 3) (H - 3) = 2
    ∧ ∀ x y, (x, y) ≠ (W - 3, H - 3) → getG g x y = getG g3 x y.
Proof.
  intros Hwf0 Hfuel. unfold V1.generateMaze.
  destruct (carve_spec fuel gen g0 Hwf0 Hfuel) as (g3 & -> & Hinv).
  cbn [mbind result_bind]. rewrite (force_borders_id g3 Hinv). cbn [mbind result_bind].
  pose proof (inv_wf _ _ _ _ Hinv) as Hwf3.
  destruct (wr_Ok W H g3 (W - 3) (H - 3) 2) as [g Hg]; [apply in_range_spec; lia|].
  exists g3, g. split_and!; try done.
  - exact (wr_wf W H g3 _ _ _ g Hwf3 Hg).
  - exact (getCell_wr_same W H g3 g _ _ _ Hwf3 Hg).
  - intros x y Hne. exact (getCell_wr_other W H g3 g _ _ _ x y Hg Hne).
Qed.
(** The border of a maze of v1 holds walls only: its finish is inside. *)
Lemma V1_generateMaze_border fuel gen (g0 : grid) :
  4 ≤ W → 4 ≤ H → wfG g0 → (Z.to_nat (2 * W * H) ≤ fuel)%nat →
  ∃ g, V1.generateMaze W H fuel gen g0 = Ok g
       ∧ getG g (W - 3) (H - 3) = 2
       ∧ on_border W H (W - 3) (H - 3) = false
       ∧ ∀ x y, 0 ≤ x < W → 0 ≤ y < H → on_border W H x y = true → getG g x y = 1.
Proof.
  intros HW4 HH4 Hwf0 Hfuel.
  destruct (V1_generateMaze_spec fuel gen g0 Hwf0 Hfuel)
    as (g3 & g & Hinv & Hg & Hwf & Hfin & Hoth).
  assert (on_border W H (W - 3) (H - 3) = false) as Hnb.
  { unfold on_border. rewrite !orb_false_iff. repeat split; lia. }
  exists g. split_and!; try done.
  intros x y Hx Hy Hb. rewrite Hoth by (intros [= -> ->]; congruence).
  rewrite getCell_in by lia. by apply (carve_border_walls g3 Hinv).
Qed.
End MazeFacts.








(** ** The exploration tracker *)

Section TrackerFacts.
Variables (W H : Z).
Hypothesis HW : 0 ≤ W.
Hypothesis HH : 0 ≤ H.
Hypothesis Hint : W * H ≤ Int.INT_MAX.

Local Abbreviation rdV := (rd (A:=bool) W H).
Local Abbreviation okT := (tracker_ok W H).

Lemma tracker_count_bound t : okT t → 0 ≤ distinctVisited t ≤ W * H.
Proof.
  intros [Hwf ->].
  pose proof (count_cells_bound W H (λ b : bool, b) (visitedCells t) Hwf HW HH). lia.
Qed.

(** A call on a cell inside the map that is not yet marked. *)
Lemma recordVisit_fresh cellX cellY t :
  okT t → rdV (visitedCells t) cellX cellY = Some false →
  ∃ t', recordVisit W H cellX cellY t = Ok t'
        ∧ okT t'
        ∧ rdV (visitedCells t') cellX cellY = Some true
        ∧ distinctVisited t' = distinctVisited t + 1
        ∧ ∀ x y, (x, y) ≠ (cellX, cellY) →
                 rdV (visitedCells t') x y = rdV (visitedCells t) x y.
Proof.
  intros [Hwf Hcount] Hrd. pose proof (rd_in_range _ _ _ _ _ _ Hrd) as Hr.
  pose proof Hr as [Hx Hy]%in_range_spec.
  unfold recordVisit. rewrite Hrd. simpl.
  destruct (cellX >=? 0) eqn:E1; [|lia]. destruct (cellX <? W) eqn:E2; [|lia].
  destruct (cellY >=? 0) eqn:E3; [|lia]. destruct (cellY <? H) eqn:E4; [|lia]. simpl.
  destruct (wr_Ok W H (visitedCells t) cellX cellY true Hr) as [v Hv].
  rewrite Hv. cbn [mbind result_bind].
  pose proof (wr_wf W H _ _ _ _ _ Hwf Hv) as Hwfv.
  pose proof (count_cells_wr W H (λ b : bool, b) _ _ _ _ _ _ Hv Hrd) as Hc.
  pose proof (count_cells_bound W H (λ b : bool, b) v Hwfv HW HH) as Hb.
  assert (Int.add (distinctVisited t) 1 = distinctVisited t + 1) as Hadd.
  { unfold Int.add. apply IntFacts.wrap_id. unfold Int.representable, Int.INT_MIN.
    unfold Int.INT_MAX in *. lia. }
  eexists. split; [done|]. simpl. rewrite Hadd. split_and!.
  - split; [done|]. simpl in Hc |- *. lia.
  - exact (rd_wr_same W H _ _ _ _ _ Hwf Hv).
  - done.
  - intros x y Hne. exact (rd_wr_other W H _ _ _ _ _ _ _ Hv Hne).
Qed.

(** A call outside the map, or on a marked cell, returns the tracker as it is. *)
Lemma recordVisit_noop cellX cellY t :
  ¬ (0 ≤ cellX < W ∧ 0 ≤ cellY < H) ∨ rdV (visitedCells t) cellX cellY = Some true →
  recordVisit W H cellX cellY t = Ok t.
Proof.
  intros [Hout|Hrd]; unfold recordVisit.
  - destruct (cellX >=? 0) eqn:E1; [|done]. destruct (cellX <? W) eqn:E2; [|done].
    destruct (cellY >=? 0) eqn:E3; [|done]. destruct (cellY <? H) eqn:E4; [|done]. lia.
  - rewrite Hrd. simpl. by rewrite andb_false_r.
Qed.

(** Every call returns, keeps the invariant and the marks, and does not lower
    the count. *)
Lemma recordVisit_ok cellX cellY t :
  okT t →
  ∃ t', recordVisit W H cellX cellY t = Ok t' ∧ okT t'
        ∧ distinctVisited t ≤ distinctVisited t'
        ∧ (∀ x y, rdV (visitedCells t) x y = Some true →
                  rdV (visitedCells t') x y = Some true)
        ∧ (0 ≤ cellX < W → 0 ≤ cellY < H → rdV (visitedCells t') cellX cellY = Some true).
Proof.
  intros Hok.
  destruct (decide (0 ≤ cellX < W ∧ 0 ≤ cellY < H)) as [[Hx Hy]|Hout].
  - destruct (rd_is_Some W H (visitedCells t) cellX cellY (proj1 Hok)) as [b Hb];
      [apply in_range_spec; lia|].
    destruct b.
    + exists t. rewrite recordVisit_noop by (by right). split_and!; try done; lia.
    + destruct (recordVisit_fresh cellX cellY t Hok Hb) as (t' & Ht' & Hok' & Hm & Hc & Hoth).
      exists t'. split_and!; try done; try lia.
      intros x y Hxy. destruct (decide ((x, y) = (cellX, cellY))) as [[= -> ->]|Hne];
        [done | by rewrite Hoth].
  - exists t. rewrite recordVisit_noop by (by left). split_and!; try done; lia.
Qed.

Lemma recordVisits_ok cells : ∀ t,
  okT t →
  ∃ t', recordVisits W H cells t = Ok t' ∧ okT t'
        ∧ distinctVisited t ≤ distinctVisited t'
        ∧ (∀ x y, rdV (visitedCells t) x y = Some true →
                  rdV (visitedCells t') x y = Some true)
        ∧ (∀ x y, (x, y) ∈ cells → 0 ≤ x < W → 0 ≤ y < H →
                  rdV (visitedCells t') x y = Some true).
Proof.
  induction cells as [|[cx cy] cells IH]; intros t Hok.
  - exists t. split_and!; try done; try lia. intros x y Hin. by apply elem_of_nil in Hin.
  - destruct (recordVisit_ok cx cy t Hok) as (t1 & Ht1 & Hok1 & Hle1 & Hkeep1 & Hm1).
    destruct (IH t1 Hok1) as (t2 & Ht2 & Hok2 & Hle2 & Hkeep2 & Hm2).
    exists t2. cbn [recordVisits]. rewrite Ht1. cbn [mbind result_bind].
    split_and!; try done; try lia; [by auto|].
    intros x y [[= -> ->]|Hin]%elem_of_cons Hx Hy; [|by apply Hm2].
    apply Hkeep2. by apply Hm1.
Qed.

(** [initVisited] clears the bitmap and zeroes the count. *)
Lemma initVisited_spec t :
  wf W H (visitedCells t) →
  ∃ t0, initVisited W H t = Ok t0 ∧ okT t0 ∧ distinctVisited t0 = 0
        ∧ ∀ x y, 0 ≤ x < W → 0 ≤ y < H → rdV (visitedCells t0) x y = Some false.
Proof.
  intros Hwf. unfold initVisited.
  destruct (fill_spec W H false (visitedCells t) HW HH Hwf) as (v & -> & Hwfv & Hall).
  cbn [mbind result_bind]. eexists. split; [done|]. simpl. split_and!; try done.
  split; [done|]. simpl. rewrite count_cells_zero; [done|].
  intros i row j u Hi Hj.
  pose proof (rd_lookup W H v i j row u Hwfv Hi Hj) as Hrd.
  pose proof (rd_in_range _ _ _ _ _ _ Hrd) as [Hx Hy]%in_range_spec.
  rewrite Hall in Hrd by done. by injection Hrd as <-.
Qed.

Lemma elem_of_all_cells x y : (x, y) ∈ all_cells W H ↔ 0 ≤ x < W ∧ 0 ≤ y < H.
Proof.
  unfold all_cells. rewrite list_elem_of_bind. split.
  - intros (y' & Hin & Hy'). apply elem_of_seqZ in Hy'.
    apply list_elem_of_fmap in Hin as (x' & [= -> ->] & Hx'). apply elem_of_seqZ in Hx'. lia.
  - intros [Hx Hy]. exists y. split; [|apply elem_of_seqZ; lia].
    apply list_elem_of_fmap. exists x. split; [done|]. apply elem_of_seqZ. lia.
Qed.

(** Once every cell has been recorded the count is the number of cells. *)
Lemma recordVisits_all t :
  okT t →
  ∃ t', recordVisits W H (all_cells W H) t = Ok t' ∧ distinctVisited t' = W * H.
Proof.
  intros Hok.
  destruct (recordVisits_ok (all_cells W H) t Hok) as (t' & Ht' & [Hwf' Hc'] & _ & _ & Hall).
  exists t'. split; [done|]. rewrite Hc'.
  pose proof (count_cells_compl W (λ b : bool, b) (visitedCells t') (proj2 Hwf')) as Hcompl.
  rewrite (count_cells_zero (λ b : bool, negb b)) in Hcompl.
  - rewrite (proj1 Hwf') in Hcompl. lia.
  - intros i row j u Hi Hj.
    pose proof (rd_lookup W H _ i j row u Hwf' Hi Hj) as Hrd.
    pose proof (rd_in_range _ _ _ _ _ _ Hrd) as [Hx Hy]%in_range_spec.
    rewrite Hall in Hrd; [by injection Hrd as <- | by apply elem_of_all_cells | done..].
Qed.

(** A grid with a wall has fewer passable cells than cells. *)
Lemma passable_lt_cells (g : list (list Z)) x y :
  wf W H g → 0 ≤ x < W → 0 ≤ y < H → getCell W H g x y = 1 →
  Z.of_nat (count_cells passable g) < W * H.
Proof.
  intros Hwf Hx Hy Hxy. rewrite getCell_in in Hxy by done.
  pose proof (cell_rd W H g x y Hwf Hx Hy) as Hrd. rewrite Hxy in Hrd.
  unfold rd in Hrd. destruct (in_range W H x y); [|done].
  destruct (g !! Z.to_nat y) as [row|] eqn:Hrow; [|done]. simpl in Hrd.
  pose proof (count_cells_compl W passable g (proj2 Hwf)) as Hcompl.
  pose proof (count_cells_pos (λ u, negb (passable u)) g _ row _ 1 Hrow Hrd eq_refl).
  rewrite (proj1 Hwf) in Hcompl. lia.
Qed.
End TrackerFacts.

(** ** Collision resolution *)

Lemma for_range_empty {St : Type} (body : Z → St → result St) lo hi s :
  hi ≤ lo → for_range lo hi body s = Ok s.
Proof. intros Hle. unfold for_range. by replace (Z.to_nat (hi - lo)) with 0%nat by lia. Qed.

(** The invariant rule for a loop whose range may be empty. *)
Lemma for_range_keeps {St : Type} (I : St → Prop) (body : Z → St → result St) lo hi s :
  I s →
  (∀ j t, lo ≤ j < hi → I t → ∃ t', body j t = Ok t' ∧ I t') →
  ∃ s', for_range lo hi body s = Ok s' ∧ I s'.
Proof.
  intros Hs Hbody. destruct (decide (lo ≤ hi)) as [Hle|Hgt].
  - by apply (for_range_inv (λ _, I)).
  - exists s. split; [apply for_range_empty; lia | done].
Qed.

Section ResolverFacts.
Variables (W H : Z).
Variable obstacle : Z → bool.

Local Abbreviation grid := (list (list Z)).

(** A cell that is no obstacle, or that the circle does not penetrate, leaves
    the position as it is. *)
Lemma resolve_cell_skip (g : grid) hitbox cx cy posX posY :
  obstacle (getCell W H g cx cy) = false ∨ overlaps posX posY hitbox cx cy = false →
  resolve_cell W H obstacle g hitbox cx cy (posX, posY) = Ok (posX, posY).
Proof.
  unfold resolve_cell, overlaps, dist_sq. intros [->| ->]; [done|].
  by destruct (obstacle _).
Qed.

(** The push of a penetrated obstacle at distance zero: along -Y, by the
    penetration depth. *)
Lemma resolve_cell_zero_distance (g : grid) hitbox cx cy posX posY :
  obstacle (getCell W H g cx cy) = true →
  overlaps posX posY hitbox cx cy = true →
  PrimFloat.eqb (PrimFloat.sqrt (dist_sq posX posY cx cy)) 0 = true →
  resolve_cell W H obstacle g hitbox cx cy (posX, posY)
  = Ok (posX, (posY - (hitbox - PrimFloat.sqrt (dist_sq posX posY cx cy)))%float).
Proof.
  unfold resolve_cell, overlaps, dist_sq. intros -> -> ->. done.
Qed.

(** The body never fails: the two divisions are reached with a divisor that
    the test [dist == 0] has found different from zero. *)
Lemma resolve_cell_total (g : grid) hitbox cx cy pos :
  ∃ pos', resolve_cell W H obstacle g hitbox cx cy pos = Ok pos'.
Proof.
  destruct pos as [posX posY]. unfold resolve_cell.
  destruct (obstacle _); [|by eexists].
  destruct (PrimFloat.ltb _ _); [|by eexists].
  destruct (PrimFloat.eqb _ 0) eqn:Hz; [by eexists|].
  unfold checked_div. rewrite Hz. cbn [mbind result_bind]. by eexists.
Qed.

Lemma resolve_with_total (g : grid) posX posY hitbox :
  ∃ pos', resolve_with W H obstacle g posX posY hitbox = Ok pos'.
Proof.
  unfold resolve_with. destruct (scan_range W H posX posY hitbox) as [[[sx ex] sy] ey].
  destruct (for_range_keeps (λ _, True)
    (λ cy pos, for_range sx (ex + 1)
       (λ cx pos, resolve_cell W H obstacle g hitbox cx cy pos) pos)
    sy (ey + 1) (posX, posY) I) as (pos' & Hpos' & _); [|by exists pos'].
  intros cy pos _ _.
  destruct (for_range_keeps (λ _, True)
    (λ cx pos, resolve_cell W H obstacle g hitbox cx cy pos) sx (ex + 1) pos I)
    as (pos' & Hpos' & _); [|by exists pos'].
  intros cx pos1 _ _. destruct (resolve_cell_total g hitbox cx cy pos1) as [pos2 ->].
  by exists pos2.
Qed.

(** The cells the two loops visit lie inside the map. *)
Lemma scan_range_in_map posX posY hitbox sx ex sy ey :
  scan_range W H posX posY hitbox = (sx, ex, sy, ey) →
  0 ≤ sx ∧ ex ≤ W - 1 ∧ 0 ≤ sy ∧ ey ≤ H - 1.
Proof. unfold scan_range. intros [= <- <- <- <-]. lia. Qed.

(** A circle that penetrates no obstacle of the map keeps its position. *)
Lemma resolve_with_unchanged (g : grid) posX posY hitbox :
  (∀ cx cy, 0 ≤ cx < W → 0 ≤ cy < H → obstacle (getCell W H g cx cy) = true →
            overlaps posX posY hitbox cx cy = false) →
  resolve_with W H obstacle g posX posY hitbox = Ok (posX, posY).
Proof.
  intros Hclear. unfold resolve_with.
  destruct (scan_range W H posX posY hitbox) as [[[sx ex] sy] ey] eqn:Hscan.
  apply scan_range_in_map in Hscan as (Hsx & Hex & Hsy & Hey).
  destruct (for_range_keeps (λ pos, pos = (posX, posY))
    (λ cy pos, for_range sx (ex + 1)
       (λ cx pos, resolve_cell W H obstacle g hitbox cx cy pos) pos)
    sy (ey + 1) (posX, posY) eq_refl) as (pos' & Hpos' & ->); [|done].
  intros cy pos Hcy ->.
  destruct (for_range_keeps (λ pos, pos = (posX, posY))
    (λ cx pos, resolve_cell W H obstacle g hitbox cx cy pos) sx (ex + 1) (posX, posY) eq_refl)
    as (pos' & Hpos' & ->); [|by eexists].
  intros cx pos Hcx ->. exists (posX, posY). split; [|done].
  apply resolve_cell_skip.
  destruct (obstacle (getCell W H g cx cy)) eqn:Hob; [right|by left].
  apply Hclear; [lia | lia | done].
Qed.
End ResolverFacts.

(** *** The two loops cut at a cell *)

Lemma for_loop_split {St : Type} (body : Z → St → result St) n m :
  ∀ i s, for_loop (n + m) i body s
         = s' ← for_loop n i body s; for_loop m (i + Z.of_nat n) body s'.
Proof.
  induction n as [|n IH]; intros i s; cbn [for_loop Nat.add mbind result_bind].
  - by replace (i + Z.of_nat 0) with i by lia.
  - destruct (body i s) as [t|e]; cbn [mbind result_bind]; [|done].
    rewrite IH. by replace (i + 1 + Z.of_nat n) with (i + Z.of_nat (S n)) by lia.
Qed.

Lemma for_range_split {St : Type} (body : Z → St → result St) lo mid hi s :
  lo ≤ mid ≤ hi →
  for_range lo hi body s = s' ← for_range lo mid body s; for_range mid hi body s'.
Proof.
  intros Hm. unfold for_range.
  replace (Z.to_nat (hi - lo)) with (Z.to_nat (mid - lo) + Z.to_nat (hi - mid))%nat by lia.
  rewrite for_loop_split. by replace (lo + Z.of_nat (Z.to_nat (mid - lo))) with mid by lia.
Qed.

Lemma for_range_first {St : Type} (body : Z → St → result St) lo hi s :
  lo < hi →
  for_range lo hi body s = s' ← body lo s; for_range (lo + 1) hi body s'.
Proof.
  intros Hlt. unfold for_range.
  by replace (Z.to_nat (hi - lo)) with (S (Z.to_nat (hi - (lo + 1)))) by lia.
Qed.

Section ResolverCut.
Variables (W H : Z).
Variable obstacle : Z → bool.

Local Abbreviation grid := (list (list Z)).

Lemma scan_row_total (g : grid) hitbox lo hi cy pos :
  ∃ pos', scan_row W H obstacle g hitbox lo hi cy pos = Ok pos'.
Proof.
  unfold scan_row.
  destruct (for_range_keeps (λ _, True)
    (λ cx pos, resolve_cell W H obstacle g hitbox cx cy pos) lo hi pos I)
    as (pos' & Hpos' & _); [|by exists pos'].
  intros cx pos1 _ _. destruct (resolve_cell_total W H obstacle g hitbox cx cy pos1)
    as [pos2 ->].
  by exists pos2.
Qed.

Lemma scan_before_total (g : grid) hitbox sx ex sy cx cy pos :
  ∃ pos', scan_before W H obstacle g hitbox sx ex sy cx cy pos = Ok pos'.
Proof.
  unfold scan_before.
  destruct (for_range_keeps (λ _, True)
    (λ y pos, scan_row W H obstacle g hitbox sx (ex + 1) y pos) sy cy pos I)
    as (pos1 & -> & _).
  { intros y pos1 _ _. destruct (scan_row_total g hitbox sx (ex + 1) y pos1) as [pos2 ->].
    by exists pos2. }
  cbn [mbind result_bind]. apply scan_row_total.
Qed.

(** A part of a row none of whose obstacles the circle penetrates leaves the
    position as it is. *)
Lemma scan_row_unchanged (g : grid) hitbox lo hi cy posX posY :
  (∀ cx, lo ≤ cx < hi → obstacle (getCell W H g cx cy) = true →
         overlaps posX posY hitbox cx cy = false) →
  scan_row W H obstacle g hitbox lo hi cy (posX, posY) = Ok (posX, posY).
Proof.
  intros Hclear. unfold scan_row.
  destruct (for_range_keeps (λ pos, pos = (posX, posY))
    (λ cx pos, resolve_cell W H obstacle g hitbox cx cy pos) lo hi (posX, posY) eq_refl)
    as (pos' & Hpos' & ->); [|done].
  intros cx pos Hcx ->. exists (posX, posY). split; [|done].
  apply resolve_cell_skip.
  destruct (obstacle (getCell W H g cx cy)) eqn:Hob; [right|by left].
  by apply Hclear.
Qed.

Lemma scan_rows_unchanged (g : grid) hitbox sx ex lo hi posX posY :
  (∀ cx cy, sx ≤ cx ≤ ex → lo ≤ cy < hi → obstacle (getCell W H g cx cy) = true →
            overlaps posX posY hitbox cx cy = false) →
  for_range lo hi (λ y pos, scan_row W H obstacle g hitbox sx (ex + 1) y pos) (posX, posY)
  = Ok (posX, posY).
Proof.
  intros Hclear.
  destruct (for_range_keeps (λ pos, pos = (posX, posY))
    (λ y pos, scan_row W H obstacle g hitbox sx (ex + 1) y pos) lo hi (posX, posY) eq_refl)
    as (pos' & Hpos' & ->); [|done].
  intros cy pos Hcy ->. exists (posX, posY). split; [|done].
  apply scan_row_unchanged. intros cx Hcx. apply Hclear; lia.
Qed.

Lemma scan_row_cut (g : grid) hitbox lo hi cx cy pos :
  lo ≤ cx < hi →
  scan_row W H obstacle g hitbox lo hi cy pos
  = p ← scan_row W H obstacle g hitbox lo cx cy pos;
    p' ← resolve_cell W H obstacle g hitbox cx cy p;
    scan_row W H obstacle g hitbox (cx + 1) hi cy p'.
Proof.
  intros Hcx. unfold scan_row.
  rewrite (for_range_split _ lo cx hi) by lia.
  destruct (for_range lo cx _ _) as [b|e]; cbn [mbind result_bind]; [|done].
  by rewrite (for_range_first _ cx hi) by lia.
Qed.

(** The two loops are the iterations before a cell of the window, the
    cell's own, and those after it. *)
Lemma resolve_with_cut (g : grid) posX posY hitbox sx ex sy ey cx cy :
  scan_range W H posX posY hitbox = (sx, ex, sy, ey) →
  sx ≤ cx ≤ ex → sy ≤ cy ≤ ey →
  resolve_with W H obstacle g posX posY hitbox
  = p ← scan_before W H obstacle g hitbox sx ex sy cx cy (posX, posY);
    p' ← resolve_cell W H obstacle g hitbox cx cy p;
    scan_after W H obstacle g hitbox sx ex ey cx cy p'.
Proof.
  intros Hscan Hcx Hcy. unfold resolve_with. rewrite Hscan.
  change (for_range sy (ey + 1)
            (λ y pos, scan_row W H obstacle g hitbox sx (ex + 1) y pos) (posX, posY)
          = p ← scan_before W H obstacle g hitbox sx ex sy cx cy (posX, posY);
            p' ← resolve_cell W H obstacle g hitbox cx cy p;
            scan_after W H obstacle g hitbox sx ex ey cx cy p').
  rewrite (for_range_split _ sy cy (ey + 1)) by lia. unfold scan_before, scan_after.
  destruct (for_range sy cy _ _) as [a|e]; cbn [mbind result_bind]; [|done].
  rewrite (for_range_first _ cy (ey + 1)) by lia.
  rewrite (scan_row_cut g hitbox sx (ex + 1) cx cy a) by lia.
  destruct (scan_row W H obstacle g hitbox sx cx cy a) as [b|e];
    cbn [mbind result_bind]; [|done].
  destruct (resolve_cell W H obstacle g hitbox cx cy b) as [c|e];
    cbn [mbind result_bind]; [|done].
  done.
Qed.

End ResolverCut.

(** ** The ray march *)

Section MarchFacts.
Variables (W H : Z).
Hypothesis HW : 0 ≤ W ≤ Int.INT_MAX.
Hypothesis HH : 0 ≤ H ≤ Int.INT_MAX.
Variables (g : list (list Z)) (stepX stepY : Z) (deltaDistX deltaDistY : float).
Hypothesis HstepX : stepX = -1 ∨ stepX = 1.
Hypothesis HstepY : stepY = -1 ∨ stepY = 1.

Local Abbreviation step := (dda_step stepX stepY deltaDistX deltaDistY).
Local Abbreviation loop := (λ fuel, dda_loop W H fuel g stepX stepY deltaDistX deltaDistY).

Local Abbreviation march_room := (march_room W H stepX stepY).

Lemma int_add_step x s : 0 ≤ x < W ∨ 0 ≤ x < H → s = -1 ∨ s = 1 → Int.add x s = x + s.
Proof.
  intros Hx Hs. unfold Int.add. apply IntFacts.wrap_id.
  unfold Int.representable, Int.INT_MIN. unfold Int.INT_MAX in *. lia.
Qed.

(** A step from inside the map either leaves the map or uses up one unit of
    room. *)
Lemma dda_step_room (m : march) :
  0 ≤ mapX m < W → 0 ≤ mapY m < H →
  ¬ (0 ≤ mapX (step m) < W ∧ 0 ≤ mapY (step m) < H)
  ∨ march_room (step m) = march_room m - 1.
Proof.
  intros Hx Hy. unfold dda_step, march_room.
  destruct (PrimFloat.ltb _ _); cbn [mapX mapY].
  - rewrite (int_add_step (mapX m) stepX) by auto.
    destruct HstepX as [-> | ->]; simpl; lia.
  - rewrite (int_add_step (mapY m) stepY) by auto.
    destruct HstepY as [-> | ->]; simpl; lia.
Qed.

Lemma march_room_bounds (m : march) :
  0 ≤ mapX m < W → 0 ≤ mapY m < H → 2 ≤ march_room m ≤ W + H.
Proof.
  intros Hx Hy. unfold march_room.
  destruct HstepX as [-> | ->], HstepY as [-> | ->]; simpl; lia.
Qed.

Lemma getCell_pos_or_inside x y :
  getCell W H g x y > 0 ∨ (getCell W H g x y >? 0) = false ∧ 0 ≤ x < W ∧ 0 ≤ y < H.
Proof.
  destruct (getCell W H g x y >? 0) eqn:Hc; [left; lia|]. right. split; [done|].
  apply (getCell_not_wall W H g). lia.
Qed.

(** From inside the map the loop ends within [march_room - 1] iterations. *)
Lemma dda_loop_inside fuel : ∀ m,
  0 ≤ mapX m < W → 0 ≤ mapY m < H → march_room m ≤ Z.of_nat fuel + 1 →
  ∃ m', loop fuel m = Ok m' ∧ getCell W H g (mapX m') (mapY m') > 0.
Proof.
  induction fuel as [|fuel IH]; intros m Hx Hy Hroom.
  - pose proof (march_room_bounds m Hx Hy). lia.
  - cbn [dda_loop].
    destruct (getCell_pos_or_inside (mapX (step m)) (mapY (step m)))
      as [Hhit|(Hno & Hx' & Hy')].
    + exists (step m). split; [|done].
      by replace (getCell W H g (mapX (step m)) (mapY (step m)) >? 0) with true by lia.
    + rewrite Hno. apply IH; [done | done |].
      destruct (dda_step_room m Hx Hy) as [Hout|Heq]; [by destruct Hout | lia].
Qed.

(** From any start cell the loop ends within [W + H] iterations, on a cell
    that is not empty. *)
Lemma dda_loop_terminates fuel (m : march) :
  W + H ≤ Z.of_nat fuel → (0 < fuel)%nat →
  ∃ m', loop fuel m = Ok m' ∧ getCell W H g (mapX m') (mapY m') > 0.
Proof.
  intros Hfuel Hpos. destruct fuel as [|fuel].
  - lia.
  - cbn [dda_loop].
    destruct (getCell_pos_or_inside (mapX (step m)) (mapY (step m)))
      as [Hhit|(Hno & Hx' & Hy')].
    + exists (step m). split; [|done].
      by replace (getCell W H g (mapX (step m)) (mapY (step m)) >? 0) with true by lia.
    + rewrite Hno. apply dda_loop_inside; [done | done |].
      pose proof (march_room_bounds (step m) Hx' Hy'). lia.
Qed.
End MarchFacts.

Section ColumnFacts.
Variables (W H : Z).
Hypothesis HW : 0 ≤ W ≤ Int.INT_MAX.
Hypothesis HH : 0 ≤ H ≤ Int.INT_MAX.

(** The march of a ray ends for every position and every direction. *)
Lemma march_ray_terminates fuel (g : list (list Z)) posX posY rayDirX rayDirY :
  W + H ≤ Z.of_nat fuel → (0 < fuel)%nat →
  ∃ h, march_ray W H fuel g posX posY rayDirX rayDirY = Ok h
       ∧ getCell W H g (hit_mapX h) (hit_mapY h) > 0.
Proof.
  intros Hfuel Hpos. unfold march_ray.
  match goal with
  | |- context [dda_loop W H fuel g ?sx ?sy ?dx ?dy ?m] =>
      destruct (dda_loop_terminates W H HW HH g sx sy dx dy
                  ltac:(destruct (PrimFloat.ltb rayDirX 0); auto)
                  ltac:(destruct (PrimFloat.ltb rayDirY 0); auto)
                  fuel m Hfuel Hpos) as (m' & -> & Hhit)
  end.
  cbn [mbind result_bind]. eexists. split; [done|]. done.
Qed.

Lemma cast_column_terminates fuel (g : list (list Z))
    posX posY dirX dirY planeX planeY screenWidth x :
  W + H ≤ Z.of_nat fuel → (0 < fuel)%nat →
  ∃ h, cast_column W H fuel g posX posY dirX dirY planeX planeY screenWidth x = Ok h
       ∧ getCell W H g (hit_mapX h) (hit_mapY h) > 0.
Proof. intros Hfuel Hpos. unfold cast_column. by apply march_ray_terminates. Qed.
End ColumnFacts.

(** * The claims on the program's 250 by 250 map *)

Lemma wf_replicate {A : Type} W H (v : A) :
  wf W H (replicate (Z.to_nat H) (replicate (Z.to_nat W) v)).
Proof.
  split; [by rewrite length_replicate|].
  apply Forall_replicate. by rewrite length_replicate.
Qed.

Lemma wf_gameMap0 : wf MAP_WIDTH MAP_HEIGHT gameMap0.
Proof. apply wf_replicate. Qed.

Lemma fuel_125000 : (Z.to_nat (2 * MAP_WIDTH * MAP_HEIGHT) ≤ Z.to_nat 125000)%nat.
Proof. unfold MAP_WIDTH, MAP_HEIGHT. lia. Qed.

(** ** Maze generator *)

(** C1, the failing execution.  The finish generator draws the bottom border
    and the offset 248: the finish is (248, 249) and the passage (248, 248)
    is set to 0.  The map is 250 wide, so the lattice ends at 247 and row 248
    and column 248 hold no lattice cell: the passage's neighbours are the
    walls (247, 248), (248, 247), (249, 248) and the finish itself.  The
    passage is empty and the flood fill from (1, 1) does not reach it, for
    every run of the backtracking loop (here the one that always draws the
    first neighbour). *)
Lemma C1_passage_248_isolated :
  ∃ g, generateMaze MAP_WIDTH MAP_HEIGHT cfg_both (Z.to_nat 125000)
         gen_first genF_bottom_last gameMap0 = Ok g
       ∧ getCell MAP_WIDTH MAP_HEIGHT g 248 248 = Empty
       ∧ ¬ flood MAP_WIDTH MAP_HEIGHT g (248, 248).
Proof.
  destruct (generateMaze_isolated 250 250 ltac:(lia) ltac:(lia) cfg_both (Z.to_nat 125000)
              gen_first genF_bottom_last gameMap0 wf_gameMap0 fuel_125000
              eq_refl eq_refl eq_refl eq_refl eq_refl) as (g & Hg & H0 & Hnf).
  exists g. split; [exact Hg|]. split; [exact H0 | exact Hnf].
Qed.

(** C1, the part of the claim that holds.  For every sequence of draws
    [generateMaze] returns a grid in which the flood fill from (1, 1) reaches
    every empty cell other than the passage cell opened next to the finish;
    the passage cell is reached too when the finish lies on the top or left
    border (border draw 0 or 2), where it touches the lattice. *)
Theorem C1_flood_reaches_empty cfg fuel gen genF (g0 : list (list Z)) :
  wf MAP_WIDTH MAP_HEIGHT g0 →
  (Z.to_nat (2 * MAP_WIDTH * MAP_HEIGHT) ≤ fuel)%nat →
  ∃ g, generateMaze MAP_WIDTH MAP_HEIGHT cfg fuel gen genF g0 = Ok g
       ∧ ∀ x y, getCell MAP_WIDTH MAP_HEIGHT g x y = Empty →
           (finish_enabled cfg = true →
            (x, y) = passage_cell MAP_WIDTH MAP_HEIGHT genF →
            finish_border genF = 0 ∨ finish_border genF = 2) →
           flood MAP_WIDTH MAP_HEIGHT g (x, y).
Proof.
  intros Hwf Hfuel.
  exact (generateMaze_flood 250 250 ltac:(lia) ltac:(lia) cfg fuel gen genF g0 Hwf Hfuel).
Qed.

(** An instance: the zero-initialised map, the build [-DUSE_BOTH], a finish on
    the top border. *)
Lemma C1_flood_reaches_empty_witness :
  wf MAP_WIDTH MAP_HEIGHT gameMap0
  ∧ (Z.to_nat (2 * MAP_WIDTH * MAP_HEIGHT) ≤ Z.to_nat 125000)%nat
  ∧ ∃ g, generateMaze MAP_WIDTH MAP_HEIGHT cfg_both (Z.to_nat 125000)
           gen_first genF_top_first gameMap0 = Ok g
         ∧ ∀ x y, getCell MAP_WIDTH MAP_HEIGHT g x y = Empty →
             (finish_enabled cfg_both = true →
              (x, y) = passage_cell MAP_WIDTH MAP_HEIGHT genF_top_first →
              finish_border genF_top_first = 0 ∨ finish_border genF_top_first = 2) →
             flood MAP_WIDTH MAP_HEIGHT g (x, y).
Proof.
  split; [exact wf_gameMap0|]. split; [exact fuel_125000|].
  exact (C1_flood_reaches_empty cfg_both (Z.to_nat 125000) gen_first genF_top_first
           gameMap0 wf_gameMap0 fuel_125000).
Defined.

(** C2, counterexample.  [generateMaze] of [raycast_maze-v1.cpp] always
    places its finish, on the fixed cell (247, 247) inside the map: its grid
    has no finish cell on the border, every border cell is a wall. *)
Lemma C2_v1_border_has_no_finish :
  ∃ g, V1.generateMaze MAP_WIDTH MAP_HEIGHT (Z.to_nat 125000) gen_first gameMap0 = Ok g
       ∧ getCell MAP_WIDTH MAP_HEIGHT g 247 247 = Finish
       ∧ ¬ ∃ fx fy, 0 ≤ fx < MAP_WIDTH ∧ 0 ≤ fy < MAP_HEIGHT
                    ∧ on_border MAP_WIDTH MAP_HEIGHT fx fy = true
                    ∧ getCell MAP_WIDTH MAP_HEIGHT g fx fy = Finish.
Proof.
  destruct (V1_generateMaze_border 250 250 ltac:(lia) ltac:(lia) (Z.to_nat 125000) gen_first
              gameMap0 ltac:(lia) ltac:(lia) wf_gameMap0 fuel_125000)
    as (g & Hg & Hfin & _ & Hwalls).
  exists g. split; [exact Hg|]. split; [exact Hfin|].
  intros (fx & fy & Hfx & Hfy & Hb & Hf).
  pose proof (Hwalls fx fy Hfx Hfy Hb) as Hw.
  unfold MAP_WIDTH, MAP_HEIGHT, Finish in Hf. rewrite Hw in Hf. discriminate Hf.
Qed.

(** C2, as amended.  In [raycast_maze.cpp] with finish placement enabled, for
    every sequence of draws the grid [generateMaze] returns has exactly one
    border cell of kind finish, and every other cell of row 0, row 249,
    column 0 and column 249 is a wall.  In [raycast_maze-v1.cpp], whose
    finish is the fixed inner cell (247, 247), every border cell is a wall. *)
Theorem C2_border_walls_but_finish cfg fuel gen genF (g0 : list (list Z)) :
  wf MAP_WIDTH MAP_HEIGHT g0 →
  (Z.to_nat (2 * MAP_WIDTH * MAP_HEIGHT) ≤ fuel)%nat →
  (finish_enabled cfg = true →
   ∃ g, generateMaze MAP_WIDTH MAP_HEIGHT cfg fuel gen genF g0 = Ok g
        ∧ ∃ fx fy, 0 ≤ fx < MAP_WIDTH ∧ 0 ≤ fy < MAP_HEIGHT
            ∧ on_border MAP_WIDTH MAP_HEIGHT fx fy = true
            ∧ getCell MAP_WIDTH MAP_HEIGHT g fx fy = Finish
            ∧ ∀ x y, 0 ≤ x < MAP_WIDTH → 0 ≤ y < MAP_HEIGHT →
                     on_border MAP_WIDTH MAP_HEIGHT x y = true →
                     (x, y) ≠ (fx, fy) → getCell MAP_WIDTH MAP_HEIGHT g x y = Wall)
  ∧ (∃ g, V1.generateMaze MAP_WIDTH MAP_HEIGHT fuel gen g0 = Ok g
          ∧ getCell MAP_WIDTH MAP_HEIGHT g 247 247 = Finish
          ∧ ∀ x y, 0 ≤ x < MAP_WIDTH → 0 ≤ y < MAP_HEIGHT →
                   on_border MAP_WIDTH MAP_HEIGHT x y = true →
                   getCell MAP_WIDTH MAP_HEIGHT g x y = Wall).
Proof.
  intros Hwf Hfuel. split.
  - intros Hen.
    exact (generateMaze_border 250 250 ltac:(lia) ltac:(lia) cfg fuel gen genF g0
             Hwf Hfuel Hen).
  - destruct (V1_generateMaze_border 250 250 ltac:(lia) ltac:(lia) fuel gen g0
                ltac:(lia) ltac:(lia) Hwf Hfuel) as (g & Hg & Hfin & _ & Hwalls).
    exists g. split; [exact Hg|]. split; [exact Hfin | exact Hwalls].
Qed.

(** C2, witness: the zero-initialised map, the build [-DUSE_BOTH], the
    generator that always draws the first neighbour. *)
Lemma C2_border_walls_but_finish_witness :
  wf MAP_WIDTH MAP_HEIGHT gameMap0
  ∧ (Z.to_nat (2 * MAP_WIDTH * MAP_HEIGHT) ≤ Z.to_nat 125000)%nat
  ∧ (finish_enabled cfg_both = true →
     ∃ g, generateMaze MAP_WIDTH MAP_HEIGHT cfg_both (Z.to_nat 125000)
            gen_first genF_bottom_last gameMap0 = Ok g
          ∧ ∃ fx fy, 0 ≤ fx < MAP_WIDTH ∧ 0 ≤ fy < MAP_HEIGHT
              ∧ on_border MAP_WIDTH MAP_HEIGHT fx fy = true
              ∧ getCell MAP_WIDTH MAP_HEIGHT g fx fy = Finish
              ∧ ∀ x y, 0 ≤ x < MAP_WIDTH → 0 ≤ y < MAP_HEIGHT →
                       on_border MAP_WIDTH MAP_HEIGHT x y = true →
                       (x, y) ≠ (fx, fy) → getCell MAP_WIDTH MAP_HEIGHT g x y = Wall)
  ∧ (∃ g, V1.generateMaze MAP_WIDTH MAP_HEIGHT (Z.to_nat 125000) gen_first gameMap0 = Ok g
          ∧ getCell MAP_WIDTH MAP_HEIGHT g 247 247 = Finish
          ∧ ∀ x y, 0 ≤ x < MAP_WIDTH → 0 ≤ y < MAP_HEIGHT →
                   on_border MAP_WIDTH MAP_HEIGHT x y = true →
                   getCell MAP_WIDTH MAP_HEIGHT g x y = Wall).
Proof.
  split; [exact wf_gameMap0|]. split; [exact fuel_125000|].
  exact (C2_border_walls_but_finish cfg_both (Z.to_nat 125000) gen_first genF_bottom_last
           gameMap0 wf_gameMap0 fuel_125000).
Defined.

(** C4.  Whenever a finish is placed, for every border draw and every offset
    draw, a cell of kind finish exists, every such cell lies on the border,
    and the cell immediately inside it is empty, hence passable. *)
Theorem C4_finish_passage_open cfg fuel gen genF (g0 : list (list Z)) :
  wf MAP_WIDTH MAP_HEIGHT g0 →
  (Z.to_nat (2 * MAP_WIDTH * MAP_HEIGHT) ≤ fuel)%nat →
  finish_enabled cfg = true →
  ∃ g, generateMaze MAP_WIDTH MAP_HEIGHT cfg fuel gen genF g0 = Ok g
       ∧ (∃ fx fy, getCell MAP_WIDTH MAP_HEIGHT g fx fy = Finish)
       ∧ ∀ x y, getCell MAP_WIDTH MAP_HEIGHT g x y = Finish →
           on_border MAP_WIDTH MAP_HEIGHT x y = true
           ∧ getCell MAP_WIDTH MAP_HEIGHT g
               (inside_of MAP_WIDTH MAP_HEIGHT x y).1
               (inside_of MAP_WIDTH MAP_HEIGHT x y).2 = Empty
           ∧ passable (getCell MAP_WIDTH MAP_HEIGHT g
                         (inside_of MAP_WIDTH MAP_HEIGHT x y).1
                         (inside_of MAP_WIDTH MAP_HEIGHT x y).2) = true.
Proof.
  intros Hwf Hfuel Hen.
  destruct (generateMaze_finish_open 250 250 ltac:(lia) ltac:(lia) cfg fuel gen genF g0
              Hwf Hfuel Hen) as (g & Hg & Hex & Hall).
  exists g. split; [exact Hg|]. split; [exact Hex|].
  intros x y Hxy. destruct (Hall x y Hxy) as [Hb Hin].
  split; [exact Hb|]. split; [exact Hin|].
  unfold MAP_WIDTH, MAP_HEIGHT. by rewrite Hin.
Qed.

(** C4, witness: the zero-initialised map, the build [-DUSE_BOTH], a finish
    in the last column of the bottom border. *)
Lemma C4_finish_passage_open_witness :
  wf MAP_WIDTH MAP_HEIGHT gameMap0
  ∧ (Z.to_nat (2 * MAP_WIDTH * MAP_HEIGHT) ≤ Z.to_nat 125000)%nat
  ∧ finish_enabled cfg_both = true
  ∧ ∃ g, generateMaze MAP_WIDTH MAP_HEIGHT cfg_both (Z.to_nat 125000)
           gen_first genF_bottom_last gameMap0 = Ok g
         ∧ (∃ fx fy, getCell MAP_WIDTH MAP_HEIGHT g fx fy = Finish)
         ∧ ∀ x y, getCell MAP_WIDTH MAP_HEIGHT g x y = Finish →
             on_border MAP_WIDTH MAP_HEIGHT x y = true
             ∧ getCell MAP_WIDTH MAP_HEIGHT g
                 (inside_of MAP_WIDTH MAP_HEIGHT x y).1
                 (inside_of MAP_WIDTH MAP_HEIGHT x y).2 = Empty
             ∧ passable (getCell MAP_WIDTH MAP_HEIGHT g
                           (inside_of MAP_WIDTH MAP_HEIGHT x y).1
                           (inside_of MAP_WIDTH MAP_HEIGHT x y).2) = true.
Proof.
  split; [exact wf_gameMap0|]. split; [exact fuel_125000|]. split; [reflexivity|].
  exact (C4_finish_passage_open cfg_both (Z.to_nat 125000) gen_first genF_bottom_last
           gameMap0 wf_gameMap0 fuel_125000 eq_refl).
Defined.

(** C9.  [generateMaze] terminates for every sequence of draws: given fuel
    for [2 * 250 * 250] iterations of the backtracking loop (each iteration
    either carves a lattice cell that was still a wall, or pops the stack) it
    returns a grid, never running out of fuel and never leaving the array. *)
Theorem C9_generateMaze_terminates cfg fuel gen genF (g0 : list (list Z)) :
  wf MAP_WIDTH MAP_HEIGHT g0 →
  (Z.to_nat (2 * MAP_WIDTH * MAP_HEIGHT) ≤ fuel)%nat →
  ∃ g, generateMaze MAP_WIDTH MAP_HEIGHT cfg fuel gen genF g0 = Ok g.
Proof.
  intros Hwf Hfuel.
  destruct (generateMaze_flood 250 250 ltac:(lia) ltac:(lia) cfg fuel gen genF g0 Hwf Hfuel)
    as (g & Hg & _).
  by exists g.
Qed.

(** C9, witness: the first call of the program, on the zero-initialised map. *)
Lemma C9_generateMaze_terminates_witness :
  wf MAP_WIDTH MAP_HEIGHT gameMap0
  ∧ (Z.to_nat (2 * MAP_WIDTH * MAP_HEIGHT) ≤ Z.to_nat 125000)%nat
  ∧ ∃ g, generateMaze MAP_WIDTH MAP_HEIGHT cfg_both (Z.to_nat 125000)
           gen_first genF_bottom_last gameMap0 = Ok g.
Proof.
  split; [exact wf_gameMap0|]. split; [exact fuel_125000|].
  exact (C9_generateMaze_terminates cfg_both (Z.to_nat 125000) gen_first genF_bottom_last
           gameMap0 wf_gameMap0 fuel_125000).
Defined.

(** ** Exploration tracker *)

Lemma int_max_250 : MAP_WIDTH * MAP_HEIGHT ≤ Int.INT_MAX.
Proof. unfold MAP_WIDTH, MAP_HEIGHT, Int.INT_MAX. lia. Qed.

Lemma wf_tracker0 : wf MAP_WIDTH MAP_HEIGHT (visitedCells tracker0).
Proof. apply wf_replicate. Qed.

Lemma tracker0_ok : tracker_ok MAP_WIDTH MAP_HEIGHT tracker0.
Proof.
  split; [exact wf_tracker0|]. unfold tracker0. cbn [visitedCells distinctVisited].
  rewrite count_cells_zero; [done|].
  intros i row j u [-> _]%lookup_replicate [-> _]%lookup_replicate. done.
Qed.

(** C5 on [raycast_maze.cpp].  From a tracker whose count is the number of
    marked cells: a call on an in-bounds cell whose entry is [false] sets the
    entry, raises the count by exactly 1 and touches no other entry; a call
    on an out-of-bounds coordinate or on a marked cell returns the tracker
    unchanged, without error. *)
Theorem C5_recordVisit cellX cellY t :
  tracker_ok MAP_WIDTH MAP_HEIGHT t →
  (rd MAP_WIDTH MAP_HEIGHT (visitedCells t) cellX cellY = Some false →
   ∃ t', recordVisit MAP_WIDTH MAP_HEIGHT cellX cellY t = Ok t'
         ∧ rd MAP_WIDTH MAP_HEIGHT (visitedCells t') cellX cellY = Some true
         ∧ distinctVisited t' = distinctVisited t + 1
         ∧ ∀ x y, (x, y) ≠ (cellX, cellY) →
                  rd MAP_WIDTH MAP_HEIGHT (visitedCells t') x y
                  = rd MAP_WIDTH MAP_HEIGHT (visitedCells t) x y)
  ∧ (¬ (0 ≤ cellX < MAP_WIDTH ∧ 0 ≤ cellY < MAP_HEIGHT)
     ∨ rd MAP_WIDTH MAP_HEIGHT (visitedCells t) cellX cellY = Some true →
     recordVisit MAP_WIDTH MAP_HEIGHT cellX cellY t = Ok t).
Proof.
  intros Hok. split.
  - intros Hrd.
    destruct (recordVisit_fresh MAP_WIDTH MAP_HEIGHT ltac:(done) ltac:(done) int_max_250
                cellX cellY t Hok Hrd) as (t' & Ht' & _ & Hm & Hc & Hoth).
    by exists t'.
  - apply recordVisit_noop.
Qed.

(** C5, witness: the first visit of the start cell (1, 1). *)
Lemma C5_recordVisit_witness :
  tracker_ok MAP_WIDTH MAP_HEIGHT tracker0
  ∧ (rd MAP_WIDTH MAP_HEIGHT (visitedCells tracker0) 1 1 = Some false →
     ∃ t', recordVisit MAP_WIDTH MAP_HEIGHT 1 1 tracker0 = Ok t'
           ∧ rd MAP_WIDTH MAP_HEIGHT (visitedCells t') 1 1 = Some true
           ∧ distinctVisited t' = distinctVisited tracker0 + 1
           ∧ ∀ x y, (x, y) ≠ (1, 1) →
                    rd MAP_WIDTH MAP_HEIGHT (visitedCells t') x y
                    = rd MAP_WIDTH MAP_HEIGHT (visitedCells tracker0) x y)
  ∧ (¬ (0 ≤ 1 < MAP_WIDTH ∧ 0 ≤ 1 < MAP_HEIGHT)
     ∨ rd MAP_WIDTH MAP_HEIGHT (visitedCells tracker0) 1 1 = Some true →
     recordVisit MAP_WIDTH MAP_HEIGHT 1 1 tracker0 = Ok tracker0).
Proof.
  split; [exact tracker0_ok|]. exact (C5_recordVisit 1 1 tracker0 tracker0_ok).
Defined.

(** C5 on [raycast_maze-v1.cpp].  Its [updateVisited] indexes [visitedCells]
    without testing the bounds: for the position (-13.5, 1.5), cell (-13, 1),
    the access lies outside the array. *)
Lemma C5_v1_updateVisited_out_of_bounds :
  V1.updateVisited MAP_WIDTH MAP_HEIGHT (-13.5)%float 1.5%float tracker0
  = Err OutOfBounds
  ∧ updateVisited MAP_WIDTH MAP_HEIGHT (-13.5)%float 1.5%float tracker0 = Ok tracker0.
Proof. split; reflexivity. Qed.

(** C8, counterexample.  [updateVisited] never looks at [gameMap]: recording
    every cell of the map, walls included, brings the count to 62500, while
    a generated maze has fewer passable cells than that (its border holds
    walls). *)
Lemma C8_count_exceeds_passable :
  ∃ g t0 t,
    generateMaze MAP_WIDTH MAP_HEIGHT cfg_both (Z.to_nat 125000)
      gen_first genF_bottom_last gameMap0 = Ok g
    ∧ initVisited MAP_WIDTH MAP_HEIGHT tracker0 = Ok t0
    ∧ recordVisits MAP_WIDTH MAP_HEIGHT (all_cells MAP_WIDTH MAP_HEIGHT) t0 = Ok t
    ∧ Z.of_nat (count_cells passable g) < distinctVisited t.
Proof.
  destruct (generateMaze_border 250 250 ltac:(lia) ltac:(lia) cfg_both (Z.to_nat 125000)
              gen_first genF_bottom_last gameMap0 wf_gameMap0 fuel_125000 eq_refl)
    as (g & Hg & fx & fy & Hfx & Hfy & _ & _ & Hwalls).
  destruct (generateMaze_spec 250 250 ltac:(lia) ltac:(lia) cfg_both (Z.to_nat 125000)
              gen_first genF_bottom_last gameMap0 _ _ _ _ wf_gameMap0 fuel_125000
              eq_refl eq_refl) as (g3 & g' & _ & Hg' & Hwf & _).
  assert (g' = g) as -> by congruence.
  destruct (initVisited_spec 250 250 ltac:(lia) ltac:(lia) tracker0 wf_tracker0)
    as (t0 & Ht0 & Hok0 & _).
  destruct (recordVisits_all 250 250 ltac:(lia) ltac:(lia) int_max_250 t0 Hok0)
    as (t & Ht & Hcount).
  exists g, t0, t. split; [exact Hg|]. split; [exact Ht0|]. split; [exact Ht|].
  rewrite Hcount.
  destruct (decide ((0, 0) = (fx, fy))) as [[= <- <-]|Hne].
  - apply (passable_lt_cells 250 250 ltac:(lia) ltac:(lia) g 249 0 Hwf); [lia | lia |].
    apply Hwalls; [lia | lia | done | intros [=]].
  - apply (passable_lt_cells 250 250 ltac:(lia) ltac:(lia) g 0 0 Hwf); [lia | lia |].
    apply Hwalls; [lia | lia | done | done].
Qed.

(** C8, as amended.  After [initVisited] the count is 0; across any sequence
    of calls it never decreases (between any two points of the sequence) and
    never exceeds the number of cells of the map, 250 * 250. *)
Theorem C8_count_monotone_bounded t cells1 cells2 :
  wf MAP_WIDTH MAP_HEIGHT (visitedCells t) →
  ∃ t0 t1 t2,
    initVisited MAP_WIDTH MAP_HEIGHT t = Ok t0
    ∧ distinctVisited t0 = 0
    ∧ recordVisits MAP_WIDTH MAP_HEIGHT cells1 t0 = Ok t1
    ∧ recordVisits MAP_WIDTH MAP_HEIGHT cells2 t1 = Ok t2
    ∧ 0 ≤ distinctVisited t1 ≤ distinctVisited t2
    ∧ distinctVisited t2 ≤ MAP_WIDTH * MAP_HEIGHT.
Proof.
  intros Hwf.
  destruct (initVisited_spec 250 250 ltac:(lia) ltac:(lia) t Hwf) as (t0 & Ht0 & Hok0 & Hc0 & _).
  destruct (recordVisits_ok 250 250 ltac:(lia) ltac:(lia) int_max_250 cells1 t0 Hok0)
    as (t1 & Ht1 & Hok1 & Hle1 & _).
  destruct (recordVisits_ok 250 250 ltac:(lia) ltac:(lia) int_max_250 cells2 t1 Hok1)
    as (t2 & Ht2 & Hok2 & Hle2 & _).
  pose proof (tracker_count_bound 250 250 ltac:(lia) ltac:(lia) t2 Hok2) as Hb.
  exists t0, t1, t2.
  split; [exact Ht0|]. split; [exact Hc0|]. split; [exact Ht1|]. split; [exact Ht2|].
  unfold MAP_WIDTH, MAP_HEIGHT. clear - Hc0 Hle1 Hle2 Hb. lia.
Qed.

(** C8, witness: two batches of calls, with a repeated and an out-of-bounds
    coordinate among them. *)
Lemma C8_count_monotone_bounded_witness :
  wf MAP_WIDTH MAP_HEIGHT (visitedCells tracker0)
  ∧ ∃ t0 t1 t2,
      initVisited MAP_WIDTH MAP_HEIGHT tracker0 = Ok t0
      ∧ distinctVisited t0 = 0
      ∧ recordVisits MAP_WIDTH MAP_HEIGHT [(1, 1); (2, 1); (1, 1)] t0 = Ok t1
      ∧ recordVisits MAP_WIDTH MAP_HEIGHT [(-1, 7); (3, 1)] t1 = Ok t2
      ∧ 0 ≤ distinctVisited t1 ≤ distinctVisited t2
      ∧ distinctVisited t2 ≤ MAP_WIDTH * MAP_HEIGHT.
Proof.
  split; [exact wf_tracker0|].
  exact (C8_count_monotone_bounded tracker0 [(1, 1); (2, 1); (1, 1)] [(-1, 7); (3, 1)]
           wf_tracker0).
Defined.

(** ** Collision resolver *)

(** C3 on [raycast_maze.cpp].  For every map, position and radius: a cell
    whose kind is not wall (empty or finish) never moves the position, and a
    circle that penetrates no wall cell of the map is returned with its
    position exactly unchanged. *)
Theorem C3_only_walls_obstruct W H (g : list (list Z)) posX posY hitbox :
  (∀ cx cy pos, getCell W H g cx cy ≠ Wall →
     resolve_cell W H (λ c, c =? 1) g hitbox cx cy pos = Ok pos)
  ∧ ((∀ cx cy, 0 ≤ cx < W → 0 ≤ cy < H → getCell W H g cx cy = Wall →
        overlaps posX posY hitbox cx cy = false) →
     resolveCircleCollision W H g posX posY hitbox = Ok (posX, posY)).
Proof.
  split.
  - intros cx cy [x y] Hne. apply resolve_cell_skip. left.
    by apply Z.eqb_neq.
  - intros Hclear. apply resolve_with_unchanged.
    intros cx cy Hx Hy Hob. apply Hclear; [done | done |]. by apply Z.eqb_eq.
Qed.

(** In the 3 by 3 room with a finish cell at (2, 1), the circle of radius 0.2
    at (1.875, 1.5) reaches into the finish cell and into no wall:
    [raycast_maze.cpp] leaves the position unchanged. *)
Lemma C3_room3_finish_passable :
  resolveCircleCollision 3 3 room3_finish 1.875 1.5 hitbox_radius = Ok (1.875, 1.5)%float.
Proof.
  apply (C3_only_walls_obstruct 3 3 room3_finish 1.875 1.5 hitbox_radius).
  intros cx cy Hx Hy Hwall.
  assert (cx = 0 ∨ cx = 1 ∨ cx = 2) as [-> | [-> | ->]] by lia;
    assert (cy = 0 ∨ cy = 1 ∨ cy = 2) as [-> | [-> | ->]] by lia;
    first [discriminate Hwall | vm_compute; reflexivity].
Defined.

(** C3 on [raycast_maze-v1.cpp], whose test is [getCell(cx, cy) != 0]: the
    finish cell pushes the circle back.  On every map v1 generates the finish
    is the cell (247, 247), and the circle of radius 0.2 at (246.875, 247.5),
    which reaches 0.075 into it, is moved back in -X by that depth; the test
    [== 1] of [raycast_maze.cpp] leaves the position unchanged. *)
Theorem C3_v1_finish_pushes fuel gen (g0 : list (list Z)) :
  wf MAP_WIDTH MAP_HEIGHT g0 →
  (Z.to_nat (2 * MAP_WIDTH * MAP_HEIGHT) ≤ fuel)%nat →
  ∃ g, V1.generateMaze MAP_WIDTH MAP_HEIGHT fuel gen g0 = Ok g
       ∧ getCell MAP_WIDTH MAP_HEIGHT g 247 247 = Finish
       ∧ resolve_cell MAP_WIDTH MAP_HEIGHT (λ c, negb (c =? 0)) g hitbox_radius 247 247
           (246.875, 247.5)%float
         = Ok (246.875 - (hitbox_radius - 0.125), 247.5)%float
       ∧ PrimFloat.ltb (246.875 - (hitbox_radius - 0.125)) 246.875 = true
       ∧ resolve_cell MAP_WIDTH MAP_HEIGHT (λ c, c =? 1) g hitbox_radius 247 247
           (246.875, 247.5)%float
         = Ok (246.875, 247.5)%float.
Proof.
  intros Hwf Hfuel.
  destruct (V1_generateMaze_spec 250 250 ltac:(lia) ltac:(lia) fuel gen g0 Hwf Hfuel)
    as (g3 & g & _ & Hg & _ & Hfin & _).
  change (getCell 250 250 g 247 247 = 2) in Hfin.
  exists g. split; [exact Hg|]. split; [exact Hfin|].
  unfold resolve_cell, MAP_WIDTH, MAP_HEIGHT. rewrite Hfin.
  split; [vm_compute; reflexivity|]. split; vm_compute; reflexivity.
Qed.

(** C3, witness: the first maze of v1, drawn with the first neighbour always. *)
Lemma C3_v1_finish_pushes_witness :
  wf MAP_WIDTH MAP_HEIGHT gameMap0
  ∧ (Z.to_nat (2 * MAP_WIDTH * MAP_HEIGHT) ≤ Z.to_nat 125000)%nat
  ∧ ∃ g, V1.generateMaze MAP_WIDTH MAP_HEIGHT (Z.to_nat 125000) gen_first gameMap0 = Ok g
         ∧ getCell MAP_WIDTH MAP_HEIGHT g 247 247 = Finish
         ∧ resolve_cell MAP_WIDTH MAP_HEIGHT (λ c, negb (c =? 0)) g hitbox_radius 247 247
             (246.875, 247.5)%float
           = Ok (246.875 - (hitbox_radius - 0.125), 247.5)%float
         ∧ PrimFloat.ltb (246.875 - (hitbox_radius - 0.125)) 246.875 = true
         ∧ resolve_cell MAP_WIDTH MAP_HEIGHT (λ c, c =? 1) g hitbox_radius 247 247
             (246.875, 247.5)%float
           = Ok (246.875, 247.5)%float.
Proof.
  split; [exact wf_gameMap0|]. split; [exact fuel_125000|].
  exact (C3_v1_finish_pushes (Z.to_nat 125000) gen_first gameMap0 wf_gameMap0 fuel_125000).
Defined.

(** The whole function of v1 on the 3 by 3 room with a finish: the position
    (1.875, 1.5) that [raycast_maze.cpp] keeps is moved back in -X. *)
Lemma C3_v1_room3_finish_pushes :
  V1.resolveCircleCollision 3 3 room3_finish 1.875 1.5 hitbox_radius
  = Ok (1.875 - (hitbox_radius - 0.125), 1.5)%float
  ∧ PrimFloat.ltb (1.875 - (hitbox_radius - 0.125)) 1.875 = true.
Proof. split; vm_compute; reflexivity. Qed.

(** C7.  In [resolveCircleCollision], which is [resolve_with] with the
    obstacle test [== 1] ([!= 0] in v1), for every map, position and radius
    and every cell [(cx, cy)] of the window the two loops scan:

    - the loops reach the cell with some position [(px, py)], and if the cell
      is an obstacle that the circle at [(px, py)] penetrates with its closest
      point at distance exactly 0, the function goes on from
      [(px, py - (hitbox - dist))]: the push is along -Y by the penetration
      depth, X unchanged;
    - if that holds at the position the function is called with, no obstacle
      scanned before the cell is penetrated, and none scanned after it is
      penetrated at the pushed position, the function returns
      [(posX, posY - (hitbox - dist))];
    - the function always returns a position: the two divisions by [dist],
      which the model makes fail on a zero divisor, are reached only when
      [dist == 0] is false. *)
Theorem C7_zero_distance_push W H obstacle (g : list (list Z)) posX posY hitbox
    sx ex sy ey cx cy :
  scan_range W H posX posY hitbox = (sx, ex, sy, ey) →
  sx ≤ cx ≤ ex → sy ≤ cy ≤ ey →
  (∃ px py,
     scan_before W H obstacle g hitbox sx ex sy cx cy (posX, posY) = Ok (px, py)
     ∧ (obstacle (getCell W H g cx cy) = true →
        overlaps px py hitbox cx cy = true →
        PrimFloat.eqb (PrimFloat.sqrt (dist_sq px py cx cy)) 0 = true →
        resolve_cell W H obstacle g hitbox cx cy (px, py)
        = Ok (px, (py - (hitbox - PrimFloat.sqrt (dist_sq px py cx cy)))%float)
        ∧ resolve_with W H obstacle g posX posY hitbox
          = scan_after W H obstacle g hitbox sx ex ey cx cy
              (px, (py - (hitbox - PrimFloat.sqrt (dist_sq px py cx cy)))%float)))
  ∧ (obstacle (getCell W H g cx cy) = true →
     overlaps posX posY hitbox cx cy = true →
     PrimFloat.eqb (PrimFloat.sqrt (dist_sq posX posY cx cy)) 0 = true →
     (∀ x y, sx ≤ x ≤ ex → sy ≤ y ≤ ey → y < cy ∨ y = cy ∧ x < cx →
             obstacle (getCell W H g x y) = true →
             overlaps posX posY hitbox x y = false) →
     (∀ x y, sx ≤ x ≤ ex → sy ≤ y ≤ ey → cy < y ∨ y = cy ∧ cx < x →
             obstacle (getCell W H g x y) = true →
             overlaps posX (posY - (hitbox - PrimFloat.sqrt (dist_sq posX posY cx cy)))
               hitbox x y = false) →
     resolve_with W H obstacle g posX posY hitbox
     = Ok (posX, (posY - (hitbox - PrimFloat.sqrt (dist_sq posX posY cx cy)))%float))
  ∧ (∃ pos', resolve_with W H obstacle g posX posY hitbox = Ok pos')
  ∧ (∃ pos', resolveCircleCollision W H g posX posY hitbox = Ok pos')
  ∧ (∃ pos', V1.resolveCircleCollision W H g posX posY hitbox = Ok pos').
Proof.
  intros Hscan Hcx Hcy.
  pose proof (resolve_with_cut W H obstacle g posX posY hitbox sx ex sy ey cx cy
                Hscan Hcx Hcy) as Hcut.
  split_and!.
  - destruct (scan_before_total W H obstacle g hitbox sx ex sy cx cy (posX, posY))
      as [[px py] Hp].
    exists px, py. split; [done|]. intros Hob Hov Hz.
    pose proof (resolve_cell_zero_distance W H obstacle g hitbox cx cy px py Hob Hov Hz)
      as Hpush.
    split; [done|]. rewrite Hcut, Hp. cbn [mbind result_bind]. by rewrite Hpush.
  - intros Hob Hov Hz Hbefore Hafter. rewrite Hcut.
    assert (scan_before W H obstacle g hitbox sx ex sy cx cy (posX, posY)
            = Ok (posX, posY)) as ->.
    { unfold scan_before. rewrite scan_rows_unchanged.
      - cbn [mbind result_bind]. apply scan_row_unchanged.
        intros x Hx. apply Hbefore; lia.
      - intros x y Hx Hy. apply Hbefore; lia. }
    cbn [mbind result_bind].
    rewrite (resolve_cell_zero_distance W H obstacle g hitbox cx cy posX posY Hob Hov Hz).
    cbn [mbind result_bind]. unfold scan_after. rewrite scan_row_unchanged.
    + cbn [mbind result_bind]. apply scan_rows_unchanged.
      intros x y Hx Hy. apply Hafter; lia.
    + intros x Hx. apply Hafter; lia.
  - apply resolve_with_total.
  - apply resolve_with_total.
  - apply resolve_with_total.
Qed.

(** C7 on the 3 by 3 room: the centre (2.5, 1.5) lies inside the wall cell
    (2, 1), the first cell of the window (columns 2 to 2, rows 1 to 2); the
    distance is 0, the push is 0.2 along -Y, the wall cell (2, 2) scanned
    next is 0.7 away from the pushed centre, and [resolveCircleCollision]
    returns (2.5, 1.3), in [raycast_maze.cpp] and in v1. *)
Lemma C7_room3_centre_in_wall :
  scan_range 3 3 2.5 1.5 hitbox_radius = (2, 2, 1, 2)
  ∧ getCell 3 3 room3 2 1 = Wall
  ∧ overlaps 2.5 1.5 hitbox_radius 2 1 = true
  ∧ PrimFloat.eqb (PrimFloat.sqrt (dist_sq 2.5 1.5 2 1)) 0 = true
  ∧ resolveCircleCollision 3 3 room3 2.5 1.5 hitbox_radius
    = Ok (2.5, 0x1.4cccccccccccdp+0)%float
  ∧ V1.resolveCircleCollision 3 3 room3 2.5 1.5 hitbox_radius
    = Ok (2.5, 0x1.4cccccccccccdp+0)%float.
Proof.
  split; [reflexivity|]. split; [reflexivity|]. split; [reflexivity|].
  split; [reflexivity|]. split.
  - refine (proj1 (proj2 (C7_zero_distance_push 3 3 (λ c, c =? 1) room3 2.5 1.5
                            hitbox_radius 2 2 1 2 2 1 eq_refl _ _))
              eq_refl eq_refl eq_refl _ _).
    + lia.
    + lia.
    + intros x y Hx Hy Hlt _. lia.
    + intros x y Hx Hy Hlt _.
      assert (x = 2) as -> by lia. assert (y = 2) as -> by lia. reflexivity.
  - refine (proj1 (proj2 (C7_zero_distance_push 3 3 (λ c, negb (c =? 0)) room3 2.5 1.5
                            hitbox_radius 2 2 1 2 2 1 eq_refl _ _))
              eq_refl eq_refl eq_refl _ _).
    + lia.
    + lia.
    + intros x y Hx Hy Hlt _. lia.
    + intros x y Hx Hy Hlt _.
      assert (x = 2) as -> by lia. assert (y = 2) as -> by lia. reflexivity.
Defined.

(** ** Ray march *)




(** ** The ray march on the 3 by 3 room *)

(** C6, as amended.  In the 3 by 3 room ([MAP_WIDTH = MAP_HEIGHT = 3]), from
    (1.5, 1.5) facing (1, 0) with
    the camera plane (0, 0.66) of windowed mode and [screenWidth = 1], the one
    column (x = 0, so cameraX = -1 and the ray direction is (1, -0.66)) hits
    the map cell (2, 1) on an X step ([side = 0]) at perpendicular distance
    exactly 0.5, whatever fuel (at least one iteration) the march is given. *)
Theorem C6_room3_windowed_plane (fuel : nat) :
  cast_column 3 3 (S fuel) room3 1.5 1.5 1 0 0 plane_windowed 1 0
  = Ok {| hit_mapX := 2; hit_mapY := 1; hit_side := 0; hit_perpWallDist := 0.5 |}.
Proof. reflexivity. Qed.

(** C6, counterexample.  The claim names no camera plane.  With the plane
    (0, 1) that [raycast_maze.cpp] uses by default (fullscreen) the ray
    direction of the one column is (1, -1): [sideDistX] and [sideDistY] are
    both 0.5, the test [sideDistX < sideDistY] fails, the march steps in Y and
    the hit is the cell (1, 0) with [side = 1], not (2, 1) with [side = 0]. *)
Lemma C6_room3_fullscreen_plane :
  cast_column 3 3 1 room3 1.5 1.5 1 0 0 1 1 0
  = Ok {| hit_mapX := 1; hit_mapY := 0; hit_side := 1; hit_perpWallDist := 0.5 |}
  ∧ ¬ (∃ h, cast_column 3 3 1 room3 1.5 1.5 1 0 0 1 1 0 = Ok h
            ∧ hit_mapX h = 2 ∧ hit_mapY h = 1 ∧ hit_side h = 0).
Proof.
  split; [reflexivity|].
  intros (h & Hh & Hx & _). vm_compute in Hh. injection Hh as <-. discriminate Hx.
Qed.

(** * Further properties of the code *)

(** ** Arrays are determined by their cells *)

Lemma wf_ext {A : Type} W H (a b : list (list A)) :
  wf W H a → wf W H b →
  (∀ x y, 0 ≤ x < W → 0 ≤ y < H → rd W H a x y = rd W H b x y) →
  a = b.
Proof.
  intros Hwa Hwb Hrd.
  pose proof Hwa as [Hla Hra]. pose proof Hwb as [Hlb Hrb].
  apply (list_eq_same_length _ _ (Z.to_nat H)); [done..|].
  intros i ra rb Hi Ha Hb.
  assert (length ra = Z.to_nat W) as Hlra
    by exact (proj1 (Forall_lookup _ _) Hra i ra Ha).
  assert (length rb = Z.to_nat W) as Hlrb
    by exact (proj1 (Forall_lookup _ _) Hrb i rb Hb).
  apply (list_eq_same_length _ _ (Z.to_nat W)); [done..|].
  intros j u v Hj Hu Hv.
  specialize (Hrd (Z.of_nat j) (Z.of_nat i) ltac:(lia) ltac:(lia)).
  rewrite (rd_lookup W H a i j ra u Hwa Ha Hu) in Hrd.
  rewrite (rd_lookup W H b i j rb v Hwb Hb Hv) in Hrd.
  congruence.
Qed.

(** ** The maze generator: what a caller can rely on *)

Section MazeMore.
Variables (W H : Z).
Hypothesis HW : 3 ≤ W.
Hypothesis HH : 3 ≤ H.

Local Abbreviation grid := (list (list Z)).

Lemma fill_walls_const (g0 g0' : grid) :
  wf W H g0 → wf W H g0' → fill_walls W H g0 = fill_walls W H g0'.
Proof.
  intros Hw Hw'.
  destruct (fill_walls_spec W H g0) as (g1 & -> & Hw1 & Hc1); [lia..|done|].
  destruct (fill_walls_spec W H g0') as (g1' & -> & Hw1' & Hc1'); [lia..|done|].
  f_equal. apply (wf_ext W H); [done..|].
  intros x y Hx Hy. rewrite !(cell_rd W H) by done. by rewrite Hc1, Hc1'.
Qed.

(** The stages of [generateMaze]: the grid [g3] the backtracking loop leaves,
    which the border loops do not change, and the grid returned. *)
Lemma generateMaze_stages cfg fuel gen genF (g0 : grid) :
  wf W H g0 → (Z.to_nat (2 * W * H) ≤ fuel)%nat →
  ∃ g3 g,
    carve W H fuel gen g0 = Ok g3 ∧ carve_inv W H g3 []
    ∧ generateMaze W H cfg fuel gen genF g0 = Ok g ∧ wf W H g
    ∧ (finish_enabled cfg = false → g = g3)
    ∧ (finish_enabled cfg = true →
       cell W H g (finish_cell W H genF).1 (finish_cell W H genF).2 = 2
       ∧ cell W H g (passage_cell W H genF).1 (passage_cell W H genF).2 = 0
       ∧ ∀ x y, (x, y) ≠ finish_cell W H genF → (x, y) ≠ passage_cell W H genF →
                cell W H g x y = cell W H g3 x y).
Proof.
  intros Hwf Hfuel.
  destruct (carve_spec W H HW HH fuel gen g0 Hwf Hfuel) as (g3 & Hc & Hinv).
  unfold generateMaze. rewrite Hc. cbn [mbind result_bind].
  rewrite (force_borders_id W H HW HH g3 Hinv).
  destruct (finish_enabled cfg).
  - destruct (finish_cell W H genF) as [fx fy] eqn:Hf.
    destruct (passage_cell W H genF) as [px py] eqn:Hp.
    destruct (placeRandomFinish_spec W H HW HH genF g3 fx fy px py
                (inv_wf _ _ _ _ Hinv) Hf Hp) as (g & Hg & Hwg & H2 & H0 & Hoth).
    exists g3, g. split; [done|]. split; [done|]. split; [done|]. split; [done|].
    split; [done|]. intros _. cbn. auto.
  - exists g3, g3. split; [done|]. split; [done|]. split; [done|].
    split; [exact (inv_wf _ _ _ _ Hinv)|]. split; [done|]. intros [=].
Qed.
(** X1: [generateMaze] overwrites the whole map before it carves: the maze
    it returns is decided by the random draws alone, whatever [gameMap] held
    before the call (the zeroed array at start-up or the previous level). *)
Theorem generateMaze_forgets_previous_map cfg fuel gen genF (g0 g0' : grid) :
  wf W H g0 → wf W H g0' →
  generateMaze W H cfg fuel gen genF g0 = generateMaze W H cfg fuel gen genF g0'.
Proof.
  intros Hw Hw'. unfold generateMaze, carve.
  by rewrite (fill_walls_const g0 g0' Hw Hw').
Qed.

(** X2: the two loops that "force borders to be walls" never change a cell:
    the backtracking loop carves strictly inside the border, so the map it
    leaves goes through them unchanged. *)
Theorem force_borders_changes_nothing fuel gen (g0 : grid) :
  wf W H g0 → (Z.to_nat (2 * W * H) ≤ fuel)%nat →
  ∃ g3, carve W H fuel gen g0 = Ok g3 ∧ force_borders W H g3 = Ok g3.
Proof.
  intros Hwf Hfuel.
  destruct (carve_spec W H HW HH fuel gen g0 Hwf Hfuel) as (g3 & Hc & Hinv).
  exists g3. split; [done|]. by apply force_borders_id.
Qed.

(** The finish cell is the only cell of kind 2. *)
Lemma getCell_finish_iff cfg fuel gen genF (g0 : grid) :
  wf W H g0 → (Z.to_nat (2 * W * H) ≤ fuel)%nat →
  ∃ g, generateMaze W H cfg fuel gen genF g0 = Ok g
       ∧ ∀ x y, getCell W H g x y = 2
                ↔ finish_enabled cfg = true ∧ (x, y) = finish_cell W H genF.
Proof.
  intros Hwf Hfuel.
  destruct (generateMaze_stages cfg fuel gen genF g0 Hwf Hfuel)
    as (g3 & g & _ & Hinv & Hg & Hwg & Hoff & Hon).
  exists g. split; [done|]. intros x y.
  destruct (finish_cell W H genF) as [fx fy] eqn:Hf.
  destruct (passage_cell W H genF) as [px py] eqn:Hp.
  destruct (finish_geometry W H HW HH genF fx fy px py Hf Hp)
    as (Hfx & Hfy & _ & Hpx & Hpy & _).
  destruct (decide (0 ≤ x < W ∧ 0 ≤ y < H)) as [[Hx Hy]|Hout].
  - rewrite getCell_in by done.
    assert (cell W H g3 x y ≠ 2) as Hbin
      by (destruct (inv_binary _ _ _ _ Hinv x y Hx Hy) as [-> | ->]; done).
    destruct (finish_enabled cfg).
    + destruct (Hon eq_refl) as (H2 & H0 & Hoth). cbn in H2, H0.
      destruct (decide ((x, y) = (fx, fy))) as [[= -> ->]|Hnf]; [done|].
      destruct (decide ((x, y) = (px, py))) as [[= -> ->]|Hnp].
      * rewrite H0. split; [done|]. by intros [_ ?].
      * rewrite (Hoth x y Hnf Hnp). split; [done|]. by intros [_ ?].
    + rewrite (Hoff eq_refl). split; [done|]. by intros [? _].
  - rewrite getCell_out by done. split; [done|].
    intros [_ [= Hx Hy]]. destruct Hout. lia.
Qed.

(** X3: on a generated maze [checkWin] holds at exactly one cell, the finish
    cell the two draws of [placeRandomFinish] chose; in a build without finish
    placement it never holds. *)
Theorem checkWin_iff_finish_cell cfg fuel gen genF (g0 : grid) :
  wf W H g0 → (Z.to_nat (2 * W * H) ≤ fuel)%nat →
  ∃ g, generateMaze W H cfg fuel gen genF g0 = Ok g
       ∧ ∀ posX posY,
           checkWin W H g posX posY = true
           ↔ finish_enabled cfg = true
             ∧ (static_cast_int posX, static_cast_int posY) = finish_cell W H genF.
Proof.
  intros Hwf Hfuel.
  destruct (getCell_finish_iff cfg fuel gen genF g0 Hwf Hfuel) as (g & Hg & Hfin).
  exists g. split; [done|]. intros posX posY. unfold checkWin.
  rewrite Z.eqb_eq. apply Hfin.
Qed.

Lemma on_border_true x y :
  on_border W H x y = true ↔ x = 0 ∨ x = W - 1 ∨ y = 0 ∨ y = H - 1.
Proof. unfold on_border. rewrite !orb_true_iff, !Z.eqb_eq. tauto. Qed.

(** The start cell (1, 1) is empty in every generated maze. *)
Lemma generateMaze_start_empty cfg fuel gen genF (g0 : grid) :
  wf W H g0 → (Z.to_nat (2 * W * H) ≤ fuel)%nat →
  ∃ g, generateMaze W H cfg fuel gen genF g0 = Ok g ∧ wf W H g
       ∧ getCell W H g 1 1 = 0.
Proof.
  intros Hwf Hfuel.
  destruct (generateMaze_stages cfg fuel gen genF g0 Hwf Hfuel)
    as (g3 & g & _ & Hinv & Hg & Hwg & Hoff & Hon).
  exists g. split; [done|]. split; [done|].
  rewrite getCell_in by lia. pose proof (inv_start _ _ _ _ Hinv) as H11.
  destruct (finish_enabled cfg); [|by rewrite (Hoff eq_refl)].
  destruct (Hon eq_refl) as (H2 & H0 & Hoth).
  destruct (finish_cell W H genF) as [fx fy] eqn:Hf.
  destruct (passage_cell W H genF) as [px py] eqn:Hp.
  destruct (finish_geometry W H HW HH genF fx fy px py Hf Hp)
    as (Hfx & Hfy & Hb & Hpx & Hpy & _).
  destruct (decide ((1, 1) = (px, py))) as [[= <- <-]|Hnp]; [exact H0|].
  rewrite Hoth; [done| |done].
  intros [= <- <-]. apply on_border_true in Hb. lia.
Qed.

(** X4: the spawn point is clear in every generated maze: the cell (1, 1) of
    the position (1.5, 1.5) that [main] sets after each [generateMaze] is
    empty, the player has not won there, and the collision resolver with the
    program's hitbox of 0.2 leaves the position as it is. *)
Theorem spawn_is_clear cfg fuel gen genF (g0 : grid) :
  wf W H g0 → (Z.to_nat (2 * W * H) ≤ fuel)%nat →
  ∃ g, generateMaze W H cfg fuel gen genF g0 = Ok g
       ∧ getCell W H g 1 1 = 0
       ∧ checkWin W H g 1.5 1.5 = false
       ∧ resolveCircleCollision W H g 1.5 1.5 hitbox_radius = Ok (1.5, 1.5)%float.
Proof.
  intros Hwf Hfuel.
  destruct (generateMaze_start_empty cfg fuel gen genF g0 Hwf Hfuel)
    as (g & Hg & Hwg & Hstart).
  exists g. split; [done|]. split; [done|]. split.
  { unfold checkWin. change (static_cast_int 1.5) with 1. by rewrite Hstart. }
  unfold resolveCircleCollision, resolve_with, scan_range.
  replace (floor_int (1.5 - hitbox_radius)) with 1 by (vm_compute; reflexivity).
  replace (ceil_int (1.5 + hitbox_radius)) with 2 by (vm_compute; reflexivity).
  rewrite (Z.min_r (W - 1) 2), (Z.min_r (H - 1) 2) by lia.
  change (0 `max` 1) with 1. unfold for_range.
  change (Z.to_nat (2 + 1 - 1)) with 2%nat. cbn [for_loop].
  rewrite (resolve_cell_skip W H _ g hitbox_radius 1 1 1.5 1.5)
    by (left; by rewrite Hstart).
  cbn [mbind result_bind for_loop].
  rewrite (resolve_cell_skip W H _ g hitbox_radius (1 + 1) 1 1.5 1.5)
    by (right; vm_compute; reflexivity).
  cbn [mbind result_bind for_loop].
  rewrite (resolve_cell_skip W H _ g hitbox_radius 1 (1 + 1) 1.5 1.5)
    by (right; vm_compute; reflexivity).
  cbn [mbind result_bind for_loop].
  rewrite (resolve_cell_skip W H _ g hitbox_radius (1 + 1) (1 + 1) 1.5 1.5)
    by (right; vm_compute; reflexivity).
  reflexivity.
Qed.

(** Partial correctness of the backtracking loop: a property every step keeps
    holds of the map the loop returns. *)
Lemma carve_loop_invariant (I : grid → list (Z * Z) → Prop) gen :
  (∀ k g st k' g' st',
     I g st → carve_step W H gen k g st = Ok (k', g', st') → I g' st') →
  ∀ fuel k g st g', I g st → carve_loop W H fuel gen k g st = Ok g' → I g' [].
Proof.
  intros Hstep fuel. induction fuel as [|fuel IH]; intros k g st g' HI Hloop.
  - destruct st; simpl in Hloop; [by injection Hloop as <- | done].
  - destruct st as [|c st]; [simpl in Hloop; by injection Hloop as <-|].
    cbn [carve_loop] in Hloop.
    destruct (carve_step W H gen k g (c :: st)) as [[[k' g1] st1]|e] eqn:Hs; [|done].
    cbn in Hloop. eapply IH; [|exact Hloop]. eapply Hstep; eauto.
Qed.

(** The cells with two even coordinates, the pillars between the lattice
    cells and the walls between them, are never carved. *)
Lemma carve_pillars fuel gen (g0 g3 : grid) :
  wf W H g0 → carve W H fuel gen g0 = Ok g3 →
  ∀ x y, 0 ≤ x < W → 0 ≤ y < H → Z.even x = true → Z.even y = true →
         cell W H g3 x y = 1.
Proof.
  intros Hwf Hc. unfold carve in Hc.
  destruct (fill_walls_spec W H g0) as (g1 & Hg1 & Hw1 & Hc1); [lia..|done|].
  rewrite Hg1 in Hc. cbn [mbind result_bind] in Hc.
  destruct (wr W H g1 1 1 0) as [g2|] eqn:Hg2; [|done]. cbn in Hc.
  pose (I := λ (g : grid) (st : list (Z * Z)),
          wf W H g
          ∧ (∀ x y, (x, y) ∈ st → Z.odd x = true ∧ Z.odd y = true)
          ∧ ∀ x y, 0 ≤ x < W → 0 ≤ y < H → Z.even x = true → Z.even y = true →
                   cell W H g x y = 1).
  enough (I g3 []) as (_ & _ & Hp) by exact Hp.
  apply (carve_loop_invariant I gen) with (fuel := fuel) (k := 0%nat) (g := g2)
    (st := [(1, 1)]); [| |exact Hc].
  - clear. intros k g st k' g' st' (Hw & Hst & Hp) Hs. unfold carve_step in Hs.
    destruct st as [|[cx cy] rest]; [by injection Hs as <- <- <-|].
    destruct (neighbors W H g cx cy) as [|n ns] eqn:Hn.
    { injection Hs as <- <- <-. split; [done|]. split; [|done].
      intros x y Hin. apply Hst. by right. }
    rewrite <- Hn in Hs.
    destruct (neighbors W H g cx cy !! _) as [[nx ny]|] eqn:Hl; [|done].
    apply list_elem_of_lookup_2, elem_of_neighbors in Hl as ((d & Hd & -> & ->) & _).
    destruct (Hst cx cy ltac:(left)) as [Hox Hoy].
    pose proof (wall_between cx cy d Hd) as Hwb. cbv zeta in Hwb.
    destruct Hwb as (_ & _ & Hsame & _ & _ & _ & Hodd).
    destruct (Hodd Hox Hoy) as (Honx & Hony & _).
    destruct (wr W H g _ _ 0) as [ga|] eqn:Hga; [|done]. cbn in Hs.
    destruct (wr W H ga _ _ 0) as [gb|] eqn:Hgb; [|done]. cbn in Hs.
    injection Hs as <- <- <-.
    destruct (carve_two W H g ga gb _ _ _ _ Hw Hga Hgb) as (Hwb' & _ & _ & Hoth).
    split; [done|]. split.
    + intros x y [[= -> ->]|Hin]%elem_of_cons; [done|by apply Hst].
    + intros x y Hx Hy Hex Hey. rewrite Hoth; [by apply Hp| |].
      * intros [= -> ->]. rewrite <- Z.negb_odd, Honx in Hex. done.
      * intros [= Hwx Hwy]. rewrite <- Z.negb_odd in Hex, Hey.
        destruct Hsame as [[Hs1 _]|[Hs2 _]].
        -- rewrite Hwx, Hs1, Hox in Hex. done.
        -- rewrite Hwy, Hs2, Hoy in Hey. done.
  - split; [by eapply wr_wf|]. split.
    + intros x y [= -> ->]%list_elem_of_singleton. done.
    + intros x y Hx Hy Hex Hey. rewrite (cell_wr_other W H g1 g2 1 1 0 x y Hg2).
      * by apply Hc1.
      * intros [= -> ->]. done.
Qed.


(** X5: the pillars of the maze stay walls: in every generated maze a cell
    with two even coordinates is a wall, unless it is the finish cell or the
    passage opened next to it. *)
Theorem pillars_stay_walls cfg fuel gen genF (g0 : grid) :
  wf W H g0 → (Z.to_nat (2 * W * H) ≤ fuel)%nat →
  ∃ g, generateMaze W H cfg fuel gen genF g0 = Ok g
       ∧ ∀ x y, 0 ≤ x < W → 0 ≤ y < H → Z.even x = true → Z.even y = true →
           getCell W H g x y = 1
           ∨ finish_enabled cfg = true
             ∧ ((x, y) = finish_cell W H genF ∨ (x, y) = passage_cell W H genF).
Proof.
  intros Hwf Hfuel.
  destruct (generateMaze_stages cfg fuel gen genF g0 Hwf Hfuel)
    as (g3 & g & Hc & Hinv & Hg & Hwg & Hoff & Hon).
  exists g. split; [done|]. intros x y Hx Hy Hex Hey.
  pose proof (carve_pillars fuel gen g0 g3 Hwf Hc x y Hx Hy Hex Hey) as Hp.
  rewrite getCell_in by done.
  destruct (finish_enabled cfg); [|left; by rewrite (Hoff eq_refl)].
  destruct (Hon eq_refl) as (_ & _ & Hoth).
  destruct (decide ((x, y) = finish_cell W H genF)) as [?|Hnf]; [by right; auto|].
  destruct (decide ((x, y) = passage_cell W H genF)) as [?|Hnp]; [by right; auto|].
  left. by rewrite Hoth.
Qed.

(** An even-even cell, the cell beside it in its row and the cell beside it
    in its column are never all three open. *)
Lemma corner_has_wall cfg fuel gen genF (g0 g : grid) ex ey x' y' :
  wf W H g0 → (Z.to_nat (2 * W * H) ≤ fuel)%nat →
  generateMaze W H cfg fuel gen genF g0 = Ok g →
  Z.even ex = true → Z.even ey = true →
  x' = ex + 1 ∨ x' = ex - 1 → y' = ey + 1 ∨ y' = ey - 1 →
  getCell W H g ex ey ≠ 1 → getCell W H g x' ey ≠ 1 → getCell W H g ex y' ≠ 1 →
  False.
Proof.
  intros Hwf Hfuel Hgen Hex Hey Hx' Hy' HE HD1 HD2.
  destruct (generateMaze_stages cfg fuel gen genF g0 Hwf Hfuel)
    as (g3 & g' & Hc & Hinv & Hg & Hwg & Hoff & Hon).
  rewrite Hgen in Hg. injection Hg as <-.
  pose proof (carve_pillars fuel gen g0 g3 Hwf Hc) as Hpil.
  pose proof (carve_border_walls W H g3 Hinv) as Hbord.
  pose proof (inv_binary _ _ _ _ Hinv) as Hbin.
  pose proof (inv_empty _ _ _ _ Hinv) as Hemp.
  pose proof (getCell_not_wall W H g _ _ HE) as [HEx HEy].
  pose proof (getCell_not_wall W H g _ _ HD1) as [HD1x _].
  pose proof (getCell_not_wall W H g _ _ HD2) as [_ HD2y].
  rewrite getCell_in in HE, HD1, HD2 by done.
  destruct (finish_enabled cfg).
  2:{ rewrite (Hoff eq_refl) in HE. by rewrite Hpil in HE. }
  destruct (Hon eq_refl) as (_ & _ & Hoth).
  assert (∀ u v, 0 ≤ u < W → 0 ≤ v < H → cell W H g u v ≠ 1 →
                 (u, v) ≠ finish_cell W H genF → (u, v) ≠ passage_cell W H genF →
                 ¬ (u = 0 ∨ u = W - 1 ∨ v = 0 ∨ v = H - 1)
                 ∧ u ≤ lattice_bound W ∧ v ≤ lattice_bound H) as Hopen.
  { intros u v Hu Hv Hne Hnf Hnp. rewrite (Hoth u v Hnf Hnp) in Hne.
    destruct (Hbin u v Hu Hv) as [H0|H1]; [|done].
    destruct (Hemp u v Hu Hv H0) as (? & ? & _). split; [|lia].
    intros Hb%on_border_true. by rewrite (Hbord u v Hu Hv Hb) in H0. }
  assert (Z.even W = true → lattice_bound W = W - 3) as HlW
    by (unfold lattice_bound; by intros ->).
  assert (Z.even H = true → lattice_bound H = H - 3) as HlH
    by (unfold lattice_bound; by intros ->).
  pose proof (finish_cases W H HW HH genF) as Hcases. cbv zeta in Hcases.
  destruct (decide ((ex, ey) = finish_cell W H genF)) as [Hf|Hnf].
  - destruct Hcases as [(_ & o & Ho & Hfo & Hpo)|[(_ & o & Ho & Hfo & Hpo)|
      [(_ & o & Ho & Hfo & Hpo)|(_ & o & Ho & Hfo & Hpo)]]];
      rewrite Hfo in Hf; injection Hf as -> ->.
    + destruct (Hopen x' 0 HD1x HEy HD1) as (Hb & _); [rewrite Hfo|rewrite Hpo|];
        [intros [=]; lia|intros [=]|lia].
    + destruct (Hopen x' (H - 1) HD1x HEy HD1) as (Hb & _); [rewrite Hfo|rewrite Hpo|];
        [intros [=]; lia|intros [=]; lia|lia].
    + destruct (Hopen 0 y' HEx HD2y HD2) as (Hb & _); [rewrite Hfo|rewrite Hpo|];
        [intros [=]; lia|intros [=]|lia].
    + destruct (Hopen (W - 1) y' HEx HD2y HD2) as (Hb & _); [rewrite Hfo|rewrite Hpo|];
        [intros [=]; lia|intros [=]; lia|lia].
  - destruct (decide ((ex, ey) = passage_cell W H genF)) as [Hp|Hnp].
    2:{ rewrite (Hoth ex ey Hnf Hnp) in HE. by rewrite Hpil in HE. }
    destruct Hcases as [(_ & o & Ho & Hfo & Hpo)|[(_ & o & Ho & Hfo & Hpo)|
      [(_ & o & Ho & Hfo & Hpo)|(_ & o & Ho & Hfo & Hpo)]]];
      rewrite Hpo in Hp; injection Hp as -> ->.
    + done.
    + assert (Z.even H = true) as HeH
        by (rewrite Z.even_sub in Hey; by destruct (Z.even H)).
      destruct (Hopen x' (H - 2) HD1x HEy HD1) as (_ & _ & Hl);
        [rewrite Hfo|rewrite Hpo|]; [intros [=]; lia|intros [=]; lia|].
      rewrite (HlH HeH) in Hl. lia.
    + done.
    + assert (Z.even W = true) as HeW
        by (rewrite Z.even_sub in Hex; by destruct (Z.even W)).
      destruct (Hopen (W - 2) y' HEx HD2y HD2) as (_ & Hl & _);
        [rewrite Hfo|rewrite Hpo|]; [intros [=]; lia|intros [=]; lia|].
      rewrite (HlW HeW) in Hl. lia.
Qed.

(** X6: the corridors of a generated maze are one cell wide: no 2 by 2 block
    of cells is open; one of the four is a wall (for the player as for the
    ray), finish and passage included. *)
Theorem no_open_square cfg fuel gen genF (g0 : grid) :
  wf W H g0 → (Z.to_nat (2 * W * H) ≤ fuel)%nat →
  ∃ g, generateMaze W H cfg fuel gen genF g0 = Ok g
       ∧ ∀ x y, getCell W H g x y = 1 ∨ getCell W H g (x + 1) y = 1
                ∨ getCell W H g x (y + 1) = 1 ∨ getCell W H g (x + 1) (y + 1) = 1.
Proof.
  intros Hwf Hfuel.
  destruct (generateMaze_stages cfg fuel gen genF g0 Hwf Hfuel)
    as (g3 & g & _ & _ & Hg & _).
  exists g. split; [done|]. intros x y.
  destruct (decide (getCell W H g x y = 1)) as [|H00]; [auto|].
  destruct (decide (getCell W H g (x + 1) y = 1)) as [|H10]; [auto|].
  destruct (decide (getCell W H g x (y + 1) = 1)) as [|H01]; [auto|].
  destruct (decide (getCell W H g (x + 1) (y + 1) = 1)) as [|H11]; [auto|].
  exfalso.
  assert (∀ z, Z.even z = false → Z.even (z + 1) = true) as Hnext
    by (intros z Hz; rewrite Z.even_add, Hz; reflexivity).
  destruct (Z.even x) eqn:Hex, (Z.even y) eqn:Hey.
  - apply (corner_has_wall cfg fuel gen genF g0 g x y (x + 1) (y + 1)); auto.
  - apply (corner_has_wall cfg fuel gen genF g0 g x (y + 1) (x + 1) y); auto.
    right; lia.
  - apply (corner_has_wall cfg fuel gen genF g0 g (x + 1) y x (y + 1)); auto.
    right; lia.
  - apply (corner_has_wall cfg fuel gen genF g0 g (x + 1) (y + 1) x y); auto.
    + right; lia.
    + right; lia.
Qed.

(** The map at the entry of the backtracking loop: all walls but the start
    cell, with the loop's invariant. *)
Lemma carve_start (g0 : grid) :
  wf W H g0 →
  ∃ g1 g2, fill_walls W H g0 = Ok g1 ∧ wr W H g1 1 1 0 = Ok g2
           ∧ carve_inv W H g2 [(1, 1)]
           ∧ ∀ x y, 0 ≤ x < W → 0 ≤ y < H → (x, y) ≠ (1, 1) → cell W H g2 x y = 1.
Proof.
  intros Hwf0.
  destruct (fill_walls_spec W H g0 ltac:(lia) ltac:(lia) Hwf0) as (g1 & Hg1 & Hwf1 & Hall).
  destruct (wr_Ok W H g1 1 1 0) as [g2 Hg2]; [apply in_range_spec; lia|].
  exists g1, g2. split; [done|]. split; [done|].
  assert (wf W H g2) as Hwf2 by exact (wr_wf W H g1 1 1 0 g2 Hwf1 Hg2).
  assert (cell W H g2 1 1 = 0) as Hs by exact (cell_wr_same W H g1 g2 1 1 0 Hwf1 Hg2).
  assert (∀ x y, 0 ≤ x < W → 0 ≤ y < H → (x, y) ≠ (1, 1) → cell W H g2 x y = 1) as Hrest.
  { intros x y Hx Hy Hne. rewrite (cell_wr_other W H g1 g2 1 1 0) by done. by apply Hall. }
  split; [|done]. split; try done.
  - intros x y Hx Hy. destruct (decide ((x, y) = (1, 1))) as [[= -> ->]|Hne];
      [by left | right; by apply Hrest].
  - intros x y [= -> ->]%list_elem_of_singleton. repeat split; (done || lia).
  - intros x y Hx Hy Hxy. destruct (decide ((x, y) = (1, 1))) as [[= -> ->]|Hne].
    + split; [apply odd_lattice_bound; [done|lia]|].
      split; [apply odd_lattice_bound; [done|lia]|].
      apply flood_start. rewrite getCell_in by lia. done.
    + rewrite Hrest in Hxy by done. done.
  - intros x y _ _ Hx Hy Hxy Hnin.
    destruct (decide ((x, y) = (1, 1))) as [Heq|Hne].
    + rewrite Heq in Hnin. destruct Hnin. left.
    + rewrite Hrest in Hxy by done. done.
Qed.

(** A lattice cell other than the start cell, once carved, has a neighbour
    that the flood fill reaches without passing through the cell itself:
    the wall cell through which the loop entered it. *)
Lemma carve_entry fuel gen (g0 g3 : grid) tx ty :
  wf W H g0 → carve W H fuel gen g0 = Ok g3 →
  Z.odd tx = true → Z.odd ty = true → 0 ≤ tx < W → 0 ≤ ty < H → (tx, ty) ≠ (1, 1) →
  carve_inv W H g3 []
  ∧ (cell W H g3 tx ty = 1
     ∨ ∃ c, adjacent c (tx, ty)
          ∧ ∀ g', (∀ x y, (x, y) ≠ (tx, ty) → getCell W H g3 x y = 0 →
                          getCell W H g' x y = 0) →
                  flood W H g' c).
Proof.
  intros Hwf Hc Hotx Hoty Htx Hty Hne. unfold carve in Hc.
  destruct (carve_start g0 Hwf) as (g1 & g2 & Hg1 & Hg2 & Hinv2 & Hrest).
  rewrite Hg1 in Hc. cbn [mbind result_bind] in Hc.
  rewrite Hg2 in Hc. cbn [mbind result_bind] in Hc.
  pose (K := λ g : grid,
          cell W H g tx ty = 1
          ∨ ∃ c, adjacent c (tx, ty)
               ∧ ∀ g', (∀ x y, (x, y) ≠ (tx, ty) → getCell W H g x y = 0 →
                               getCell W H g' x y = 0) →
                       flood W H g' c).
  pose (I := λ (g : grid) (st : list (Z * Z)), carve_inv W H g st ∧ K g).
  apply (carve_loop_invariant I gen) with (fuel := fuel) (k := 0%nat) (g := g2)
    (st := [(1, 1)]); [| |exact Hc].
  2:{ split; [done|]. left. by apply Hrest. }
  clear g0 g1 g2 g3 Hwf Hc Hg1 Hg2 Hinv2 Hrest.
  intros k g st k' g' st' (Hinv & HK) Hs.
  destruct st as [|[cx cy] rest]; [by injection Hs as <- <- <-|].
  destruct (carve_step_decreases W H gen k g _ Hinv ltac:(done))
    as (k1 & g1 & st1 & Hs1 & Hinv1 & _).
  rewrite Hs in Hs1. injection Hs1 as <- <- <-. split; [done|].
  unfold carve_step in Hs.
  destruct (neighbors W H g cx cy) as [|n ns] eqn:Hn; [by injection Hs as <- <- <-|].
  rewrite <- Hn in Hs.
  destruct (neighbors W H g cx cy !! _) as [[nx ny]|] eqn:Hl; [|done].
  apply list_elem_of_lookup_2, elem_of_neighbors in Hl
    as ((d & Hd & -> & ->) & Hnx & Hny & Hn1).
  destruct (inv_stack _ _ _ _ Hinv cx cy ltac:(left)) as (Hox & Hoy & Hcx & Hcy & Hc0).
  pose proof (wall_between cx cy d Hd) as Hwb. cbv zeta in Hwb.
  destruct Hwb as (Hadj1 & Hadj2 & _ & Hbx & Hby & Hwn & Hodd).
  destruct (Hodd Hox Hoy) as (_ & _ & Hwodd).
  destruct (wr W H g _ _ 0) as [ga|] eqn:Hga; [|done]. cbn in Hs.
  destruct (wr W H ga _ _ 0) as [gb|] eqn:Hgb; [|done]. cbn in Hs.
  injection Hs as <- <- <-.
  destruct (carve_two W H g ga gb _ _ _ _ (inv_wf _ _ _ _ Hinv) Hga Hgb)
    as (Hwfb & Hbn & Hbw & Hoth).
  set (wx := cx + (cx + d.1 - cx) `quot` 2) in *.
  set (wy := cy + (cy + d.2 - cy) `quot` 2) in *.
  set (nx := cx + d.1) in *. set (ny := cy + d.2) in *.
  assert (0 ≤ wx < W ∧ 0 ≤ wy < H) as [Hwx Hwy] by lia.
  assert (∀ x y, getCell W H g x y = 0 → getCell W H gb x y = 0) as Hmono.
  { intros x y H0.
    destruct (getCell_not_wall W H g x y ltac:(by rewrite H0)) as [Hx Hy].
    rewrite getCell_in in H0 |- * by done.
    destruct (decide ((x, y) = (nx, ny))) as [[= -> ->]|Hnn]; [done|].
    destruct (decide ((x, y) = (wx, wy))) as [[= -> ->]|Hnw]; [done|].
    by rewrite Hoth. }
  destruct HK as [HT1|(c & Hadj & Hfl)].
  - destruct (decide ((tx, ty) = (nx, ny))) as [[= -> ->]|Hnn].
    + right. exists (wx, wy). split; [done|]. intros g' Hg'.
      apply (flood_step W H g' (cx, cy) (wx, wy)); [|done|].
      * apply (flood_mono W H g g').
        -- intros x y H0. apply Hg'; [|by apply Hmono].
           intros [= -> ->]. rewrite getCell_in in H0 by done. congruence.
        -- by destruct (inv_empty _ _ _ _ Hinv cx cy ltac:(lia) ltac:(lia) Hc0)
             as (_ & _ & ?).
      * cbn. apply Hg'; [done|]. by rewrite getCell_in.
    + left. rewrite Hoth; [done|done|].
      intros [= -> ->]. destruct Hwodd; congruence.
  - right. exists c. split; [done|]. intros g' Hg'. apply Hfl.
    intros x y Hne' H0. apply Hg'; [done|]. by apply Hmono.
Qed.

(** X7: in [raycast_maze-v1.cpp], whose finish is the lattice cell
    (MAP_WIDTH - 3, MAP_HEIGHT - 3), the finish can always be reached: a cell
    next to it is reached by the flood fill from the start over empty cells,
    for every run of the backtracking loop (map dimensions even, as the
    program's 250, and the finish not the start cell itself). *)
Theorem V1_finish_reachable fuel gen (g0 : grid) :
  Z.even W = true → Z.even H = true → 4 < W ∨ 4 < H →
  wf W H g0 → (Z.to_nat (2 * W * H) ≤ fuel)%nat →
  ∃ g c, V1.generateMaze W H fuel gen g0 = Ok g
         ∧ getCell W H g (W - 3) (H - 3) = 2
         ∧ adjacent c (W - 3, H - 3) ∧ flood W H g c.
Proof.
  intros HeW HeH Hbig Hwf Hfuel.
  destruct (carve_spec W H HW HH fuel gen g0 Hwf Hfuel) as (g3 & Hc & Hinv).
  assert (Z.odd (W - 3) = true) as HoW
    by (rewrite Z.odd_sub, <- Z.negb_even, HeW; reflexivity).
  assert (Z.odd (H - 3) = true) as HoH
    by (rewrite Z.odd_sub, <- Z.negb_even, HeH; reflexivity).
  apply Z.even_spec in HeW as [w Hw]. apply Z.even_spec in HeH as [h Hh].
  destruct (wr_Ok W H g3 (W - 3) (H - 3) 2) as [g Hg]; [apply in_range_spec; lia|].
  destruct (carve_entry fuel gen g0 g3 (W - 3) (H - 3) Hwf Hc HoW HoH)
    as (_ & [H1|(c & Hadj & Hfl)]); [lia|lia|intros [=]; lia| |].
  { rewrite (carve_complete W H HW HH g3 Hinv) in H1; [done|done|done|lia|lia]. }
  exists g, c. unfold V1.generateMaze. rewrite Hc. cbn [mbind result_bind].
  rewrite (force_borders_id W H HW HH g3 Hinv). cbn [mbind result_bind].
  split; [done|]. split.
  { exact (getCell_wr_same W H g3 g _ _ 2 (inv_wf _ _ _ _ Hinv) Hg). }
  split; [done|]. apply Hfl. intros x y Hne H0.
  by rewrite (getCell_wr_other W H g3 g _ _ 2 x y Hg Hne).
Qed.

(** X8: the maze fills the map: in every generated maze each cell with two
    odd coordinates strictly inside the border is empty, so every lattice
    cell belongs to the maze. *)
Theorem lattice_cells_open cfg fuel gen genF (g0 : grid) :
  wf W H g0 → (Z.to_nat (2 * W * H) ≤ fuel)%nat →
  ∃ g, generateMaze W H cfg fuel gen genF g0 = Ok g
       ∧ ∀ x y, Z.odd x = true → Z.odd y = true → 0 < x < W - 1 → 0 < y < H - 1 →
                getCell W H g x y = 0.
Proof.
  intros Hwf Hfuel.
  destruct (generateMaze_stages cfg fuel gen genF g0 Hwf Hfuel)
    as (g3 & g & _ & Hinv & Hg & Hwg & Hoff & Hon).
  exists g. split; [done|]. intros x y Hox Hoy Hx Hy.
  pose proof (carve_complete W H HW HH g3 Hinv x y Hox Hoy Hx Hy) as H0.
  rewrite getCell_in by lia.
  destruct (finish_enabled cfg); [|by rewrite (Hoff eq_refl)].
  destruct (Hon eq_refl) as (_ & Hp0 & Hoth).
  destruct (finish_cell W H genF) as [fx fy] eqn:Hf.
  destruct (passage_cell W H genF) as [px py] eqn:Hp.
  destruct (finish_geometry W H HW HH genF fx fy px py Hf Hp)
    as (_ & _ & Hb & _). apply on_border_true in Hb.
  destruct (decide ((x, y) = (px, py))) as [[= -> ->]|Hnp]; [exact Hp0|].
  rewrite Hoth; [done| |done]. intros [= -> ->]. lia.
Qed.

(** The cells the two draws of [placeRandomFinish] can name. *)
Lemma finish_cell_range fx fy :
  (∃ genF, finish_cell W H genF = (fx, fy))
  ↔ ((fy = 0 ∨ fy = H - 1) ∧ 1 ≤ fx ≤ W - 2)
    ∨ ((fx = 0 ∨ fx = W - 1) ∧ 1 ≤ fy ≤ H - 2).
Proof.
  split.
  - intros [genF Hf]. pose proof (finish_cases W H HW HH genF) as Hc.
    cbv zeta in Hc. rewrite Hf in Hc.
    destruct Hc as [(_ & o & Ho & [= -> ->] & _)|[(_ & o & Ho & [= -> ->] & _)|
      [(_ & o & Ho & [= -> ->] & _)|(_ & o & Ho & [= -> ->] & _)]]]; lia.
  - intros Hcell.
    assert (∀ b o n, 0 ≤ b ≤ 3 → 1 ≤ o ≤ n - 2 →
              uniform_int 0 3 b = b ∧ uniform_int 1 (n - 2) (o - 1) = o) as Hdraw.
    { intros b o n Hb Ho. split.
      - replace b with (b - 0) at 1 by lia. apply uniform_int_onto. lia.
      - apply uniform_int_onto. lia. }
    destruct Hcell as [[[-> | ->] Hx]|[[-> | ->] Hy]].
    + exists (λ k, match k with O => 0 | S _ => fx - 1 end).
      unfold finish_cell, finish_border.
      destruct (Hdraw 0 fx W ltac:(lia) Hx) as [-> ->]. done.
    + exists (λ k, match k with O => 1 | S _ => fx - 1 end).
      unfold finish_cell, finish_border.
      destruct (Hdraw 1 fx W ltac:(lia) Hx) as [-> ->]. done.
    + exists (λ k, match k with O => 2 | S _ => fy - 1 end).
      unfold finish_cell, finish_border.
      destruct (Hdraw 2 fy H ltac:(lia) Hy) as [-> ->]. done.
    + exists (λ k, match k with O => 3 | S _ => fy - 1 end).
      unfold finish_cell, finish_border.
      destruct (Hdraw 3 fy H ltac:(lia) Hy) as [-> ->]. done.
Qed.

(** X9: the cells [placeRandomFinish] can make the finish are exactly the
    border cells that are not corners: each of them is the finish of the maze
    for some pair of draws, and no draws put the finish in a corner or inside
    the border. *)
Theorem finish_is_any_border_cell_but_a_corner cfg fuel gen (g0 : grid) fx fy :
  finish_enabled cfg = true →
  wf W H g0 → (Z.to_nat (2 * W * H) ≤ fuel)%nat →
  (∃ genF g, generateMaze W H cfg fuel gen genF g0 = Ok g
             ∧ getCell W H g fx fy = 2)
  ↔ ((fy = 0 ∨ fy = H - 1) ∧ 1 ≤ fx ≤ W - 2)
    ∨ ((fx = 0 ∨ fx = W - 1) ∧ 1 ≤ fy ≤ H - 2).
Proof.
  intros Hen Hwf Hfuel. rewrite <- finish_cell_range. split.
  - intros (genF & g & Hg & H2). exists genF.
    destruct (getCell_finish_iff cfg fuel gen genF g0 Hwf Hfuel) as (g' & Hg' & Hfin).
    rewrite Hg in Hg'. injection Hg' as <-. symmetry. by apply Hfin.
  - intros [genF Hf].
    destruct (getCell_finish_iff cfg fuel gen genF g0 Hwf Hfuel) as (g & Hg & Hfin).
    exists genF, g. split; [done|]. by apply Hfin.
Qed.


End MazeMore.

(** ** Instances on the program's map

    The zero-initialised map of 250 by 250 cells, the build [-DUSE_BOTH], the
    generator that always draws the first neighbour, a finish at the left
    end of the top border. *)

Lemma three_le_250 : 3 ≤ 250.
Proof. lia. Qed.

Lemma wf_all_walls : wf MAP_WIDTH MAP_HEIGHT
                       (replicate (Z.to_nat MAP_HEIGHT) (replicate (Z.to_nat MAP_WIDTH) 1)).
Proof. apply wf_replicate. Qed.

(** X1, an instance: from the zeroed map and from a map of walls. *)
Lemma generateMaze_forgets_previous_map_witness :
  wf MAP_WIDTH MAP_HEIGHT gameMap0
  ∧ wf MAP_WIDTH MAP_HEIGHT
      (replicate (Z.to_nat MAP_HEIGHT) (replicate (Z.to_nat MAP_WIDTH) 1))
  ∧ generateMaze MAP_WIDTH MAP_HEIGHT cfg_both (Z.to_nat 125000)
      gen_first genF_top_first gameMap0
    = generateMaze MAP_WIDTH MAP_HEIGHT cfg_both (Z.to_nat 125000)
        gen_first genF_top_first
        (replicate (Z.to_nat MAP_HEIGHT) (replicate (Z.to_nat MAP_WIDTH) 1)).
Proof.
  split; [exact wf_gameMap0|]. split; [exact wf_all_walls|].
  exact (generateMaze_forgets_previous_map 250 250 three_le_250 three_le_250
           cfg_both (Z.to_nat 125000)
           gen_first genF_top_first gameMap0 _ wf_gameMap0 wf_all_walls).
Defined.

(** X2, an instance. *)
Lemma force_borders_changes_nothing_witness :
  wf MAP_WIDTH MAP_HEIGHT gameMap0
  ∧ (Z.to_nat (2 * MAP_WIDTH * MAP_HEIGHT) ≤ Z.to_nat 125000)%nat
  ∧ ∃ g3, carve MAP_WIDTH MAP_HEIGHT (Z.to_nat 125000) gen_first gameMap0 = Ok g3
          ∧ force_borders MAP_WIDTH MAP_HEIGHT g3 = Ok g3.
Proof.
  split; [exact wf_gameMap0|]. split; [exact fuel_125000|].
  exact (force_borders_changes_nothing 250 250 three_le_250 three_le_250
           (Z.to_nat 125000) gen_first gameMap0 wf_gameMap0 fuel_125000).
Defined.

(** X3, an instance. *)
Lemma checkWin_iff_finish_cell_witness :
  wf MAP_WIDTH MAP_HEIGHT gameMap0
  ∧ (Z.to_nat (2 * MAP_WIDTH * MAP_HEIGHT) ≤ Z.to_nat 125000)%nat
  ∧ ∃ g, generateMaze MAP_WIDTH MAP_HEIGHT cfg_both (Z.to_nat 125000)
           gen_first genF_top_first gameMap0 = Ok g
         ∧ ∀ posX posY,
             checkWin MAP_WIDTH MAP_HEIGHT g posX posY = true
             ↔ finish_enabled cfg_both = true
               ∧ (static_cast_int posX, static_cast_int posY)
                 = finish_cell MAP_WIDTH MAP_HEIGHT genF_top_first.
Proof.
  split; [exact wf_gameMap0|]. split; [exact fuel_125000|].
  exact (checkWin_iff_finish_cell 250 250 three_le_250 three_le_250 cfg_both
           (Z.to_nat 125000) gen_first genF_top_first gameMap0 wf_gameMap0 fuel_125000).
Defined.

(** X4, an instance. *)
Lemma spawn_is_clear_witness :
  wf MAP_WIDTH MAP_HEIGHT gameMap0
  ∧ (Z.to_nat (2 * MAP_WIDTH * MAP_HEIGHT) ≤ Z.to_nat 125000)%nat
  ∧ ∃ g, generateMaze MAP_WIDTH MAP_HEIGHT cfg_both (Z.to_nat 125000)
           gen_first genF_top_first gameMap0 = Ok g
         ∧ getCell MAP_WIDTH MAP_HEIGHT g 1 1 = 0
         ∧ checkWin MAP_WIDTH MAP_HEIGHT g 1.5 1.5 = false
         ∧ resolveCircleCollision MAP_WIDTH MAP_HEIGHT g 1.5 1.5 hitbox_radius
           = Ok (1.5, 1.5)%float.
Proof.
  split; [exact wf_gameMap0|]. split; [exact fuel_125000|].
  exact (spawn_is_clear 250 250 three_le_250 three_le_250 cfg_both
           (Z.to_nat 125000) gen_first genF_top_first gameMap0 wf_gameMap0 fuel_125000).
Defined.

(** X5, an instance. *)
Lemma pillars_stay_walls_witness :
  wf MAP_WIDTH MAP_HEIGHT gameMap0
  ∧ (Z.to_nat (2 * MAP_WIDTH * MAP_HEIGHT) ≤ Z.to_nat 125000)%nat
  ∧ ∃ g, generateMaze MAP_WIDTH MAP_HEIGHT cfg_both (Z.to_nat 125000)
           gen_first genF_top_first gameMap0 = Ok g
         ∧ ∀ x y, 0 ≤ x < MAP_WIDTH → 0 ≤ y < MAP_HEIGHT →
             Z.even x = true → Z.even y = true →
             getCell MAP_WIDTH MAP_HEIGHT g x y = 1
             ∨ finish_enabled cfg_both = true
               ∧ ((x, y) = finish_cell MAP_WIDTH MAP_HEIGHT genF_top_first
                  ∨ (x, y) = passage_cell MAP_WIDTH MAP_HEIGHT genF_top_first).
Proof.
  split; [exact wf_gameMap0|]. split; [exact fuel_125000|].
  exact (pillars_stay_walls 250 250 three_le_250 three_le_250 cfg_both
           (Z.to_nat 125000) gen_first genF_top_first gameMap0 wf_gameMap0 fuel_125000).
Defined.

(** X6, an instance. *)
Lemma no_open_square_witness :
  wf MAP_WIDTH MAP_HEIGHT gameMap0
  ∧ (Z.to_nat (2 * MAP_WIDTH * MAP_HEIGHT) ≤ Z.to_nat 125000)%nat
  ∧ ∃ g, generateMaze MAP_WIDTH MAP_HEIGHT cfg_both (Z.to_nat 125000)
           gen_first genF_bottom_last gameMap0 = Ok g
         ∧ ∀ x y, getCell MAP_WIDTH MAP_HEIGHT g x y = 1
                  ∨ getCell MAP_WIDTH MAP_HEIGHT g (x + 1) y = 1
                  ∨ getCell MAP_WIDTH MAP_HEIGHT g x (y + 1) = 1
                  ∨ getCell MAP_WIDTH MAP_HEIGHT g (x + 1) (y + 1) = 1.
Proof.
  split; [exact wf_gameMap0|]. split; [exact fuel_125000|].
  exact (no_open_square 250 250 three_le_250 three_le_250 cfg_both
           (Z.to_nat 125000) gen_first genF_bottom_last gameMap0 wf_gameMap0 fuel_125000).
Defined.

(** X7, an instance: the program's map of [raycast_maze-v1.cpp]. *)
Lemma V1_finish_reachable_witness :
  Z.even MAP_WIDTH = true ∧ Z.even MAP_HEIGHT = true
  ∧ (4 < MAP_WIDTH ∨ 4 < MAP_HEIGHT)
  ∧ wf MAP_WIDTH MAP_HEIGHT gameMap0
  ∧ (Z.to_nat (2 * MAP_WIDTH * MAP_HEIGHT) ≤ Z.to_nat 125000)%nat
  ∧ ∃ g c, V1.generateMaze MAP_WIDTH MAP_HEIGHT (Z.to_nat 125000) gen_first gameMap0
           = Ok g
           ∧ getCell MAP_WIDTH MAP_HEIGHT g (MAP_WIDTH - 3) (MAP_HEIGHT - 3) = 2
           ∧ adjacent c (MAP_WIDTH - 3, MAP_HEIGHT - 3)
           ∧ flood MAP_WIDTH MAP_HEIGHT g c.
Proof.
  split; [reflexivity|]. split; [reflexivity|].
  split; [left; unfold MAP_WIDTH; lia|].
  split; [exact wf_gameMap0|]. split; [exact fuel_125000|].
  exact (V1_finish_reachable 250 250 three_le_250 three_le_250
           (Z.to_nat 125000) gen_first gameMap0 eq_refl eq_refl
           (or_introl (eq_refl : 4 < 250)) wf_gameMap0 fuel_125000).
Defined.

(** X8, an instance. *)
Lemma lattice_cells_open_witness :
  wf MAP_WIDTH MAP_HEIGHT gameMap0
  ∧ (Z.to_nat (2 * MAP_WIDTH * MAP_HEIGHT) ≤ Z.to_nat 125000)%nat
  ∧ ∃ g, generateMaze MAP_WIDTH MAP_HEIGHT cfg_both (Z.to_nat 125000)
           gen_first genF_top_first gameMap0 = Ok g
         ∧ ∀ x y, Z.odd x = true → Z.odd y = true →
                  0 < x < MAP_WIDTH - 1 → 0 < y < MAP_HEIGHT - 1 →
                  getCell MAP_WIDTH MAP_HEIGHT g x y = 0.
Proof.
  split; [exact wf_gameMap0|]. split; [exact fuel_125000|].
  exact (lattice_cells_open 250 250 three_le_250 three_le_250 cfg_both
           (Z.to_nat 125000) gen_first genF_top_first gameMap0 wf_gameMap0 fuel_125000).
Defined.

(** X9, an instance: the border cell (1, 0). *)
Lemma finish_is_any_border_cell_but_a_corner_witness :
  finish_enabled cfg_both = true
  ∧ wf MAP_WIDTH MAP_HEIGHT gameMap0
  ∧ (Z.to_nat (2 * MAP_WIDTH * MAP_HEIGHT) ≤ Z.to_nat 125000)%nat
  ∧ ((∃ genF g, generateMaze MAP_WIDTH MAP_HEIGHT cfg_both (Z.to_nat 125000)
                  gen_first genF gameMap0 = Ok g
                ∧ getCell MAP_WIDTH MAP_HEIGHT g 1 0 = 2)
     ↔ ((0 = 0 ∨ 0 = MAP_HEIGHT - 1) ∧ 1 ≤ 1 ≤ MAP_WIDTH - 2)
       ∨ ((1 = 0 ∨ 1 = MAP_WIDTH - 1) ∧ 1 ≤ 0 ≤ MAP_HEIGHT - 2)).
Proof.
  split; [reflexivity|]. split; [exact wf_gameMap0|]. split; [exact fuel_125000|].
  exact (finish_is_any_border_cell_but_a_corner 250 250 three_le_250 three_le_250
           cfg_both (Z.to_nat 125000) gen_first gameMap0 1 0 eq_refl
           wf_gameMap0 fuel_125000).
Defined.

(** ** The passages form a tree *)

Lemma filter_length_agree {A : Type} (P Q : A → Prop)
    `{!∀ x, Decision (P x)} `{!∀ x, Decision (Q x)} (l : list A) :
  (∀ c, c ∈ l → (P c ↔ Q c)) → length (filter P l) = length (filter Q l).
Proof.
  induction l as [|c l IH]; intros Hpq; [done|]. rewrite !filter_cons.
  assert (P c ↔ Q c) as Hc by (apply Hpq; left).
  specialize (IH (λ c' Hc', Hpq c' (list_elem_of_further _ _ _ Hc'))).
  destruct (decide (P c)), (decide (Q c)); cbn; (tauto || by rewrite IH).
Qed.

Lemma filter_length_none {A : Type} (P : A → Prop) `{!∀ x, Decision (P x)} (l : list A) :
  (∀ c, c ∈ l → ¬ P c) → length (filter P l) = 0%nat.
Proof.
  induction l as [|c l IH]; intros Hp; [done|]. rewrite filter_cons.
  destruct (decide (P c)) as [Hc|_]; [by destruct (Hp c ltac:(left))|].
  apply IH. intros c' Hc'. apply Hp. by right.
Qed.

Lemma filter_length_all {A : Type} (P : A → Prop) `{!∀ x, Decision (P x)} (l : list A) :
  (∀ c, c ∈ l → P c) → length (filter P l) = length l.
Proof.
  induction l as [|c l IH]; intros Hp; [done|]. rewrite filter_cons.
  destruct (decide (P c)) as [_|Hc]; [|by destruct Hc; apply Hp; left].
  cbn. f_equal. apply IH. intros c' Hc'. apply Hp. by right.
Qed.

(** One more element satisfies [Q] than [P] when the two differ at one
    element of a list without duplicates. *)
Lemma filter_length_flip {A : Type} (P Q : A → Prop)
    `{!∀ x, Decision (P x)} `{!∀ x, Decision (Q x)} (l : list A) c0 :
  NoDup l → c0 ∈ l → ¬ P c0 → Q c0 →
  (∀ c, c ∈ l → c ≠ c0 → (P c ↔ Q c)) →
  length (filter Q l) = S (length (filter P l)).
Proof.
  induction l as [|c l IH]; intros Hnd Hin Hp Hq Hpq.
  - by apply elem_of_nil in Hin.
  - apply NoDup_cons in Hnd as [Hnin Hnd]. rewrite !filter_cons.
    apply elem_of_cons in Hin as [<-|Hin].
    + destruct (decide (P c0)); [done|]. destruct (decide (Q c0)); [|done].
      cbn. f_equal. symmetry. apply filter_length_agree.
      intros c Hc. apply Hpq; [by right|]. by intros ->.
    + assert (c ≠ c0) as Hne by (by intros ->).
      assert (P c ↔ Q c) as Hc by (apply Hpq; [left|done]).
      specialize (IH Hnd Hin Hp Hq (λ c' Hc', Hpq c' (list_elem_of_further _ _ _ Hc'))).
      destruct (decide (P c)), (decide (Q c)); cbn; (tauto || by rewrite IH).
Qed.

Lemma odd_below n :
  0 ≤ n → Z.of_nat (length (filter (λ x, Z.odd x = true) (seqZ 0 n))) = n / 2.
Proof.
  intros Hn. rewrite <- (Z2Nat.id n Hn). clear Hn.
  induction (Z.to_nat n) as [|k IH]; [done|].
  rewrite Nat2Z.inj_succ, <- Z.add_1_r, seqZ_app by lia.
  rewrite filter_app, length_app, Nat2Z.inj_add, IH.
  change (seqZ (0 + Z.of_nat k) 1) with [0 + Z.of_nat k]. rewrite Z.add_0_l.
  rewrite filter_cons, filter_nil.
  destruct (decide (Z.odd (Z.of_nat k) = true)) as [Ho|Hne]; cbn [length].
  - apply Z.odd_spec in Ho as [j Hj]. rewrite Hj.
    replace (2 * j + 1 + 1) with ((j + 1) * 2) by lia.
    replace (2 * j + 1) with (1 + j * 2) by lia.
    rewrite Z.div_mul, Z.div_add by lia. change (1 `div` 2) with 0. cbn. lia.
  - assert (Z.even (Z.of_nat k) = true) as He
      by (rewrite <- Z.negb_odd; by destruct (Z.odd (Z.of_nat k))).
    apply Z.even_spec in He as [j Hj]. rewrite Hj.
    replace (2 * j + 1) with (1 + j * 2) by lia.
    replace (2 * j) with (j * 2) by lia.
    rewrite Z.div_mul, Z.div_add by lia. change (1 `div` 2) with 0. cbn. lia.
Qed.

Section Rooms.
Variables (W H : Z).
Hypothesis HW : 3 ≤ W.
Hypothesis HH : 3 ≤ H.

Local Abbreviation grid := (list (list Z)).

Lemma elem_of_rooms x y :
  (x, y) ∈ rooms W H
  ↔ Z.odd x = true ∧ Z.odd y = true ∧ 0 ≤ x < W - 1 ∧ 0 ≤ y < H - 1.
Proof.
  unfold rooms. rewrite list_elem_of_bind. split.
  - intros (y' & Hin & [Hoy Hy']%list_elem_of_filter). apply elem_of_seqZ in Hy'.
    apply list_elem_of_fmap in Hin as (x' & [= -> ->] & [Hox Hx']%list_elem_of_filter).
    apply elem_of_seqZ in Hx'. split; [done|]. split; [done|]. lia.
  - intros (Hox & Hoy & Hx & Hy). exists y. split.
    + apply list_elem_of_fmap. exists x. split; [done|].
      apply list_elem_of_filter. split; [done|]. apply elem_of_seqZ. lia.
    + apply list_elem_of_filter. split; [done|]. apply elem_of_seqZ. lia.
Qed.

Lemma NoDup_rooms : NoDup (rooms W H).
Proof.
  unfold rooms. apply NoDup_bind.
  - intros y1 y2 c _ _ (x1 & -> & _)%list_elem_of_fmap (x2 & [= _ ->] & _)%list_elem_of_fmap.
    done.
  - intros y _. apply NoDup_fmap_2; [by intros x1 x2 [= ->]|].
    apply NoDup_filter, NoDup_seqZ.
  - apply NoDup_filter, NoDup_seqZ.
Qed.

Lemma length_rooms : Z.of_nat (length (rooms W H)) = (W - 1) / 2 * ((H - 1) / 2).
Proof.
  unfold rooms. rewrite <- (odd_below (W - 1)), <- (odd_below (H - 1)) by lia.
  generalize (filter (λ y, Z.odd y = true) (seqZ 0 (H - 1))) as ys.
  generalize (filter (λ x, Z.odd x = true) (seqZ 0 (W - 1))) as xs.
  intros xs ys. induction ys as [|y ys IH]; [cbn; lia|].
  rewrite bind_cons, length_app, length_fmap, Nat2Z.inj_add, IH. cbn [length]. lia.
Qed.

(** The neighbour [(nx, ny)] two cells away and the wall cell between, for
    each of the four directions. *)
Lemma wall_between_cases cx cy d :
  d ∈ directions →
  let nx := cx + d.1 in
  let ny := cy + d.2 in
  let wx := cx + Z.quot (nx - cx) 2 in
  let wy := cy + Z.quot (ny - cy) 2 in
  (ny = cy ∧ wy = cy ∧ (nx = cx + 2 ∧ wx = cx + 1 ∨ nx = cx - 2 ∧ wx = cx - 1))
  ∨ (nx = cx ∧ wx = cx ∧ (ny = cy + 2 ∧ wy = cy + 1 ∨ ny = cy - 2 ∧ wy = cy - 1)).
Proof.
  unfold directions. rewrite !elem_of_cons, elem_of_nil.
  intros [->|[->|[->|[->|[]]]]]; cbn [fst snd]; cbv zeta;
    rewrite !Z.add_simpl_l;
    change ((-2) `quot` 2) with (-1); change (2 `quot` 2) with 1;
    change (0 `quot` 2) with 0; lia.
Qed.

(** The backtracking loop opens two cells for every room it enters: the cells
    it has opened are one fewer than twice the rooms among them. *)
Lemma carve_tree fuel gen (g0 g3 : grid) :
  wf W H g0 → carve W H fuel gen g0 = Ok g3 →
  Z.of_nat (count_cells (λ c : Z, c =? 0) g3) + 1
  = 2 * Z.of_nat (length (filter (λ c : Z * Z, cell W H g3 c.1 c.2 = 0) (rooms W H))).
Proof.
  intros Hwf Hc. unfold carve in Hc.
  destruct (carve_start W H HW HH g0 Hwf) as (g1 & g2 & Hg1 & Hg2 & Hinv2 & Hrest).
  rewrite Hg1 in Hc. cbn [mbind result_bind] in Hc.
  rewrite Hg2 in Hc. cbn [mbind result_bind] in Hc.
  destruct (fill_walls_spec W H g0 ltac:(lia) ltac:(lia) Hwf) as (g1' & Hg1' & Hwf1 & Hall).
  rewrite Hg1 in Hg1'. injection Hg1' as <-.
  pose (Q := λ g : grid,
          ∀ x y, 0 ≤ x < W → 0 ≤ y < H → cell W H g x y = 0 →
                 (Z.odd x = false → cell W H g (x - 1) y = 0 ∧ cell W H g (x + 1) y = 0)
                 ∧ (Z.odd y = false →
                    cell W H g x (y - 1) = 0 ∧ cell W H g x (y + 1) = 0)).
  pose (I := λ (g : grid) (st : list (Z * Z)),
          carve_inv W H g st ∧ Q g
          ∧ Z.of_nat (count_cells (λ c : Z, c =? 0) g) + 1
            = 2 * Z.of_nat (length (filter (λ c : Z * Z, cell W H g c.1 c.2 = 0)
                                      (rooms W H)))).
  enough (I g3 []) as (_ & _ & Hcount) by exact Hcount.
  apply (carve_loop_invariant W H I gen) with (fuel := fuel) (k := 0%nat) (g := g2)
    (st := [(1, 1)]); [| |exact Hc].
  2:{ split; [done|]. split.
      - intros x y Hx Hy H0.
        destruct (decide ((x, y) = (1, 1))) as [[= -> ->]|Hne]; [done|].
        rewrite Hrest in H0 by done. done.
      - assert (count_cells (λ c : Z, c =? 0) g1 = 0%nat) as Hc1.
        { apply count_cells_zero. intros i row j u Hi Hj.
          pose proof (rd_lookup W H g1 i j row u Hwf1 Hi Hj) as Hrd.
          pose proof (rd_in_range W H _ _ _ _ Hrd) as Hin%in_range_spec.
          pose proof (Hall _ _ (proj1 Hin) (proj2 Hin)) as H1.
          unfold cell in H1. rewrite Hrd in H1. cbn in H1. by rewrite H1. }
        pose proof (count_cells_wr W H (λ c : Z, c =? 0) g1 g2 1 1 0 (cell W H g1 1 1)
                      Hg2 (cell_rd W H g1 1 1 Hwf1 ltac:(lia) ltac:(lia))) as Hcw.
        rewrite Hall in Hcw by lia. cbn in Hcw.
        rewrite (filter_length_flip (λ c : Z * Z, cell W H g1 c.1 c.2 = 0)
                   (λ c : Z * Z, cell W H g2 c.1 c.2 = 0) (rooms W H) (1, 1)).
        + rewrite filter_length_none; [lia|].
          intros [x y] (_ & _ & Hx & Hy)%elem_of_rooms. cbn.
          rewrite Hall by lia. done.
        + apply NoDup_rooms.
        + apply elem_of_rooms. split; [done|]. split; [done|]. lia.
        + cbn. rewrite Hall by lia. done.
        + cbn. exact (inv_start _ _ _ _ Hinv2).
        + intros [x y] (_ & _ & Hx & Hy)%elem_of_rooms Hne. cbn.
          rewrite Hall, Hrest by (done || lia). done. }
  clear g0 g1 g2 g3 Hwf Hc Hg1 Hg2 Hinv2 Hrest Hwf1 Hall.
  intros k g st k' g' st' (Hinv & HQ & Hcount) Hs.
  destruct st as [|[cx cy] rest]; [by injection Hs as <- <- <-|].
  destruct (carve_step_decreases W H gen k g _ Hinv ltac:(done))
    as (k1 & g1 & st1 & Hs1 & Hinv1 & _).
  rewrite Hs in Hs1. injection Hs1 as <- <- <-. split; [done|].
  unfold carve_step in Hs.
  destruct (neighbors W H g cx cy) as [|n ns] eqn:Hn; [by injection Hs as <- <- <-|].
  rewrite <- Hn in Hs.
  destruct (neighbors W H g cx cy !! _) as [[nx ny]|] eqn:Hl; [|done].
  apply list_elem_of_lookup_2, elem_of_neighbors in Hl
    as ((d & Hd & -> & ->) & Hnx & Hny & Hn1).
  destruct (inv_stack _ _ _ _ Hinv cx cy ltac:(left)) as (Hox & Hoy & Hcx & Hcy & Hc0).
  pose proof (wall_between_cases cx cy d Hd) as Hcases. cbv zeta in Hcases.
  destruct (wr W H g _ _ 0) as [ga|] eqn:Hga; [|done]. cbn in Hs.
  destruct (wr W H ga _ _ 0) as [gb|] eqn:Hgb; [|done]. cbn in Hs.
  injection Hs as <- <- <-.
  pose proof (inv_wf _ _ _ _ Hinv) as Hwfg.
  destruct (carve_two W H g ga gb _ _ _ _ Hwfg Hga Hgb)
    as (Hwfb & Hbn & Hbw & Hoth).
  set (wx := cx + (cx + d.1 - cx) `quot` 2) in *.
  set (wy := cy + (cy + d.2 - cy) `quot` 2) in *.
  set (nx := cx + d.1) in *. set (ny := cy + d.2) in *.
  clearbody wx wy nx ny. clear d Hd Hn n ns.
  assert (Z.odd nx = true ∧ Z.odd ny = true
          ∧ (Z.odd wx = false ∧ Z.odd wy = true ∨ Z.odd wx = true ∧ Z.odd wy = false))
    as (Honx & Hony & Hparity).
  { destruct Hcases as [(-> & -> & [[-> ->]|[-> ->]])|(-> & -> & [[-> ->]|[-> ->]])];
      rewrite ?Z.odd_add, ?Z.odd_sub, ?Hox, ?Hoy; cbn; auto. }
  assert (0 ≤ wx < W ∧ 0 ≤ wy < H) as [Hwx Hwy] by lia.
  assert ((wx, wy) ≠ (nx, ny)) as Hwn by (intros [= ? ?]; lia).
  assert (∀ x y, cell W H g x y = 0 → cell W H gb x y = 0) as Hmono.
  { intros x y H0.
    destruct (decide ((x, y) = (nx, ny))) as [[= -> ->]|Hnn]; [done|].
    destruct (decide ((x, y) = (wx, wy))) as [[= -> ->]|Hnw]; [done|].
    by rewrite Hoth. }
  assert (cell W H g wx wy = 1) as Hw1.
  { destruct (inv_binary _ _ _ _ Hinv wx wy Hwx Hwy) as [H0|H1]; [|done]. exfalso.
    destruct (HQ wx wy Hwx Hwy H0) as [Hh Hv].
    destruct Hcases as [(-> & -> & [[-> ->]|[-> ->]])|(-> & -> & [[-> ->]|[-> ->]])].
    - destruct Hparity as [[Hpx _]|[_ Hpy]]; [|congruence].
      destruct (Hh Hpx) as [_ Hr]. replace (cx + 1 + 1) with (cx + 2) in Hr by lia.
      congruence.
    - destruct Hparity as [[Hpx _]|[_ Hpy]]; [|congruence].
      destruct (Hh Hpx) as [Hr _]. replace (cx - 1 - 1) with (cx - 2) in Hr by lia.
      congruence.
    - destruct Hparity as [[Hpx _]|[_ Hpy]]; [congruence|].
      destruct (Hv Hpy) as [_ Hr]. replace (cy + 1 + 1) with (cy + 2) in Hr by lia.
      congruence.
    - destruct Hparity as [[Hpx _]|[_ Hpy]]; [congruence|].
      destruct (Hv Hpy) as [Hr _]. replace (cy - 1 - 1) with (cy - 2) in Hr by lia.
      congruence. }
  split.
  - (* the walls between rooms *)
    intros x y Hx Hy H0.
    destruct (decide ((x, y) = (nx, ny))) as [[= -> ->]|Hnn].
    { split; intros ?; congruence. }
    destruct (decide ((x, y) = (wx, wy))) as [[= -> ->]|Hnw].
    { assert (cell W H gb cx cy = 0) as Hbc by (by apply Hmono).
      destruct Hcases as [(-> & -> & [[-> ->]|[-> ->]])|(-> & -> & [[-> ->]|[-> ->]])].
      - split; [intros _|intros ?; congruence].
        replace (cx + 1 - 1) with cx by lia. replace (cx + 1 + 1) with (cx + 2) by lia.
        done.
      - split; [intros _|intros ?; congruence].
        replace (cx - 1 + 1) with cx by lia. replace (cx - 1 - 1) with (cx - 2) by lia.
        done.
      - split; [intros ?; congruence|intros _].
        replace (cy + 1 - 1) with cy by lia. replace (cy + 1 + 1) with (cy + 2) by lia.
        done.
      - split; [intros ?; congruence|intros _].
        replace (cy - 1 + 1) with cy by lia. replace (cy - 1 - 1) with (cy - 2) by lia.
        done. }
    rewrite Hoth in H0 by done. destruct (HQ x y Hx Hy H0) as [Hh Hv].
    split; intros Hpar.
    + destruct (Hh Hpar). split; by apply Hmono.
    + destruct (Hv Hpar). split; by apply Hmono.
  - (* the count *)
    pose proof (count_cells_wr W H (λ c : Z, c =? 0) g ga wx wy 0 (cell W H g wx wy)
                  Hga (cell_rd W H g wx wy Hwfg Hwx Hwy)) as Hca.
    rewrite Hw1 in Hca. cbn in Hca.
    assert (wf W H ga) as Hwfa by exact (wr_wf W H g wx wy 0 ga Hwfg Hga).
    pose proof (count_cells_wr W H (λ c : Z, c =? 0) ga gb nx ny 0 (cell W H ga nx ny)
                  Hgb (cell_rd W H ga nx ny Hwfa ltac:(lia) ltac:(lia))) as Hcb.
    rewrite (cell_wr_other W H g ga wx wy 0 nx ny Hga) in Hcb
      by (intros Heq; apply Hwn; by rewrite Heq).
    rewrite Hn1 in Hcb. cbn in Hcb.
    rewrite (filter_length_flip (λ c : Z * Z, cell W H g c.1 c.2 = 0)
               (λ c : Z * Z, cell W H gb c.1 c.2 = 0) (rooms W H) (nx, ny)).
    + lia.
    + apply NoDup_rooms.
    + apply elem_of_rooms. split; [done|]. split; [done|]. lia.
    + cbn. rewrite Hn1. done.
    + done.
    + intros [x y] (Hox' & Hoy' & _)%elem_of_rooms Hne. cbn. rewrite Hoth; [done|done|].
      intros [= -> ->]. destruct Hparity as [[? _]|[_ ?]]; congruence.
Qed.

(** The backtracking loop opens all [R] rooms and [R - 1] walls between
    them. *)
Lemma carve_count fuel gen (g0 : grid) :
  wf W H g0 → (Z.to_nat (2 * W * H) ≤ fuel)%nat →
  ∃ g3, carve W H fuel gen g0 = Ok g3 ∧ carve_inv W H g3 []
        ∧ Z.of_nat (count_cells (λ c : Z, c =? 0) g3)
          = 2 * ((W - 1) / 2 * ((H - 1) / 2)) - 1.
Proof.
  intros Hwf Hfuel.
  destruct (carve_spec W H HW HH fuel gen g0 Hwf Hfuel) as (g3 & Hc & Hinv).
  exists g3. split; [done|]. split; [done|].
  assert (∀ c, c ∈ rooms W H → cell W H g3 c.1 c.2 = 0) as Hopen.
  { intros [x y] (Hox & Hoy & Hx & Hy)%elem_of_rooms. cbn.
    apply (carve_complete W H HW HH g3 Hinv x y Hox Hoy).
    - destruct (decide (x = 0)) as [->|]; [done|lia].
    - destruct (decide (y = 0)) as [->|]; [done|lia]. }
  pose proof (carve_tree fuel gen g0 g3 Hwf Hc) as Ht.
  rewrite filter_length_all in Ht by done.
  rewrite <- length_rooms. lia.
Qed.

(** X10: [generateMaze] builds a perfect maze.  With
    [R = ((W - 1) / 2) * ((H - 1) / 2)] rooms (lattice cells), which are all
    open, the backtracking loop opens exactly [2 * R - 1] cells: the rooms
    and [R - 1] walls between them, one passage fewer than rooms, so that the
    passages form a tree and no route goes round in a loop.  The passage next
    to the finish is the only cell that can be opened besides, so the maze
    returned has [2 * R - 1] or [2 * R] empty cells and at most one loop. *)
Theorem generateMaze_opens_a_tree cfg fuel gen genF (g0 : grid) :
  wf W H g0 → (Z.to_nat (2 * W * H) ≤ fuel)%nat →
  ∃ g, generateMaze W H cfg fuel gen genF g0 = Ok g
       ∧ Z.of_nat (length (rooms W H)) = (W - 1) / 2 * ((H - 1) / 2)
       ∧ 2 * ((W - 1) / 2 * ((H - 1) / 2)) - 1
         ≤ Z.of_nat (count_cells (λ c : Z, c =? 0) g)
         ≤ 2 * ((W - 1) / 2 * ((H - 1) / 2))
       ∧ (finish_enabled cfg = false →
          Z.of_nat (count_cells (λ c : Z, c =? 0) g)
          = 2 * ((W - 1) / 2 * ((H - 1) / 2)) - 1).
Proof.
  intros Hwf Hfuel.
  destruct (carve_count fuel gen g0 Hwf Hfuel) as (g3 & Hc & Hinv & Hcount).
  pose proof (inv_wf _ _ _ _ Hinv) as Hwf3.
  unfold generateMaze. rewrite Hc. cbn [mbind result_bind].
  rewrite (force_borders_id W H HW HH g3 Hinv). cbn [mbind result_bind].
  destruct (finish_enabled cfg).
  2:{ exists g3. split; [done|]. split; [apply length_rooms|]. split; [lia|done]. }
  rewrite (placeRandomFinish_unfold W H).
  destruct (finish_cell W H genF) as [fx fy] eqn:Hf.
  destruct (passage_cell W H genF) as [px py] eqn:Hp.
  destruct (finish_geometry W H HW HH genF fx fy px py Hf Hp)
    as (Hfx & Hfy & Hb & Hpx & Hpy & _ & _). cbn [fst snd].
  destruct (wr_Ok W H g3 px py 0) as [g1 Hg1]; [apply in_range_spec; lia|].
  rewrite Hg1. cbn [mbind result_bind].
  assert (wf W H g1) as Hwf1 by exact (wr_wf W H g3 px py 0 g1 Hwf3 Hg1).
  destruct (wr_Ok W H g1 fx fy 2) as [g Hg]; [apply in_range_spec; lia|].
  rewrite Hg. exists g. split; [done|]. split; [apply length_rooms|].
  pose proof (count_cells_wr W H (λ c : Z, c =? 0) g3 g1 px py 0 (cell W H g3 px py)
                Hg1 (cell_rd W H g3 px py Hwf3 ltac:(lia) ltac:(lia))) as Hc1.
  pose proof (count_cells_wr W H (λ c : Z, c =? 0) g1 g fx fy 2 (cell W H g1 fx fy)
                Hg (cell_rd W H g1 fx fy Hwf1 Hfx Hfy)) as Hc2.
  rewrite (cell_wr_other W H g3 g1 px py 0 fx fy Hg1) in Hc2.
  2:{ intros [= -> ->]. apply on_border_true in Hb. lia. }
  rewrite (carve_border_walls W H g3 Hinv fx fy Hfx Hfy Hb) in Hc2.
  cbn in Hc1, Hc2.
  split; [|done].
  destruct (inv_binary _ _ _ _ Hinv px py ltac:(lia) ltac:(lia)) as [H0|H1].
  - rewrite H0 in Hc1. cbn in Hc1. lia.
  - rewrite H1 in Hc1. cbn in Hc1. lia.
Qed.

End Rooms.

(** X10, an instance: the program's map has 124 * 124 rooms. *)
Lemma generateMaze_opens_a_tree_witness :
  wf MAP_WIDTH MAP_HEIGHT gameMap0
  ∧ (Z.to_nat (2 * MAP_WIDTH * MAP_HEIGHT) ≤ Z.to_nat 125000)%nat
  ∧ ∃ g, generateMaze MAP_WIDTH MAP_HEIGHT cfg_both (Z.to_nat 125000)
           gen_first genF_top_first gameMap0 = Ok g
         ∧ Z.of_nat (length (rooms MAP_WIDTH MAP_HEIGHT))
           = (MAP_WIDTH - 1) / 2 * ((MAP_HEIGHT - 1) / 2)
         ∧ 2 * ((MAP_WIDTH - 1) / 2 * ((MAP_HEIGHT - 1) / 2)) - 1
           ≤ Z.of_nat (count_cells (λ c : Z, c =? 0) g)
           ≤ 2 * ((MAP_WIDTH - 1) / 2 * ((MAP_HEIGHT - 1) / 2))
         ∧ (finish_enabled cfg_both = false →
            Z.of_nat (count_cells (λ c : Z, c =? 0) g)
            = 2 * ((MAP_WIDTH - 1) / 2 * ((MAP_HEIGHT - 1) / 2)) - 1).
Proof.
  split; [exact wf_gameMap0|]. split; [exact fuel_125000|].
  exact (generateMaze_opens_a_tree 250 250 three_le_250 three_le_250 cfg_both
           (Z.to_nat 125000) gen_first genF_top_first gameMap0 wf_gameMap0 fuel_125000).
Defined.

(** ** When the level can be won *)

Section Winnable.
Variables (W H : Z).
Hypothesis HW : 3 ≤ W.
Hypothesis HH : 3 ≤ H.
Hypothesis HeW : Z.even W = true.
Hypothesis HeH : Z.even H = true.

Local Abbreviation grid := (list (list Z)).

(** X11: when the finish can be reached, on a map of even dimensions as the
    program's.  The passage next to a finish on the top or left border is
    always reached by the flood fill from the start; the passage of a finish
    on the bottom (right) border is reached exactly when the cell above it
    (to its left), in the last lattice row (column), is empty, which holds
    for every odd offset. *)
Theorem finish_reachable_iff cfg fuel gen genF (g0 : grid) :
  finish_enabled cfg = true →
  wf W H g0 → (Z.to_nat (2 * W * H) ≤ fuel)%nat →
  ∃ g, generateMaze W H cfg fuel gen genF g0 = Ok g
       ∧ (flood W H g (passage_cell W H genF)
          ↔ finish_border genF = 0 ∨ finish_border genF = 2
            ∨ (finish_border genF = 1
               ∧ getCell W H g (passage_cell W H genF).1 (H - 3) = 0)
            ∨ (finish_border genF = 3
               ∧ getCell W H g (W - 3) (passage_cell W H genF).2 = 0))
       ∧ (finish_border genF = 1 → Z.odd (passage_cell W H genF).1 = true →
          flood W H g (passage_cell W H genF))
       ∧ (finish_border genF = 3 → Z.odd (passage_cell W H genF).2 = true →
          flood W H g (passage_cell W H genF)).
Proof.
  intros Hen Hwf Hfuel.
  destruct (generateMaze_stages W H HW HH cfg fuel gen genF g0 Hwf Hfuel)
    as (g3 & g & _ & Hinv & Hg & Hwg & _ & Hon).
  destruct (generateMaze_flood W H HW HH cfg fuel gen genF g0 Hwf Hfuel)
    as (g' & Hg' & Hflood).
  rewrite Hg in Hg'. injection Hg' as <-.
  destruct (Hon Hen) as (H2 & H0 & Hoth). clear Hon.
  exists g. split; [done|].
  pose proof (Z.even_spec W) as [HW2 _]. destruct (HW2 HeW) as [w Hw]. clear HW2.
  pose proof (Z.even_spec H) as [HH2 _]. destruct (HH2 HeH) as [h Hh]. clear HH2.
  assert (lattice_bound W = W - 3) as HlW by (unfold lattice_bound; by rewrite HeW).
  assert (lattice_bound H = H - 3) as HlH by (unfold lattice_bound; by rewrite HeH).
  assert (Z.odd (W - 3) = true) as HoW
    by (rewrite Z.odd_sub, <- Z.negb_even, HeW; reflexivity).
  assert (Z.odd (H - 3) = true) as HoH
    by (rewrite Z.odd_sub, <- Z.negb_even, HeH; reflexivity).
  pose proof (finish_cases W H HW HH genF) as Hcases. cbv zeta in Hcases.
  destruct (finish_cell W H genF) as [fx fy] eqn:Hf.
  destruct (passage_cell W H genF) as [px py] eqn:Hp. cbn [fst snd] in *.
  assert (getCell W H g px py = 0) as Hp0.
  { destruct (finish_geometry W H HW HH genF fx fy px py Hf Hp)
      as (_ & _ & _ & Hpx & Hpy & _). rewrite getCell_in by lia. done. }
  (* an empty cell other than the passage is a flooded cell of the lattice *)
  assert (∀ x y, getCell W H g x y = 0 → (x, y) ≠ (px, py) →
                 flood W H g (x, y) ∧ x ≤ W - 3 ∧ y ≤ H - 3) as Hopen.
  { intros x y Hxy Hne. split; [apply Hflood; [done|]; intros _ Heq; by destruct Hne|].
    destruct (getCell_not_wall W H g x y ltac:(by rewrite Hxy)) as [Hx Hy].
    rewrite getCell_in in Hxy by done.
    destruct (decide ((x, y) = (fx, fy))) as [[= -> ->]|Hnf]; [congruence|].
    rewrite (Hoth x y Hnf Hne) in Hxy.
    destruct (inv_empty _ _ _ _ Hinv x y Hx Hy Hxy) as (? & ? & _). lia. }
  assert (∀ x y, adjacent (x, y) (px, py) → getCell W H g x y = 0 →
                 flood W H g (px, py)) as Hstep.
  { intros x y Hadj Hxy. apply (flood_step W H g (x, y) (px, py)); [|done|done].
    apply Hopen; [done|]. intros [= -> ->]. unfold adjacent in Hadj. cbn in Hadj. lia. }
  destruct Hcases as [(Hb & o & Ho & [= -> ->] & [= -> ->])|
    [(Hb & o & Ho & [= -> ->] & [= -> ->])|
     [(Hb & o & Ho & [= -> ->] & [= -> ->])|(Hb & o & Ho & [= -> ->] & [= -> ->])]]];
    rewrite Hb.
  - assert (flood W H g (o, 1)) as Hfl
      by (apply Hflood; [done|]; intros _ _; by left).
    split; [split; [by left|done]|]. split; intros [=].
  - split; [|split; [|intros [=]]].
    + split.
      * intros [[= -> ?]|((x & y) & Hadj & Hxy)]%flood_inv; [lia|].
        cbn [fst snd] in Hxy. right. right. left. split; [done|].
        destruct (decide ((x, y) = (o, H - 3))) as [[= -> ->]|Hne]; [done|].
        exfalso. destruct (decide ((x, y) = (o, H - 1))) as [[= -> ->]|Hnf].
        { rewrite getCell_in in Hxy by lia. congruence. }
        destruct (Hopen x y Hxy) as (_ & _ & Hy).
        { intros [= -> ->]. unfold adjacent in Hadj. cbn in Hadj. lia. }
        unfold adjacent in Hadj. cbn in Hadj.
        assert (x = o → y = H - 3 → False) by (intros -> ->; done).
        assert (x = o → y = H - 1 → False) by (intros -> ->; done). lia.
      * intros [[=]|[[=]|[[_ Hup]|[[=] _]]]].
        apply (Hstep o (H - 3)); [|done]. unfold adjacent. cbn. lia.
    + intros _ Hodd. apply (Hstep o (H - 3)); [unfold adjacent; cbn; lia|].
      rewrite getCell_in by lia.
      destruct (decide ((o, H - 3) = (o, H - 1))) as [[= ?]|Hnf]; [lia|].
      rewrite Hoth; [|done|intros [= ?]; lia].
      apply (carve_complete W H HW HH g3 Hinv); [done|done| |lia].
      destruct (decide (o = W - 2)) as [->|]; [|lia].
      rewrite Z.odd_sub, <- Z.negb_even, HeW in Hodd. done.
  - assert (flood W H g (1, o)) as Hfl
      by (apply Hflood; [done|]; intros _ _; by right).
    split; [split; [by right; left|done]|]. split; intros [=].
  - split; [|split; [intros [=]|]].
    + split.
      * intros [[= ? ->]|((x & y) & Hadj & Hxy)]%flood_inv; [lia|].
        cbn [fst snd] in Hxy. right. right. right. split; [done|].
        destruct (decide ((x, y) = (W - 3, o))) as [[= -> ->]|Hne]; [done|].
        exfalso. destruct (decide ((x, y) = (W - 1, o))) as [[= -> ->]|Hnf].
        { rewrite getCell_in in Hxy by lia. congruence. }
        destruct (Hopen x y Hxy) as (_ & Hx & _).
        { intros [= -> ->]. unfold adjacent in Hadj. cbn in Hadj. lia. }
        unfold adjacent in Hadj. cbn in Hadj.
        assert (x = W - 3 → y = o → False) by (intros -> ->; done).
        assert (x = W - 1 → y = o → False) by (intros -> ->; done). lia.
      * intros [[=]|[[=]|[[[=] _]|[_ Hleft]]]].
        apply (Hstep (W - 3) o); [|done]. unfold adjacent. cbn. lia.
    + intros _ Hodd. apply (Hstep (W - 3) o); [unfold adjacent; cbn; lia|].
      rewrite getCell_in by lia.
      destruct (decide ((W - 3, o) = (W - 1, o))) as [[= ?]|Hnf]; [lia|].
      rewrite Hoth; [|done|intros [= ?]; lia].
      apply (carve_complete W H HW HH g3 Hinv); [done|done|lia|].
      destruct (decide (o = H - 2)) as [->|]; [|lia].
      rewrite Z.odd_sub, <- Z.negb_even, HeH in Hodd. done.
Qed.

End Winnable.

(** X11, an instance: a finish in the first column of the bottom border. *)
Lemma finish_reachable_iff_witness :
  Z.even MAP_WIDTH = true ∧ Z.even MAP_HEIGHT = true
  ∧ finish_enabled cfg_both = true
  ∧ wf MAP_WIDTH MAP_HEIGHT gameMap0
  ∧ (Z.to_nat (2 * MAP_WIDTH * MAP_HEIGHT) ≤ Z.to_nat 125000)%nat
  ∧ ∃ g, generateMaze MAP_WIDTH MAP_HEIGHT cfg_both (Z.to_nat 125000)
           gen_first genF_bottom_first gameMap0 = Ok g
         ∧ (flood MAP_WIDTH MAP_HEIGHT g (passage_cell MAP_WIDTH MAP_HEIGHT genF_bottom_first)
            ↔ finish_border genF_bottom_first = 0 ∨ finish_border genF_bottom_first = 2
              ∨ (finish_border genF_bottom_first = 1
                 ∧ getCell MAP_WIDTH MAP_HEIGHT g
                     (passage_cell MAP_WIDTH MAP_HEIGHT genF_bottom_first).1
                     (MAP_HEIGHT - 3) = 0)
              ∨ (finish_border genF_bottom_first = 3
                 ∧ getCell MAP_WIDTH MAP_HEIGHT g (MAP_WIDTH - 3)
                     (passage_cell MAP_WIDTH MAP_HEIGHT genF_bottom_first).2 = 0))
         ∧ (finish_border genF_bottom_first = 1 →
            Z.odd (passage_cell MAP_WIDTH MAP_HEIGHT genF_bottom_first).1 = true →
            flood MAP_WIDTH MAP_HEIGHT g
              (passage_cell MAP_WIDTH MAP_HEIGHT genF_bottom_first))
         ∧ (finish_border genF_bottom_first = 3 →
            Z.odd (passage_cell MAP_WIDTH MAP_HEIGHT genF_bottom_first).2 = true →
            flood MAP_WIDTH MAP_HEIGHT g
              (passage_cell MAP_WIDTH MAP_HEIGHT genF_bottom_first)).
Proof.
  split; [reflexivity|]. split; [reflexivity|]. split; [reflexivity|].
  split; [exact wf_gameMap0|]. split; [exact fuel_125000|].
  exact (finish_reachable_iff 250 250 three_le_250 three_le_250 eq_refl eq_refl
           cfg_both (Z.to_nat 125000) gen_first genF_bottom_first gameMap0
           eq_refl wf_gameMap0 fuel_125000).
Defined.

(** ** The exploration tracker as a set of cells *)

Section TrackerMore.
Variables (W H : Z).
Hypothesis HW : 0 ≤ W.
Hypothesis HH : 0 ≤ H.
Hypothesis Hint : W * H ≤ Int.INT_MAX.

Local Abbreviation rdV := (rd (A:=bool) W H).

(** The bitmap and the count follow the list [seen] of the distinct cells
    recorded so far. *)
Lemma recordVisits_seen cells : ∀ t seen,
  tracker_ok W H t → NoDup seen →
  (∀ x y, rdV (visitedCells t) x y = Some true ↔ (x, y) ∈ seen) →
  distinctVisited t = Z.of_nat (length seen) →
  ∃ t' seen',
    recordVisits W H cells t = Ok t' ∧ tracker_ok W H t' ∧ NoDup seen'
    ∧ (∀ x y, rdV (visitedCells t') x y = Some true ↔ (x, y) ∈ seen')
    ∧ distinctVisited t' = Z.of_nat (length seen')
    ∧ ∀ x y, (x, y) ∈ seen' ↔ (x, y) ∈ seen ∨ ((x, y) ∈ cells ∧ 0 ≤ x < W ∧ 0 ≤ y < H).
Proof.
  induction cells as [|[cx cy] cells IH]; intros t seen Hok Hnd Hbit Hcnt.
  - exists t, seen. split; [done|]. split; [done|]. split; [done|]. split; [done|].
    split; [done|]. intros x y. rewrite elem_of_nil. tauto.
  - cbn [recordVisits].
    destruct (decide (0 ≤ cx < W ∧ 0 ≤ cy < H)) as [[Hx Hy]|Hout].
    + destruct (rd_is_Some W H (visitedCells t) cx cy (proj1 Hok)
                  ltac:(apply in_range_spec; lia)) as [b Hb].
      destruct b.
      * rewrite (recordVisit_noop W H cx cy t) by (by right). cbn [mbind result_bind].
        destruct (IH t seen Hok Hnd Hbit Hcnt)
          as (t' & seen' & Hr & Hok' & Hnd' & Hbit' & Hcnt' & Hel).
        exists t', seen'. split; [done|]. split; [done|]. split; [done|].
        split; [done|]. split; [done|]. intros x y. rewrite Hel, elem_of_cons.
        split; [tauto|]. intros [?|[[[= -> ->]|?] ?]]; [tauto| |tauto].
        left. by apply Hbit.
      * destruct (recordVisit_fresh W H HW HH Hint cx cy t Hok Hb)
          as (t1 & -> & Hok1 & Hb1 & Hc1 & Hoth). cbn [mbind result_bind].
        assert ((cx, cy) ∉ seen) as Hfresh
          by (intros Hin%Hbit; congruence).
        destruct (IH t1 ((cx, cy) :: seen) Hok1)
          as (t' & seen' & Hr & Hok' & Hnd' & Hbit' & Hcnt' & Hel).
        { by constructor. }
        { intros x y. rewrite elem_of_cons.
          destruct (decide ((x, y) = (cx, cy))) as [[= -> ->]|Hne]; [tauto|].
          rewrite (Hoth x y Hne), Hbit. tauto. }
        { cbn [length]. lia. }
        exists t', seen'. split; [done|]. split; [done|]. split; [done|].
        split; [done|]. split; [done|]. intros x y. rewrite Hel, !elem_of_cons.
        split; [intros [[[= -> ->]|?]|?]; tauto|].
        intros [?|[[[= -> ->]|?] ?]]; tauto.
    + rewrite (recordVisit_noop W H cx cy t) by (by left). cbn [mbind result_bind].
      destruct (IH t seen Hok Hnd Hbit Hcnt)
        as (t' & seen' & Hr & Hok' & Hnd' & Hbit' & Hcnt' & Hel).
      exists t', seen'. split; [done|]. split; [done|]. split; [done|].
      split; [done|]. split; [done|]. intros x y. rewrite Hel, elem_of_cons.
      split; [tauto|]. intros [?|[[[= -> ->]|?] ?]]; tauto.
Qed.

(** X12: [distinctVisited] is what its name says.  After [initVisited] and
    any sequence of [updateVisited] calls the count is the number of distinct
    cells inside the map among the cells the calls named, and a cell is marked
    in [visitedCells] exactly when it is one of them. *)
Theorem distinctVisited_counts_distinct_cells t0 cells :
  wf W H (visitedCells t0) →
  ∃ t1 t,
    initVisited W H t0 = Ok t1 ∧ recordVisits W H cells t1 = Ok t
    ∧ distinctVisited t
      = Z.of_nat (length (remove_dups
                            (filter (λ c, in_range W H c.1 c.2 = true) cells)))
    ∧ ∀ x y, rdV (visitedCells t) x y = Some true
             ↔ (x, y) ∈ cells ∧ 0 ≤ x < W ∧ 0 ≤ y < H.
Proof.
  intros Hwf.
  destruct (initVisited_spec W H HW HH t0 Hwf) as (t1 & Hi & Hok1 & Hc1 & Hall).
  destruct (recordVisits_seen cells t1 [] Hok1 NoDup_nil_2)
    as (t & seen & Hr & Hok & Hnd & Hbit & Hcnt & Hel).
  { intros x y. rewrite elem_of_nil. split; [|done]. intros Hb.
    pose proof (rd_in_range W H _ _ _ _ Hb) as Hin%in_range_spec.
    rewrite Hall in Hb by tauto. done. }
  { by rewrite Hc1. }
  exists t1, t. split; [done|]. split; [done|]. split.
  - rewrite Hcnt. f_equal. apply Permutation_length, NoDup_Permutation;
      [done|apply NoDup_remove_dups|].
    intros [x y]. rewrite Hel, elem_of_remove_dups, list_elem_of_filter, elem_of_nil.
    cbn. rewrite in_range_spec. tauto.
  - intros x y. rewrite Hbit, Hel, elem_of_nil. tauto.
Qed.

End TrackerMore.

(** X12, an instance: three calls, two of them for the same cell and one for
    a cell outside the map. *)
Lemma distinctVisited_counts_distinct_cells_witness :
  wf MAP_WIDTH MAP_HEIGHT (visitedCells tracker0)
  ∧ ∃ t1 t,
      initVisited MAP_WIDTH MAP_HEIGHT tracker0 = Ok t1
      ∧ recordVisits MAP_WIDTH MAP_HEIGHT [(1, 1); (1, 1); (-1, 5)] t1 = Ok t
      ∧ distinctVisited t
        = Z.of_nat (length (remove_dups
                              (filter (λ c, in_range MAP_WIDTH MAP_HEIGHT c.1 c.2 = true)
                                 [(1, 1); (1, 1); (-1, 5)])))
      ∧ ∀ x y, rd MAP_WIDTH MAP_HEIGHT (visitedCells t) x y = Some true
               ↔ (x, y) ∈ [(1, 1); (1, 1); (-1, 5)]
                 ∧ 0 ≤ x < MAP_WIDTH ∧ 0 ≤ y < MAP_HEIGHT.
Proof.
  split; [exact wf_tracker0|].
  exact (distinctVisited_counts_distinct_cells 250 250 ltac:(lia) ltac:(lia)
           int_max_250 tracker0 [(1, 1); (1, 1); (-1, 5)] wf_tracker0).
Defined.

(** ** The collision resolver outside the map *)

Section ResolverMore.
Variables (W H : Z).
Variable obstacle : Z → bool.

(** X13: the walls that [getCell] reports outside the map never push.  The
    scanned window is clamped to the map, so when the bounding box of the
    circle lies beyond one of the map's edges no cell is tested and the
    position comes back unchanged, for the obstacle test of either variant
    of the source. *)
Theorem no_push_outside_map (g : list (list Z)) posX posY hitbox :
  ceil_int (posX + hitbox) < 0 ∨ W ≤ floor_int (posX - hitbox)
  ∨ ceil_int (posY + hitbox) < 0 ∨ H ≤ floor_int (posY - hitbox) →
  resolve_with W H obstacle g posX posY hitbox = Ok (posX, posY).
Proof.
  intros Hout. unfold resolve_with, scan_range.
  destruct (decide (ceil_int (posY + hitbox) < 0 ∨ H ≤ floor_int (posY - hitbox)))
    as [Hy|Hy].
  - apply for_range_empty. lia.
  - destruct (for_range_keeps (λ pos, pos = (posX, posY))
                (λ cy pos,
                   for_range (0 `max` floor_int (posX - hitbox))
                     ((W - 1) `min` ceil_int (posX + hitbox) + 1)
                     (λ cx pos0, resolve_cell W H obstacle g hitbox cx cy pos0) pos)
                (0 `max` floor_int (posY - hitbox))
                ((H - 1) `min` ceil_int (posY + hitbox) + 1) (posX, posY) eq_refl)
      as (pos' & -> & ->); [|done].
    intros cy pos _ ->. exists (posX, posY). split; [|done].
    apply for_range_empty. lia.
Qed.

End ResolverMore.

(** X13, an instance: five cells to the left of the 3 by 3 room. *)
Lemma no_push_outside_map_witness :
  (ceil_int (-5 + hitbox_radius) < 0 ∨ 3 ≤ floor_int (-5 - hitbox_radius)
   ∨ ceil_int (1.5 + hitbox_radius) < 0 ∨ 3 ≤ floor_int (1.5 - hitbox_radius))
  ∧ resolve_with 3 3 (λ c, c =? 1) room3 (-5) 1.5 hitbox_radius
    = Ok ((-5)%float, 1.5%float).
Proof.
  split; [left; vm_compute; reflexivity|].
  apply (no_push_outside_map 3 3 (λ c, c =? 1) room3 (-5) 1.5 hitbox_radius).
  left. vm_compute. reflexivity.
Defined.

(** ** The ray march inside a closed map *)

Section RayMore.
Variables (W H : Z).
Hypothesis HW : 3 ≤ W ≤ Int.INT_MAX.
Hypothesis HH : 3 ≤ H ≤ Int.INT_MAX.

(** On a map whose border cells are all non-empty, a march that starts off
    the border stops on a cell of the map. *)
Lemma dda_loop_closed (g : list (list Z)) stepX stepY deltaDistX deltaDistY fuel :
  stepX = -1 ∨ stepX = 1 → stepY = -1 ∨ stepY = 1 →
  (∀ x y, 0 ≤ x < W → 0 ≤ y < H → on_border W H x y = true →
          getCell W H g x y > 0) →
  ∀ m m',
    0 < mapX m < W - 1 → 0 < mapY m < H - 1 →
    dda_loop W H fuel g stepX stepY deltaDistX deltaDistY m = Ok m' →
    0 ≤ mapX m' < W ∧ 0 ≤ mapY m' < H.
Proof.
  intros HsX HsY Hclosed.
  induction fuel as [|fuel IH]; intros m m' Hx Hy Hl; [done|].
  cbn [dda_loop] in Hl.
  set (m1 := dda_step stepX stepY deltaDistX deltaDistY m) in *.
  assert (0 ≤ mapX m1 < W ∧ 0 ≤ mapY m1 < H) as [Hx1 Hy1].
  { unfold m1, dda_step. destruct (PrimFloat.ltb _ _); cbn [mapX mapY].
    - rewrite (int_add_step W H) by (lia || auto). lia.
    - rewrite (int_add_step W H) by (lia || auto). lia. }
  destruct (getCell W H g (mapX m1) (mapY m1) >? 0) eqn:Hhit.
  - by injection Hl as <-.
  - destruct (on_border W H (mapX m1) (mapY m1)) eqn:Hb.
    + pose proof (Hclosed _ _ Hx1 Hy1 Hb). lia.
    + apply (IH m1 m'); [| |done].
      * destruct (decide (0 < mapX m1 < W - 1)) as [|Hn]; [done|].
        assert (on_border W H (mapX m1) (mapY m1) = true)
          by (apply on_border_true; lia). congruence.
      * destruct (decide (0 < mapY m1 < H - 1)) as [|Hn]; [done|].
        assert (on_border W H (mapX m1) (mapY m1) = true)
          by (apply on_border_true; lia). congruence.
Qed.

(** X14: in a generated maze a ray never leaves the map.  From a position
    in an empty cell the march of every ray, whatever its direction, stops on
    a cell inside the map, a wall or the finish: the wall that [getCell]
    reports outside the map is never what a ray hits. *)
Theorem ray_hits_inside_map cfg fuel gen genF (g0 : list (list Z))
    rfuel posX posY rayDirX rayDirY :
  wf W H g0 → (Z.to_nat (2 * W * H) ≤ fuel)%nat →
  W + H ≤ Z.of_nat rfuel →
  ∃ g, generateMaze W H cfg fuel gen genF g0 = Ok g
       ∧ (getCell W H g (static_cast_int posX) (static_cast_int posY) = 0 →
          ∃ h, march_ray W H rfuel g posX posY rayDirX rayDirY = Ok h
               ∧ 0 ≤ hit_mapX h < W ∧ 0 ≤ hit_mapY h < H
               ∧ (getCell W H g (hit_mapX h) (hit_mapY h) = 1
                  ∨ getCell W H g (hit_mapX h) (hit_mapY h) = 2)).
Proof.
  intros Hwf Hfuel Hrfuel.
  destruct (generateMaze_stages W H ltac:(lia) ltac:(lia) cfg fuel gen genF g0 Hwf Hfuel)
    as (g3 & g & _ & Hinv & Hg & Hwg & Hoff & Hon).
  exists g. split; [done|]. intros Hstart.
  pose proof (carve_border_walls W H g3 Hinv) as Hbord.
  pose proof (inv_binary _ _ _ _ Hinv) as Hbin.
  assert (∀ x y, 0 ≤ x < W → 0 ≤ y < H →
                 (getCell W H g x y = 0 ∨ getCell W H g x y = 1 ∨ getCell W H g x y = 2)
                 ∧ (on_border W H x y = true → getCell W H g x y > 0)) as Hkinds.
  { intros x y Hx Hy. rewrite getCell_in by done.
    destruct (finish_enabled cfg).
    2:{ rewrite (Hoff eq_refl). split.
        - destruct (Hbin x y Hx Hy) as [-> | ->]; auto.
        - intros Hb. rewrite (Hbord x y Hx Hy Hb). lia. }
    destruct (Hon eq_refl) as (H2 & H0 & Hoth).
    destruct (finish_cell W H genF) as [fx fy] eqn:Hf.
    destruct (passage_cell W H genF) as [px py] eqn:Hp.
    destruct (finish_geometry W H ltac:(lia) ltac:(lia) genF fx fy px py Hf Hp)
      as (_ & _ & _ & Hpx & Hpy & _). cbn in H2, H0.
    destruct (decide ((x, y) = (fx, fy))) as [[= -> ->]|Hnf].
    { rewrite H2. split; [auto|lia]. }
    destruct (decide ((x, y) = (px, py))) as [[= -> ->]|Hnp].
    { rewrite H0. split; [auto|]. intros Hb%on_border_true. lia. }
    rewrite (Hoth x y Hnf Hnp). split.
    - destruct (Hbin x y Hx Hy) as [-> | ->]; auto.
    - intros Hb. rewrite (Hbord x y Hx Hy Hb). lia. }
  destruct (getCell_not_wall W H g _ _ ltac:(by rewrite Hstart)) as [Hsx Hsy].
  assert (on_border W H (static_cast_int posX) (static_cast_int posY) = false) as Hnb.
  { destruct (on_border W H _ _) eqn:Hb; [|done].
    pose proof (proj2 (Hkinds _ _ Hsx Hsy) Hb). lia. }
  assert (0 < static_cast_int posX < W - 1 ∧ 0 < static_cast_int posY < H - 1)
    as [Hix Hiy].
  { split.
    - destruct (decide (0 < static_cast_int posX < W - 1)) as [|Hn]; [done|].
      assert (on_border W H (static_cast_int posX) (static_cast_int posY) = true)
        by (apply on_border_true; lia). congruence.
    - destruct (decide (0 < static_cast_int posY < H - 1)) as [|Hn]; [done|].
      assert (on_border W H (static_cast_int posX) (static_cast_int posY) = true)
        by (apply on_border_true; lia). congruence. }
  unfold march_ray.
  match goal with
  | |- context [dda_loop W H rfuel g ?sx ?sy ?dx ?dy ?m] =>
      assert (sx = -1 ∨ sx = 1) as HsX by (destruct (PrimFloat.ltb rayDirX 0); auto);
      assert (sy = -1 ∨ sy = 1) as HsY by (destruct (PrimFloat.ltb rayDirY 0); auto);
      destruct (dda_loop_terminates W H ltac:(lia) ltac:(lia) g sx sy dx dy HsX HsY
                  rfuel m Hrfuel ltac:(lia)) as (m' & Hl & Hhit);
      pose proof (dda_loop_closed g sx sy dx dy rfuel HsX HsY
                    (λ x y Hx Hy, proj2 (Hkinds x y Hx Hy)) m m' Hix Hiy Hl)
        as [Hmx Hmy];
      rewrite Hl
  end.
  cbn [mbind result_bind]. eexists. split; [done|]. cbn [hit_mapX hit_mapY].
  split; [done|]. split; [done|].
  destruct (proj1 (Hkinds _ _ Hmx Hmy)) as [H0|[H1|H2]]; [lia|auto|auto].
Qed.

End RayMore.

(** X14, an instance: the ray straight ahead from the spawn point. *)
Lemma ray_hits_inside_map_witness :
  wf MAP_WIDTH MAP_HEIGHT gameMap0
  ∧ (Z.to_nat (2 * MAP_WIDTH * MAP_HEIGHT) ≤ Z.to_nat 125000)%nat
  ∧ MAP_WIDTH + MAP_HEIGHT ≤ Z.of_nat 500
  ∧ ∃ g, generateMaze MAP_WIDTH MAP_HEIGHT cfg_both (Z.to_nat 125000)
           gen_first genF_top_first gameMap0 = Ok g
         ∧ (getCell MAP_WIDTH MAP_HEIGHT g (static_cast_int 1.5) (static_cast_int 1.5) = 0 →
            ∃ h, march_ray MAP_WIDTH MAP_HEIGHT 500 g 1.5 1.5 1 0 = Ok h
                 ∧ 0 ≤ hit_mapX h < MAP_WIDTH ∧ 0 ≤ hit_mapY h < MAP_HEIGHT
                 ∧ (getCell MAP_WIDTH MAP_HEIGHT g (hit_mapX h) (hit_mapY h) = 1
                    ∨ getCell MAP_WIDTH MAP_HEIGHT g (hit_mapX h) (hit_mapY h) = 2)).
Proof.
  split; [exact wf_gameMap0|]. split; [exact fuel_125000|].
  split; [unfold MAP_WIDTH, MAP_HEIGHT; lia|].
  exact (ray_hits_inside_map 250 250 ltac:(unfold Int.INT_MAX; lia)
           ltac:(unfold Int.INT_MAX; lia) cfg_both (Z.to_nat 125000) gen_first
           genF_top_first gameMap0 500%nat 1.5 1.5 1 0 wf_gameMap0 fuel_125000
           ltac:(lia)).
Defined.

(** ** The renderer *)

Lemma land_63_range a : 0 ≤ Z.land a 63 < 64.
Proof.
  change 63 with (Z.ones 6). rewrite Z.land_ones by lia.
  apply Z.mod_pos_bound. lia.
Qed.

Lemma draw_start_nonneg screenHeight lineHeight : 0 ≤ draw_start screenHeight lineHeight.
Proof. unfold draw_start. cbv zeta. destruct (_ <? 0) eqn:Hlt; lia. Qed.

Lemma draw_end_below screenHeight lineHeight :
  0 < screenHeight ≤ Int.INT_MAX →
  draw_end screenHeight lineHeight ≤ screenHeight - 1.
Proof.
  intros Hsh. unfold draw_end. cbv zeta. destruct (_ >=? screenHeight) eqn:Hge.
  - unfold IntOps.sub. rewrite IntFacts.wrap_id; [lia|].
    unfold Int.representable, Int.INT_MIN. unfold Int.INT_MAX in *. lia.
  - lia.
Qed.

Section RenderFacts.
Variables (screenHeight screenPitch : Z).
Variable wallTexArr : list (list Z).
Variables (white black : Z).
Hypothesis Hheight : 0 < screenHeight.
Hypothesis Hsize : screenPitch * screenHeight ≤ Int.INT_MAX.
Hypothesis Htex : wf TEX_WIDTH TEX_HEIGHT wallTexArr.


End RenderFacts.


(** A bitwise "or" of bit fields that do not overlap is their sum. *)
Lemma lor_disjoint hi lo n :
  0 ≤ n → 0 ≤ lo < 2 ^ n → Z.lor (hi * 2 ^ n) lo = hi * 2 ^ n + lo.
Proof.
  intros Hn Hlo.
  assert (Z.land (hi * 2 ^ n) lo = 0) as Hland.
  { apply Z.bits_inj'. intros i Hi. rewrite Z.land_spec, Z.bits_0.
    destruct (decide (i < n)) as [Hlt|Hge].
    - by rewrite Z.mul_pow2_bits_low.
    - destruct (decide (lo = 0)) as [->|Hnz]; [by rewrite Z.bits_0, andb_false_r|].
      rewrite (Z.bits_above_log2 lo i), andb_false_r; [done|lia|].
      assert (Z.log2 lo < n) by (apply Z.log2_lt_pow2; lia). lia. }
  by rewrite <- (Z.lxor_lor _ _ Hland), <- (Z.add_nocarry_lxor _ _ Hland).
Qed.

(** X16: the shade of a wall hit on a Y side halves the three colour
    channels and keeps the fourth: every channel of the result is that of the
    texel shifted right by one, alpha is unchanged, no bit passes from one
    channel to the next, and the result is a [Uint32] again. *)
Theorem shade_halves_channels color :
  0 ≤ color < 2 ^ 32 →
  0 ≤ shade color < 2 ^ 32
  ∧ channel 3 (shade color) = channel 3 color
  ∧ channel 2 (shade color) = channel 2 color / 2
  ∧ channel 1 (shade color) = channel 1 color / 2
  ∧ channel 0 (shade color) = channel 0 color / 2.
Proof.
  intros Hc. unfold shade, channel. cbv zeta.
  change 255 with (Z.ones 8). rewrite !Z.land_ones by lia.
  rewrite !Z.shiftr_div_pow2, !Z.shiftl_mul_pow2 by lia.
  change (8 * 3) with 24. change (8 * 2) with 16. change (8 * 1) with 8.
  change (8 * 0) with 0. change (2 ^ 0) with 1. change (2 ^ 1) with 2.
  rewrite !Z.div_1_r.
  set (a := (color / 2 ^ 24) mod 2 ^ 8).
  set (r := (color / 2 ^ 16) mod 2 ^ 8 / 2).
  set (g := (color / 2 ^ 8) mod 2 ^ 8 / 2).
  set (b := color mod 2 ^ 8 / 2).
  assert (0 ≤ a < 256) as Ha by (apply Z.mod_pos_bound; lia).
  assert (0 ≤ r < 128) as Hr
    by (pose proof (Z.mod_pos_bound (color / 2 ^ 16) (2 ^ 8) ltac:(lia));
        subst r; split; [apply Z.div_pos; lia | apply Z.div_lt_upper_bound; lia]).
  assert (0 ≤ g < 128) as Hg
    by (pose proof (Z.mod_pos_bound (color / 2 ^ 8) (2 ^ 8) ltac:(lia));
        subst g; split; [apply Z.div_pos; lia | apply Z.div_lt_upper_bound; lia]).
  assert (0 ≤ b < 128) as Hb
    by (pose proof (Z.mod_pos_bound color (2 ^ 8) ltac:(lia));
        subst b; split; [apply Z.div_pos; lia | apply Z.div_lt_upper_bound; lia]).
  set (a' := if a <? 128 then a else a - 256).
  assert (Int.wrap (a * 2 ^ 24) = a' * 2 ^ 24) as ->.
  { unfold Int.wrap, a'. destruct (a <? 128) eqn:Hlt.
    - rewrite Z.mod_small; lia.
    - replace (a * 2 ^ 24 + 2 ^ 31) with (a * 2 ^ 24 - 2 ^ 31 + 1 * 2 ^ 32) by lia.
      rewrite Z.mod_add by lia. rewrite Z.mod_small; lia. }
  rewrite (lor_disjoint a' (r * 2 ^ 16) 24) by lia.
  replace (a' * 2 ^ 24 + r * 2 ^ 16) with ((a' * 2 ^ 8 + r) * 2 ^ 16) by lia.
  rewrite (lor_disjoint _ (g * 2 ^ 8) 16) by lia.
  replace ((a' * 2 ^ 8 + r) * 2 ^ 16 + g * 2 ^ 8)
    with (((a' * 2 ^ 8 + r) * 2 ^ 8 + g) * 2 ^ 8) by lia.
  rewrite (lor_disjoint _ b 8) by lia.
  assert ((((a' * 2 ^ 8 + r) * 2 ^ 8 + g) * 2 ^ 8 + b) mod 2 ^ 32
          = a * 2 ^ 24 + r * 2 ^ 16 + g * 2 ^ 8 + b) as ->.
  { unfold a'. destruct (a <? 128) eqn:Hlt.
    - rewrite Z.mod_small; lia.
    - replace (((((a - 256) * 2 ^ 8 + r) * 2 ^ 8 + g) * 2 ^ 8 + b))
        with (a * 2 ^ 24 + r * 2 ^ 16 + g * 2 ^ 8 + b + (-1) * 2 ^ 32) by lia.
      rewrite Z.mod_add by lia. rewrite Z.mod_small; lia. }
  clearbody a r g b. clear a'.
  split; [lia|].
  split; [|split; [|split]].
  - replace (a * 2 ^ 24 + r * 2 ^ 16 + g * 2 ^ 8 + b)
      with (r * 2 ^ 16 + g * 2 ^ 8 + b + a * 2 ^ 24) by lia.
    rewrite Z.div_add by lia. rewrite (Z.div_small (_ + b)) by lia.
    rewrite Z.mod_small; lia.
  - replace (a * 2 ^ 24 + r * 2 ^ 16 + g * 2 ^ 8 + b)
      with (g * 2 ^ 8 + b + (r + a * 2 ^ 8) * 2 ^ 16) by lia.
    rewrite Z.div_add by lia. rewrite (Z.div_small (_ + b)) by lia.
    rewrite Z.add_0_l, Z.mod_add by lia. rewrite Z.mod_small; lia.
  - replace (a * 2 ^ 24 + r * 2 ^ 16 + g * 2 ^ 8 + b)
      with (b + (g + (r + a * 2 ^ 8) * 2 ^ 8) * 2 ^ 8) by lia.
    rewrite Z.div_add by lia. rewrite (Z.div_small b) by lia.
    rewrite Z.add_0_l, Z.mod_add by lia. rewrite Z.mod_small; lia.
  - replace (a * 2 ^ 24 + r * 2 ^ 16 + g * 2 ^ 8 + b)
      with (b + ((r + a * 2 ^ 8) * 2 ^ 8 + g) * 2 ^ 8) by lia.
    rewrite Z.mod_add by lia. rewrite Z.mod_small; lia.
Qed.

(** X16, an instance: the colour 0xFF804020 becomes 0xFF402010. *)
Lemma shade_halves_channels_witness :
  0 ≤ 4286595104 < 2 ^ 32
  ∧ 0 ≤ shade 4286595104 < 2 ^ 32
  ∧ channel 3 (shade 4286595104) = channel 3 4286595104
  ∧ channel 2 (shade 4286595104) = channel 2 4286595104 / 2
  ∧ channel 1 (shade 4286595104) = channel 1 4286595104 / 2
  ∧ channel 0 (shade 4286595104) = channel 0 4286595104 / 2.
Proof.
  split; [lia|]. exact (shade_halves_channels 4286595104 ltac:(lia)).
Defined.

(** ** The level logic *)

Section LevelFacts.
Variables (W H : Z).
Variable fullscreen : bool.
Hypothesis HW : 3 ≤ W.
Hypothesis HH : 3 ≤ H.
Hypothesis Hint : W * H ≤ Int.INT_MAX.

Local Abbreviation grid := (list (list Z)).

(** What the level logic needs of [generateMaze]: it returns a map with an
    empty start cell. *)
Local Abbreviation generates generate :=
  (∀ g : grid, wf W H g →
     ∃ g' : grid, generate g = Ok g' ∧ wf W H g' ∧ getCell W H g' 1 1 = 0).

Lemma new_level_spec generate s :
  generates generate → wf W H (gameMap s) → wf W H (visitedCells (tracking s)) →
  ∃ s', new_level W H fullscreen generate s = Ok s'
        ∧ wf W H (gameMap s') ∧ tracker_ok W H (tracking s')
        ∧ distinctVisited (tracking s') = 0
        ∧ checkWin W H (gameMap s') (posX_player s') (posY_player s') = false.
Proof.
  intros Hgen Hwg Hwt. unfold new_level.
  destruct (Hgen _ Hwg) as (g' & -> & Hwg' & Hstart). cbn [mbind result_bind].
  destruct (initVisited_spec W H ltac:(lia) ltac:(lia) (tracking s) Hwt)
    as (t & -> & Hok & Hc & _). cbn [mbind result_bind].
  eexists. split; [reflexivity|]. cbn. split; [done|]. split; [done|].
  split; [done|]. unfold checkWin. change (static_cast_int 1.5) with 1.
  by rewrite Hstart.
Qed.

Lemma level_logic_spec threshold_on finish_on generate1 generate2 dx dy hitbox s :
  generates generate1 → generates generate2 →
  wf W H (gameMap s) → tracker_ok W H (tracking s) →
  ∃ s' out,
    level_logic W H fullscreen threshold_on finish_on generate1 generate2
      dx dy hitbox s = Ok (s', out)
    ∧ wf W H (gameMap s') ∧ tracker_ok W H (tracking s')
    ∧ (length out ≤ 1)%nat
    ∧ (out = [] → gameMap s' = gameMap s)
    ∧ (threshold_on = true → distinctVisited (tracking s') < explorationThreshold)
    ∧ (finish_on = true →
       checkWin W H (gameMap s') (posX_player s') (posY_player s') = false)
    ∧ (threshold_on = false →
       (ExploredEnough ∉ out) ∧ (out = [] → tracking s' = tracking s)).
Proof.
  intros Hgen1 Hgen2 Hwg Hok. unfold level_logic, updatePlayerPosition,
    resolveCircleCollision.
  destruct (resolve_with_total W H (λ c, c =? 1) (gameMap s)
              (posX_player s + dx)%float (posY_player s + dy)%float hitbox)
    as ([x y] & ->). cbn [mbind result_bind].
  set (s1 := {| gameMap := gameMap s; tracking := tracking s;
                posX_player := x; posY_player := y;
                dirX := dirX s; dirY := dirY s;
                planeX := planeX s; planeY := planeY s |}).
  (* the threshold block *)
  match goal with
  | |- context [mbind _ (if threshold_on then ?a else ?b)] =>
      set (blk := if threshold_on then a else b)
  end.
  assert (∃ s2 out,
            blk = Ok (s2, out)
            ∧ wf W H (gameMap s2) ∧ tracker_ok W H (tracking s2)
            ∧ (out = [] ∧ gameMap s2 = gameMap s
               ∨ out = [ExploredEnough] ∧ threshold_on = true
                 ∧ checkWin W H (gameMap s2) (posX_player s2) (posY_player s2) = false)
            ∧ (threshold_on = true → distinctVisited (tracking s2) < explorationThreshold)
            ∧ (threshold_on = false → s2 = s1))
    as (s2 & out & -> & Hwg2 & Hok2 & Hout & Hcnt & Hoff).
  { subst blk. destruct threshold_on.
    2:{ exists s1, []. split; [done|]. split; [done|]. split; [done|].
        split; [by left|]. split; [done|]. done. }
    unfold updateVisited.
    destruct (recordVisit_ok W H ltac:(lia) ltac:(lia) Hint
                (static_cast_int x) (static_cast_int y) (tracking s1) Hok)
      as (t & -> & Hokt & _). cbn [mbind result_bind]. cbv zeta.
    destruct (distinctVisited t >=? explorationThreshold) eqn:Hge.
    - destruct (new_level_spec generate1
                  {| gameMap := gameMap s1; tracking := t;
                     posX_player := x; posY_player := y;
                     dirX := dirX s1; dirY := dirY s1;
                     planeX := planeX s1; planeY := planeY s1 |}
                  Hgen1 Hwg (proj1 Hokt))
        as (s' & -> & Hwg' & Hok' & Hc' & Hwin'). cbn [mbind result_bind].
      exists s', [ExploredEnough]. split; [done|]. split; [done|]. split; [done|].
      split; [by right|]. split; [|done]. intros _. rewrite Hc'. done.
    - eexists _, []. split; [reflexivity|]. cbn. split; [done|]. split; [done|].
      split; [by left|]. split; [|done]. intros _. lia. }
  cbn [mbind result_bind].
  (* the finish block *)
  destruct (finish_on
            && checkWin W H (gameMap s2) (posX_player s2) (posY_player s2)) eqn:Hwin.
  - apply andb_true_iff in Hwin as [-> Hwin].
    destruct Hout as [[-> Hmap]|(_ & _ & Hno)]; [|congruence].
    destruct (new_level_spec generate2 s2 Hgen2 Hwg2 (proj1 Hok2))
      as (s' & -> & Hwg' & Hok' & Hc' & Hwin'). cbn [mbind result_bind].
    exists s', [FoundFinish]. split; [done|]. split; [done|]. split; [done|].
    split; [done|]. split; [done|]. split; [intros _; rewrite Hc'; done|].
    split; [done|]. intros _. split; [|done].
    intros [=]%list_elem_of_singleton.
  - exists s2, out. split; [done|]. split; [done|]. split; [done|].
    split; [destruct Hout as [[-> _]|(-> & _)]; cbn; lia|].
    split; [destruct Hout as [[_ ?]|(-> & _)]; done|].
    split; [done|]. split.
    + intros ->. destruct Hout as [[_ _]|(_ & _ & ?)]; [|done].
      by rewrite andb_true_l in Hwin.
    + intros Hth. rewrite (Hoff Hth).
      destruct Hout as [[-> _]|(_ & ? & _)]; [|congruence].
      split; [by intros ?%elem_of_nil|done].
Qed.

(** A property of the map that every call of the generator establishes, and
    that the map has at the start of the frame, holds at its end. *)
Lemma level_logic_map (P : grid → Prop) threshold_on finish_on generate1 generate2
    dx dy hitbox s s' out :
  (∀ g g', P g → generate1 g = Ok g' → P g') →
  (∀ g g', P g → generate2 g = Ok g' → P g') →
  P (gameMap s) →
  level_logic W H fullscreen threshold_on finish_on generate1 generate2
    dx dy hitbox s = Ok (s', out) →
  P (gameMap s').
Proof.
  intros Hgen1 Hgen2 HP. unfold level_logic.
  destruct (updatePlayerPosition _ _ _ _ _ _ _ _) as [[x y]|e];
    cbn [mbind result_bind gameMap tracking]; [|intros [=]].
  match goal with
  | |- context [mbind _ (if threshold_on then ?a else ?b)] =>
      set (blk := if threshold_on then a else b)
  end.
  assert (∀ s2 out2, blk = Ok (s2, out2) → P (gameMap s2)) as Hblk.
  { subst blk. intros s2 out2. destruct threshold_on; [|intros [= <- _]; exact HP].
    destruct (updateVisited _ _ _ _ _) as [t|e]; cbn [mbind result_bind]; [|intros [=]].
    cbv zeta. destruct (distinctVisited t >=? explorationThreshold).
    - unfold new_level. cbn [gameMap].
      destruct (generate1 (gameMap s)) as [g'|e] eqn:Hg;
        cbn [mbind result_bind]; [|intros [=]].
      destruct (initVisited _ _ _) as [t'|e]; cbn [mbind result_bind]; [|intros [=]].
      intros [= <- _]. cbn [gameMap]. by apply (Hgen1 (gameMap s)).
    - intros [= <- _]. exact HP. }
  destruct blk as [[s2 out2]|e]; cbn [mbind result_bind]; [|intros [=]].
  specialize (Hblk s2 out2 eq_refl).
  destruct (finish_on && _).
  - unfold new_level.
    destruct (generate2 (gameMap s2)) as [g'|e] eqn:Hg;
      cbn [mbind result_bind]; [|intros [=]].
    destruct (initVisited _ _ _) as [t'|e]; cbn [mbind result_bind]; [|intros [=]].
    intros [= <- _]. cbn [gameMap]. by apply (Hgen2 (gameMap s2)).
  - by intros [= <- _].
Qed.

(** In a build that places no finish, no generated map holds a finish cell. *)
Lemma generateMaze_no_finish cfg fuel gen genF (g g' : grid) :
  finish_enabled cfg = false →
  (Z.to_nat (2 * W * H) ≤ fuel)%nat →
  wf W H g →
  generateMaze W H cfg fuel gen genF g = Ok g' →
  wf W H g' ∧ ∀ x y, getCell W H g' x y ≠ Finish.
Proof.
  intros Hoff Hfuel Hwf Hg.
  destruct (generateMaze_start_empty W H HW HH cfg fuel gen genF g Hwf Hfuel)
    as (g1 & Hg1 & Hwf1 & _).
  destruct (getCell_finish_iff W H HW HH cfg fuel gen genF g Hwf Hfuel)
    as (g2 & Hg2 & Hfin).
  rewrite Hg in Hg1, Hg2. injection Hg1 as <-. injection Hg2 as <-.
  split; [done|]. intros x y Hc. apply Hfin in Hc as [Hon _]. congruence.
Qed.

(** X17: a frame's level logic leaves the level in play, in
    [raycast_maze.cpp] and in [raycast_maze-all-sdl2-only.cpp], for every
    build configuration, every step and every draw, from a state whose map
    holds no finish cell if the build places none (the zero-initialised map
    and every map such a build generates are so).  It never fails; it shows
    at most one message box; it replaces the map only together with a box;
    at its end the player does not stand on a finish cell, the map again
    holds no finish cell if the build places none, and, where the threshold
    block is compiled, the count is below the threshold of 300. *)
Theorem frame_keeps_level_in_play cfg fuel gen1 genF1 gen2 genF2 dx dy hitbox s :
  (Z.to_nat (2 * W * H) ≤ fuel)%nat →
  wf W H (gameMap s) → tracker_ok W H (tracking s) →
  (finish_enabled cfg = false → ∀ x y, getCell W H (gameMap s) x y ≠ Finish) →
  (∃ s' out,
     frame_logic W H fullscreen cfg fuel gen1 genF1 gen2 genF2 dx dy hitbox s
     = Ok (s', out)
     ∧ wf W H (gameMap s') ∧ tracker_ok W H (tracking s')
     ∧ (length out ≤ 1)%nat
     ∧ (out = [] → gameMap s' = gameMap s)
     ∧ (USE_THRESHOLD cfg = true →
        distinctVisited (tracking s') < explorationThreshold)
     ∧ checkWin W H (gameMap s') (posX_player s') (posY_player s') = false
     ∧ (finish_enabled cfg = false → ∀ x y, getCell W H (gameMap s') x y ≠ Finish))
  ∧ (∃ s' out,
       SDL2Only.frame_logic W H fullscreen cfg fuel gen1 genF1 gen2 genF2
         dx dy hitbox s = Ok (s', out)
       ∧ wf W H (gameMap s') ∧ tracker_ok W H (tracking s')
       ∧ (length out ≤ 1)%nat
       ∧ (out = [] → gameMap s' = gameMap s)
       ∧ (USE_THRESHOLD cfg || negb (USE_FINISH cfg) || USE_BOTH cfg = true →
          distinctVisited (tracking s') < explorationThreshold)
       ∧ checkWin W H (gameMap s') (posX_player s') (posY_player s') = false
       ∧ (finish_enabled cfg = false → ∀ x y, getCell W H (gameMap s') x y ≠ Finish)).
Proof.
  intros Hfuel Hwg Hok Hnofin.
  assert (∀ gen genF, generates (generateMaze W H cfg fuel gen genF)) as Hgen.
  { intros gen genF g Hg.
    exact (generateMaze_start_empty W H HW HH cfg fuel gen genF g Hg Hfuel). }
  assert (∀ th fin s' out,
            level_logic W H fullscreen th fin
              (generateMaze W H cfg fuel gen1 genF1) (generateMaze W H cfg fuel gen2 genF2)
              dx dy hitbox s = Ok (s', out) →
            finish_enabled cfg = false → ∀ x y, getCell W H (gameMap s') x y ≠ Finish)
    as Hkeep.
  { intros th fin s' out Hs Hoff.
    apply (level_logic_map (λ g, wf W H g ∧ ∀ x y, getCell W H g x y ≠ Finish)
             th fin (generateMaze W H cfg fuel gen1 genF1)
             (generateMaze W H cfg fuel gen2 genF2) dx dy hitbox s s' out);
      [| |by auto|done].
    - intros g g' [Hg _]. by apply generateMaze_no_finish.
    - intros g g' [Hg _]. by apply generateMaze_no_finish. }
  split.
  - destruct (level_logic_spec (USE_THRESHOLD cfg) (finish_enabled cfg)
                _ _ dx dy hitbox s (Hgen gen1 genF1) (Hgen gen2 genF2) Hwg Hok)
      as (s' & out & Hs & Hw' & Hok' & Hlen & Hmap & Hcnt & Hwin & _).
    exists s', out. unfold frame_logic.
    split; [done|]. split; [done|]. split; [done|]. split; [done|].
    split; [done|]. split; [done|]. split; [|by eapply Hkeep].
    destruct (finish_enabled cfg) eqn:Hfin; [by apply Hwin|].
    unfold checkWin. apply Z.eqb_neq. by eapply Hkeep.
  - destruct (level_logic_spec
                (USE_THRESHOLD cfg || negb (USE_FINISH cfg) || USE_BOTH cfg) true
                _ _ dx dy hitbox s (Hgen gen1 genF1) (Hgen gen2 genF2) Hwg Hok)
      as (s' & out & Hs & Hw' & Hok' & Hlen & Hmap & Hcnt & Hwin & _).
    exists s', out. unfold SDL2Only.frame_logic.
    split; [done|]. split; [done|]. split; [done|]. split; [done|].
    split; [done|]. split; [done|]. split; [by apply Hwin|by eapply Hkeep].
Qed.

(** X18: in [raycast_maze.cpp] the exploration threshold is compiled under
    [#ifdef USE_THRESHOLD] alone.  In a build that does not define that
    macro, [-DUSE_BOTH] included, a frame never shows the "explored enough"
    box, never records a visit, and a count of 0 stays 0: only the finish
    ends a level. *)
Theorem threshold_needs_USE_THRESHOLD cfg fuel gen1 genF1 gen2 genF2 dx dy hitbox s :
  USE_THRESHOLD cfg = false →
  (Z.to_nat (2 * W * H) ≤ fuel)%nat →
  wf W H (gameMap s) → tracker_ok W H (tracking s) →
  ∃ s' out,
    frame_logic W H fullscreen cfg fuel gen1 genF1 gen2 genF2 dx dy hitbox s
    = Ok (s', out)
    ∧ (out = [] ∨ out = [FoundFinish])
    ∧ (out = [] → tracking s' = tracking s)
    ∧ (distinctVisited (tracking s) = 0 → distinctVisited (tracking s') = 0).
Proof.
  intros Hoff Hfuel Hwg Hok.
  assert (∀ gen genF, generates (generateMaze W H cfg fuel gen genF)) as Hgen.
  { intros gen genF g Hg.
    exact (generateMaze_start_empty W H HW HH cfg fuel gen genF g Hg Hfuel). }
  unfold frame_logic, level_logic, updatePlayerPosition, resolveCircleCollision.
  rewrite Hoff.
  destruct (resolve_with_total W H (λ c, c =? 1) (gameMap s)
              (posX_player s + dx)%float (posY_player s + dy)%float hitbox)
    as ([x y] & ->). cbn [mbind result_bind gameMap posX_player posY_player].
  destruct (finish_enabled cfg && checkWin W H (gameMap s) x y).
  - match goal with
    | |- context [new_level W H fullscreen ?gen ?st] =>
        destruct (new_level_spec gen st (Hgen gen2 genF2) Hwg (proj1 Hok))
          as (s' & -> & _ & _ & Hc & _)
    end.
    cbn [mbind result_bind]. exists s', [FoundFinish]. split; [done|].
    split; [by right|]. split; [done|]. done.
  - eexists _, []. split; [reflexivity|]. split; [by left|]. cbn. done.
Qed.

End LevelFacts.

Lemma game0_map : wf MAP_WIDTH MAP_HEIGHT (gameMap game0).
Proof. exact wf_gameMap0. Qed.

Lemma game0_tracking : tracker_ok MAP_WIDTH MAP_HEIGHT (tracking game0).
Proof. exact tracker0_ok. Qed.

(** The zero-initialised map holds no finish cell. *)
Lemma game0_no_finish x y : getCell MAP_WIDTH MAP_HEIGHT (gameMap game0) x y ≠ Finish.
Proof.
  unfold getCell. destruct (_ || _) eqn:Hout; [done|].
  unfold cell, rd. destruct (in_range _ _ _ _); [|done].
  cbn [gameMap game0]. unfold gameMap0.
  destruct (replicate _ _ !! Z.to_nat y) as [row|] eqn:Hrow; [|done].
  apply lookup_replicate in Hrow as [-> _]. cbn [mbind option_bind].
  destruct (replicate _ _ !! Z.to_nat x) as [c|] eqn:Hc; [|done].
  apply lookup_replicate in Hc as [-> _]. done.
Qed.

(** X17, an instance: the first frame, one step ahead, full-screen, the
    build [-DUSE_THRESHOLD], which places no finish. *)
Lemma frame_keeps_level_in_play_witness :
  (Z.to_nat (2 * MAP_WIDTH * MAP_HEIGHT) ≤ Z.to_nat 125000)%nat
  ∧ wf MAP_WIDTH MAP_HEIGHT (gameMap game0)
  ∧ tracker_ok MAP_WIDTH MAP_HEIGHT (tracking game0)
  ∧ finish_enabled cfg_threshold = false
  ∧ (∀ x y, getCell MAP_WIDTH MAP_HEIGHT (gameMap game0) x y ≠ Finish)
  ∧ (∃ s' out,
       frame_logic MAP_WIDTH MAP_HEIGHT true cfg_threshold (Z.to_nat 125000)
         gen_first genF_top_first gen_first genF_bottom_last 0.125 0 hitbox_radius game0
       = Ok (s', out)
       ∧ wf MAP_WIDTH MAP_HEIGHT (gameMap s')
       ∧ tracker_ok MAP_WIDTH MAP_HEIGHT (tracking s')
       ∧ (length out ≤ 1)%nat
       ∧ (out = [] → gameMap s' = gameMap game0)
       ∧ (USE_THRESHOLD cfg_threshold = true →
          distinctVisited (tracking s') < explorationThreshold)
       ∧ checkWin MAP_WIDTH MAP_HEIGHT (gameMap s') (posX_player s') (posY_player s')
         = false
       ∧ (finish_enabled cfg_threshold = false →
          ∀ x y, getCell MAP_WIDTH MAP_HEIGHT (gameMap s') x y ≠ Finish))
  ∧ (∃ s' out,
       SDL2Only.frame_logic MAP_WIDTH MAP_HEIGHT true cfg_threshold (Z.to_nat 125000)
         gen_first genF_top_first gen_first genF_bottom_last 0.125 0 hitbox_radius game0
       = Ok (s', out)
       ∧ wf MAP_WIDTH MAP_HEIGHT (gameMap s')
       ∧ tracker_ok MAP_WIDTH MAP_HEIGHT (tracking s')
       ∧ (length out ≤ 1)%nat
       ∧ (out = [] → gameMap s' = gameMap game0)
       ∧ (USE_THRESHOLD cfg_threshold || negb (USE_FINISH cfg_threshold)
          || USE_BOTH cfg_threshold = true →
          distinctVisited (tracking s') < explorationThreshold)
       ∧ checkWin MAP_WIDTH MAP_HEIGHT (gameMap s') (posX_player s') (posY_player s')
         = false
       ∧ (finish_enabled cfg_threshold = false →
          ∀ x y, getCell MAP_WIDTH MAP_HEIGHT (gameMap s') x y ≠ Finish)).
Proof.
  split; [exact fuel_125000|]. split; [exact game0_map|].
  split; [exact game0_tracking|]. split; [reflexivity|].
  split; [exact game0_no_finish|].
  exact (frame_keeps_level_in_play 250 250 true three_le_250 three_le_250 int_max_250
           cfg_threshold (Z.to_nat 125000) gen_first genF_top_first gen_first
           genF_bottom_last 0.125 0 hitbox_radius game0
           fuel_125000 game0_map game0_tracking (λ _, game0_no_finish)).
Defined.

(** X18, an instance: the build [-DUSE_BOTH]. *)
Lemma threshold_needs_USE_THRESHOLD_witness :
  USE_THRESHOLD cfg_both = false
  ∧ (Z.to_nat (2 * MAP_WIDTH * MAP_HEIGHT) ≤ Z.to_nat 125000)%nat
  ∧ wf MAP_WIDTH MAP_HEIGHT (gameMap game0)
  ∧ tracker_ok MAP_WIDTH MAP_HEIGHT (tracking game0)
  ∧ ∃ s' out,
      frame_logic MAP_WIDTH MAP_HEIGHT true cfg_both (Z.to_nat 125000)
        gen_first genF_top_first gen_first genF_bottom_last 0.125 0 hitbox_radius game0
      = Ok (s', out)
      ∧ (out = [] ∨ out = [FoundFinish])
      ∧ (out = [] → tracking s' = tracking game0)
      ∧ (distinctVisited (tracking game0) = 0 → distinctVisited (tracking s') = 0).
Proof.
  split; [reflexivity|]. split; [exact fuel_125000|]. split; [exact game0_map|].
  split; [exact game0_tracking|].
  exact (threshold_needs_USE_THRESHOLD 250 250 true three_le_250 three_le_250
           cfg_both (Z.to_nat 125000) gen_first genF_top_first gen_first
           genF_bottom_last 0.125 0 hitbox_radius game0
           eq_refl fuel_125000 game0_map game0_tracking).
Defined.

(** ** The variants compared *)

Lemma for_loop_ext {St : Type} (body body' : Z → St → result St) n :
  (∀ j s, body j s = body' j s) →
  ∀ i s, for_loop n i body s = for_loop n i body' s.
Proof.
  intros Hext. induction n as [|n IH]; intros i s; [done|].
  cbn [for_loop]. rewrite Hext. destruct (body' i s) as [s'|e]; [|done].
  cbn [mbind result_bind]. apply IH.
Qed.

Section Variants.
Variables (W H : Z).

(** X19: [raycast_maze-v1.cpp] differs from [raycast_maze.cpp] only at its
    two tests.  On a map without a finish cell (every cell empty or wall)
    the two collision resolvers return the same position for every input,
    and for a position whose cell lies inside the map the two
    [updateVisited] return the same tracker. *)
Theorem variants_agree_elsewhere (g : list (list Z)) posX posY hitbox t :
  (∀ x y, getCell W H g x y = 0 ∨ getCell W H g x y = 1) →
  wf W H (visitedCells t) →
  V1.resolveCircleCollision W H g posX posY hitbox
  = resolveCircleCollision W H g posX posY hitbox
  ∧ (0 ≤ static_cast_int posX < W → 0 ≤ static_cast_int posY < H →
     V1.updateVisited W H posX posY t = updateVisited W H posX posY t).
Proof.
  intros Hbin Hwf. split.
  - unfold V1.resolveCircleCollision, resolveCircleCollision, resolve_with.
    destruct (scan_range W H posX posY hitbox) as [[[sx ex] sy] ey].
    unfold for_range. apply for_loop_ext. intros cy pos.
    apply for_loop_ext. intros cx [px py]. unfold resolve_cell.
    by destruct (Hbin cx cy) as [-> | ->].
  - intros Hx Hy. unfold V1.updateVisited, updateVisited, V1.recordVisit, recordVisit.
    destruct (rd_is_Some W H (visitedCells t) (static_cast_int posX)
                (static_cast_int posY) Hwf ltac:(apply in_range_spec; lia)) as [b ->].
    replace ((static_cast_int posX >=? 0) && (static_cast_int posX <? W)
             && (static_cast_int posY >=? 0) && (static_cast_int posY <? H))
      with true; [done|].
    symmetry. rewrite !andb_true_iff, !Z.geb_le, !Z.ltb_lt. lia.
Qed.

End Variants.

(** X19, an instance: the 3 by 3 room and the initial tracker. *)
Lemma variants_agree_elsewhere_witness :
  (∀ x y, getCell 3 3 room3 x y = 0 ∨ getCell 3 3 room3 x y = 1)
  ∧ wf 3 3 (replicate 3 (replicate 3 false))
  ∧ V1.resolveCircleCollision 3 3 room3 1.875 1.5 hitbox_radius
    = resolveCircleCollision 3 3 room3 1.875 1.5 hitbox_radius
  ∧ (0 ≤ static_cast_int 1.875 < 3 → 0 ≤ static_cast_int 1.5 < 3 →
     V1.updateVisited 3 3 1.875 1.5
       {| visitedCells := replicate 3 (replicate 3 false); distinctVisited := 0 |}
     = updateVisited 3 3 1.875 1.5
         {| visitedCells := replicate 3 (replicate 3 false); distinctVisited := 0 |}).
Proof.
  assert (∀ x y, getCell 3 3 room3 x y = 0 ∨ getCell 3 3 room3 x y = 1) as Hroom.
  { intros x y.
    destruct (decide (0 ≤ x < 3 ∧ 0 ≤ y < 3)) as [[Hx Hy]|Hout];
      [|right; by apply getCell_out].
    assert (x = 0 ∨ x = 1 ∨ x = 2) as [->|[->| ->]] by lia;
      assert (y = 0 ∨ y = 1 ∨ y = 2) as [->|[->| ->]] by lia;
      vm_compute; auto. }
  split; [exact Hroom|]. split; [exact (wf_replicate 3 3 false)|].
  exact (variants_agree_elsewhere 3 3 room3 1.875 1.5 hitbox_radius
           {| visitedCells := replicate 3 (replicate 3 false); distinctVisited := 0 |}
           Hroom (wf_replicate 3 3 false)).
Defined.
